(** * earthengine_imagery_downloader: nested filter configurations, season
      matching and the imagery tree

    A shallow embedding of [ee_imagery_downloader/utils.py] and
    [ee_imagery_downloader/eeImageryInterface.py].

    Conventions.
    - A Python [dict] is an association list in insertion order; the
      uniqueness of its keys is a hypothesis where a statement needs it.
    - A date is a point on the time line, an integer number of milliseconds
      since the epoch (the unit of [ee.Date]); parsing and printing dates
      with [strptime]/[strftime] is not modelled.
    - Earth Engine objects are client-side proxies: immutable descriptions
      of a server-side computation.  They are modelled as terms.
    - Exceptions are values of [exn]; a function that can raise returns a
      [result].
    - The imagery tree is a value while it is built; for retrieval, which
      copies it and assigns into the copy, its dicts are objects in a
      store and a call is a function on the state of that store. *)

From Stdlib Require Import ZArith Lia Ascii String Sorted Permutation DecimalString.
From stdpp Require Import base list strings numbers option.

Local Open Scope string_scope.
Local Open Scope list_scope.
Local Open Scope Z_scope.

(** ** Python values shared by the two modules *)

Inductive exn : Type :=
| ValueError (msg : string)
| AssertionError (msg : string)
| AttributeError (msg : string)
| TypeError (msg : string)
| KeyError (key : string).

Inductive result (A : Type) : Type :=
| Ok (a : A)
| Raise (e : exn).
Arguments Ok {A} a.
Arguments Raise {A} e.

Definition bind {A B : Type} (r : result A) (k : A -> result B) : result B :=
  match r with
  | Ok a => k a
  | Raise e => Raise e
  end.

Notation "'let*' x ':=' r 'in' k" := (bind r (fun x => k))
  (at level 10, x name, r at level 100, k at level 200).

(** [d[k]] read, [k in d] and [d[k] = v] on a dict. *)
Fixpoint dict_get {K V : Type} `{EqDecision K} (k : K) (d : list (K * V)) : option V :=
  match d with
  | [] => None
  | (k', v) :: rest => if decide (k = k') then Some v else dict_get k rest
  end.

Definition dict_has {K V : Type} `{EqDecision K} (k : K) (d : list (K * V)) : bool :=
  match dict_get k d with
  | Some _ => true
  | None => false
  end.

Fixpoint dict_set {K V : Type} `{EqDecision K} (k : K) (v : V) (d : list (K * V)) : list (K * V) :=
  match d with
  | [] => [(k, v)]
  | (k', v') :: rest =>
      if decide (k = k') then (k, v) :: rest else (k', v') :: dict_set k v rest
  end.

Definition keys {K V : Type} (d : list (K * V)) : list K := map fst d.

(** [del d[k]], for a key that is in the dict. *)
Definition dict_del {K V : Type} `{EqDecision K} (k : K) (d : list (K * V)) : list (K * V) :=
  List.filter (fun p => negb (bool_decide (p.1 = k))) d.

(** [str(n)] for an integer. *)
Definition str_int (n : Z) : string := NilZero.string_of_int (Z.to_int n).

(** [s.split(sep)] for a separator of one character, and [sep.join(l)] for
    a list of strings. *)
Fixpoint split (sep : ascii) (s : string) : list string :=
  match s with
  | EmptyString => [EmptyString]
  | String c rest =>
      if decide (c = sep) then EmptyString :: split sep rest
      else match split sep rest with
           | [] => [String c EmptyString]
           | word :: words => String c word :: words
           end
  end.

Fixpoint join_str (sep : string) (l : list string) : string :=
  match l with
  | [] => ""
  | [x] => x
  | x :: rest => x +:+ sep +:+ join_str sep rest
  end.

(** A key of a flattened path or of the imagery tree: a string, or Python's
    [None], which the flattener appends as its sentinel. *)
Definition key : Type := option string.

(** An argument of a filter: the configurations use strings and numbers. *)
Inductive arg : Type :=
| ArgStr (s : string)
| ArgInt (n : Z).

(** One entry of a ['filters'] list: [{'type': ..., 'args': [...]}]. *)
Record FilterSpec : Type := { type : string; args : list arg }.

(** A value of a filter configuration: a dict, or a list of filter
    descriptions (the value expected under the key ['filters']). *)
#[warnings="-register-all"]
Inductive FilterConfig : Type :=
| CDict (items : list (string * FilterConfig))
| CList (fs : list FilterSpec).

(** One element of the flattened list: [{'nested_keys': ..., 'filters': ...}]. *)
Record FlattenedEntry : Type := { nested_keys : list key; filters : FilterConfig }.

(** ** Earth Engine objects

    Client side, an [ee.ImageCollection] is a proxy: a description of the
    calls that produced it.  Server side, a collection is a list of images,
    of which the mosaicking code reads the properties ['system:time_start']
    and ['resolution_meters']. *)

Module ee.

(** A polygon, in thousandths of a degree. *)
Definition Geometry : Type := list (Z * Z).

Inductive Filter : Type :=
| Filter_date (start end_ : Z)              (* ee.Filter.date(start, end) *)
| Filter_bounds (geometry : Geometry)       (* ee.Filter.bounds(geometry) *)
| Filter_attr (type : string) (args : list arg).  (* getattr(ee.Filter, type)( *args ) *)

Inductive ImageCollection : Type :=
| IC_source (name : string)                                  (* ee.ImageCollection(name) *)
| IC_filter (c : ImageCollection) (f : Filter)               (* c.filter(f) *)
| IC_map_clip (c : ImageCollection) (roi : Geometry)         (* c.map(lambda img: img.clip(roi)) *)
| IC_select (c : ImageCollection) (bands : list string)      (* c.select(bands) *)
| IC_mosaics (c : ImageCollection) (startDate endDate : Z)
    (roi : Geometry) (mosaic_window : string).               (* the collection built by doMosaic *)

(** A server-side image: its two properties, the source tiles drawn into it
    (bottom first) and the region it was clipped to, if any. *)
Record Image : Type := {
  system_time_start : Z;
  resolution_meters : Z;
  tiles : list string;
  clipped_to : option Geometry
}.

(** [image.clip(roi)]. *)
Definition clip (img : Image) (roi : Geometry) : Image :=
  {| system_time_start := system_time_start img;
     resolution_meters := resolution_meters img;
     tiles := tiles img;
     clipped_to := Some roi |}.

(** [collection.filterDate(start, end)]: [start] inclusive, [end] exclusive. *)
Definition filterDate (collection : list Image) (start end_ : Z) : list Image :=
  List.filter (fun img => (start <=? system_time_start img) && (system_time_start img <? end_))
    collection.

(** [collection.sort('system:time_start')], ascending; images with equal
    times keep their order. *)
Fixpoint insert_by_time (img : Image) (sorted : list Image) : list Image :=
  match sorted with
  | [] => [img]
  | x :: rest =>
      if system_time_start img <? system_time_start x
      then img :: x :: rest
      else x :: insert_by_time img rest
  end.

Definition sort_by_time (collection : list Image) : list Image :=
  foldr insert_by_time [] collection.

(** [collection.mosaic()] with the two properties set from [first]: the
    images are drawn in order, the last on top. *)
Definition mosaic_set (first : Image) (collection : list Image) : Image :=
  {| system_time_start := system_time_start first;
     resolution_meters := resolution_meters first;
     tiles := concat (List.map tiles collection);
     clipped_to := None |}.

(** The length of a unit of [ee.Date.advance] and [ee.Date.difference], for
    the units whose length does not depend on the calendar. *)
Definition unit_millis (unit : string) : Z :=
  if decide (unit = "hour") then 3600000
  else if decide (unit = "day") then 86400000
  else if decide (unit = "week") then 604800000
  else 0.

(** [date.advance(delta, unit)] for a whole [delta]. *)
Definition advance (date : Z) (delta : Z) (unit : string) : Z :=
  date + delta * unit_millis unit.

(** [ee.List.sequence(0, endDate.difference(startDate, unit))]: the whole
    numbers from 0 up to the (fractional) difference, none when it is
    negative. *)
Definition sequence_to_difference (startDate endDate : Z) (unit : string) : list Z :=
  List.map Z.of_nat (seq 0 (Z.to_nat ((endDate - startDate) / unit_millis unit + 1))).

End ee.

(** ** utils.py *)

Module utils.

(** [flatten_nested_imagery_filters(filter_dict, nested_keys=[], max_depth=10)].
    A list has no ['filters'] element and no [items] method. *)
Fixpoint flatten_nested_imagery_filters (filter_dict : FilterConfig) (nested_keys : list key)
    (max_depth : Z) {struct filter_dict} : result (list FlattenedEntry) :=
  match filter_dict with
  | CList _ =>
      if max_depth <? 1
      then Ok [ {| nested_keys := nested_keys ++ [None]; filters := CList [] |} ]
      else Raise (AttributeError "'list' object has no attribute 'items'")
  | CDict items =>
      match dict_get "filters" items with
      | Some fs => Ok [ {| nested_keys := nested_keys; filters := fs |} ]
      | None =>
          if max_depth <? 1
          then Ok [ {| nested_keys := nested_keys ++ [None]; filters := CList [] |} ]
          else
            (fix children (its : list (string * FilterConfig))
                 (grouped_filters_list : list FlattenedEntry)
               : result (list FlattenedEntry) :=
               match its with
               | [] => Ok grouped_filters_list
               | (sub_key, sub_dict) :: rest =>
                   let* sub_grouped_filters_list :=
                     flatten_nested_imagery_filters sub_dict
                       (nested_keys ++ [Some sub_key]) (max_depth - 1) in
                   children rest (grouped_filters_list ++ sub_grouped_filters_list)
               end) items []
      end
  end.

(** The default of [max_depth]. *)
Definition default_max_depth : Z := 10.

(** [get_date_range_overlap]: [None] when the ranges do not meet. *)
Record DateRange : Type := { start : Z; end_ : Z }.

Definition get_date_range_overlap (range1_start range1_end range2_start range2_end : Z)
  : option DateRange :=
  let overlap_start := Z.max range1_start range2_start in
  let overlap_end := Z.min range1_end range2_end in
  if overlap_start >? overlap_end then None
  else Some {| start := overlap_start; end_ := overlap_end |}.

(** The guard at the head of [doMosaic] and [genMosaickingFunction]. *)
Definition supported_mosaic_windows : list string := ["hour"; "day"; "week"].

Definition check_mosaic_window (mosaic_window : string) : result unit :=
  if bool_decide (mosaic_window ∈ supported_mosaic_windows) then Ok tt
  else Raise (ValueError
    ("mosaic_window must be in ['hour', 'day', 'week']; received " +:+ mosaic_window)).

(** [doMosaic], client side: the guard, then the proxy of the collection of
    mosaics. *)
Definition doMosaic (collection : ee.ImageCollection) (startDate endDate : Z)
    (roi : ee.Geometry) (mosaic_window : string) : result ee.ImageCollection :=
  let* _ := check_mosaic_window mosaic_window in
  Ok (ee.IC_mosaics collection startDate endDate roi mosaic_window).

(** The closure [mosaicCollection] returned by [genMosaickingFunction]: it
    runs on the server, once per window start. *)
Definition mosaicCollection (sorted_collection : list ee.Image) (roi : ee.Geometry)
    (mosaic_window : string) (datetime : Z) (image_list : list ee.Image) : list ee.Image :=
  let tiles_in_window :=
    ee.filterDate sorted_collection datetime (ee.advance datetime 1 mosaic_window) in
  match tiles_in_window with
  | [] => image_list
  | first :: _ => image_list ++ [ee.clip (ee.mosaic_set first tiles_in_window) roi]
  end.

Definition genMosaickingFunction (image_collection : list ee.Image) (roi : ee.Geometry)
    (mosaic_window : string) : result (Z -> list ee.Image -> list ee.Image) :=
  let* _ := check_mosaic_window mosaic_window in
  let sorted_collection := ee.sort_by_time image_collection in
  Ok (mosaicCollection sorted_collection roi mosaic_window).

(** [hourly_datetime_list]: the window starts. *)
Definition hourly_datetime_list (startDate endDate : Z) (mosaic_window : string) : list Z :=
  List.map (fun hour => ee.advance startDate hour mosaic_window)
    (ee.sequence_to_difference startDate endDate mosaic_window).

(** [doMosaic], server side: the images of the collection it describes,
    when [collection] holds the images [collection]. *)
Definition doMosaic_images (collection : list ee.Image) (startDate endDate : Z)
    (roi : ee.Geometry) (mosaic_window : string) : result (list ee.Image) :=
  let* _ := check_mosaic_window mosaic_window in
  let* mosaicking_func := genMosaickingFunction collection roi mosaic_window in
  Ok (fold_left (fun image_list datetime => mosaicking_func datetime image_list)
        (hourly_datetime_list startDate endDate mosaic_window) []).

End utils.

(** ** config/roi_configs.py: the shape of one entry of [roi_configs] *)

Module roi_configs.

(** A season: ['date_start'], ['date_end'] and, per collection nickname, a
    filter configuration. *)
Record Season : Type := {
  date_start : Z;
  date_end : Z;
  collections : list (string * FilterConfig)
}.

(** The keys ['roi_coords'], ['image_collections'] and ['imagery_filters']
    may be missing. *)
Record RoiConfig : Type := {
  roi_coords : option ee.Geometry;
  crs : option string;
  image_collections : option (list (string * string));
  imagery_filters : option (list (string * Season))
}.

End roi_configs.

(** ** eeImageryInterface.py *)

Module eeImageryInterface.

(** [self.imagery] as a value: a collection, or a dict of subtrees. *)
#[warnings="-register-all"]
Inductive tree : Type :=
| Leaf (c : ee.ImageCollection)
| Node (children : list (key * tree)).

(** The attributes of an interface object once [__init__] has returned.
    [Imagery] is how [self.imagery] is held: as a value ([tree]) while the
    object is built, as a reference into the object store ([pyval], below)
    when retrieval calls run against it. *)
Record Session (Imagery : Type) : Type := {
  roi_name : string;
  config : roi_configs.RoiConfig;
  ee_roi : ee.Geometry;
  ee_collections : list (string * string);
  imagery_filters : list (string * roi_configs.Season);
  _flattened_filters : list (string * list (string * list FlattenedEntry));
  imagery : Imagery
}.
Arguments roi_name {Imagery} _.
Arguments config {Imagery} _.
Arguments ee_roi {Imagery} _.
Arguments ee_collections {Imagery} _.
Arguments imagery_filters {Imagery} _.
Arguments _flattened_filters {Imagery} _.
Arguments imagery {Imagery} _.

(** [str.lower] on ASCII letters. *)
Definition lower_ascii (c : ascii) : ascii :=
  let n := nat_of_ascii c in
  if (65 <=? n)%nat && (n <=? 90)%nat then ascii_of_nat (n + 32) else c.

Fixpoint lower (s : string) : string :=
  match s with
  | EmptyString => EmptyString
  | String c rest => String (lower_ascii c) (lower rest)
  end.

(** What [dt.datetime.now()] reads in [__init__]: the instant and its year. *)
Record Clock : Type := { now : Z; now_year : string }.

(** [for f in filters]: a list gives its elements; a dict gives its keys,
    which are strings and cannot be indexed by ['type']. *)
Definition iter_filters (filters : FilterConfig) : result (list FilterSpec) :=
  match filters with
  | CList fs => Ok fs
  | CDict [] => Ok []
  | CDict (_ :: _) => Raise (TypeError "string indices must be integers")
  end.

(** The assertion of lines 129-133 for the entries of one collection;
    [hasattr_Filter t] is [hasattr(ee.Filter, t)]. *)
Fixpoint assert_filter_types (hasattr_Filter : string -> bool) (coll_key : string)
    (fs : list FilterSpec) : result unit :=
  match fs with
  | [] => Ok tt
  | f :: rest =>
      if hasattr_Filter (type f) then assert_filter_types hasattr_Filter coll_key rest
      else Raise (AssertionError
             ("Invalid filter type provided for " +:+ coll_key +:+ ": " +:+ type f))
  end.

Fixpoint verify_flattened (hasattr_Filter : string -> bool) (coll_key : string)
    (flattened_filters : list FlattenedEntry) : result unit :=
  match flattened_filters with
  | [] => Ok tt
  | nested_filter :: rest =>
      let* fs := iter_filters (filters nested_filter) in
      let* _ := assert_filter_types hasattr_Filter coll_key fs in
      verify_flattened hasattr_Filter coll_key rest
  end.

(** The inner loop of lines 113-135, over the collections of one season;
    [flat] is [self._flattened_filters[szn]]. *)
Fixpoint flatten_season (hasattr_Filter : string -> bool)
    (ee_collections : list (string * string)) (szn : string)
    (coll_cfg : list (string * FilterConfig)) (flat : list (string * list FlattenedEntry))
  : result (list (string * list FlattenedEntry)) :=
  match coll_cfg with
  | [] => Ok flat
  | (coll_key, filt_cfg) :: rest =>
      if negb (dict_has coll_key ee_collections)
      then Raise (ValueError
             ("imagery_filters key " +:+ coll_key +:+ " for " +:+ szn +:+ " not recognized."))
      else
        let* flattened_filters :=
          utils.flatten_nested_imagery_filters filt_cfg [] utils.default_max_depth in
        let* _ := verify_flattened hasattr_Filter coll_key flattened_filters in
        flatten_season hasattr_Filter ee_collections szn rest
          (dict_set coll_key flattened_filters flat)
  end.

(** The outer loop of lines 112-135. *)
Fixpoint flatten_all (hasattr_Filter : string -> bool)
    (ee_collections : list (string * string))
    (seasons : list (string * roi_configs.Season))
    (flattened : list (string * list (string * list FlattenedEntry)))
  : result (list (string * list (string * list FlattenedEntry))) :=
  match seasons with
  | [] => Ok flattened
  | (szn, coll_cfg) :: rest =>
      let* flat :=
        flatten_season hasattr_Filter ee_collections szn (roi_configs.collections coll_cfg)
          (default [] (dict_get szn flattened)) in
      flatten_all hasattr_Filter ee_collections rest (dict_set szn flat flattened)
  end.

(** [_reset_imagery]. *)
Definition _reset_imagery (ee_collections : list (string * string))
    (imagery_filters : list (string * roi_configs.Season)) : tree :=
  Node (List.map (fun szn =>
          (Some szn, Node (List.map (fun coll_key => (Some coll_key, Node []))
                             (keys ee_collections))))
        (keys imagery_filters)).

(** Lines 433-436 and 445: walk [imgry_keys[:-1]] with [setdefault(k, {})],
    then assign under [imgry_keys[-1]].  The keys are [k :: rest]. *)
Fixpoint install (imgry_ptr : tree) (k : key) (rest : list key) (v : tree)
  : result tree :=
  match imgry_ptr with
  | Leaf _ =>
      match rest with
      | [] => Raise (TypeError "'ImageCollection' object does not support item assignment")
      | _ :: _ => Raise (AttributeError "'ImageCollection' object has no attribute 'setdefault'")
      end
  | Node children =>
      match rest with
      | [] => Ok (Node (dict_set k v children))
      | k' :: rest' =>
          let* sub := install (default (Node []) (dict_get k children)) k' rest' v in
          Ok (Node (dict_set k sub children))
      end
  end.

(** Lines 421-424: the date and region filters, then the clip. *)
Definition base_coll (ee_roi : ee.Geometry) (ee_coll_name : string)
    (date_start date_end : Z) : ee.ImageCollection :=
  ee.IC_map_clip
    (ee.IC_filter
       (ee.IC_filter (ee.IC_source ee_coll_name) (ee.Filter_date date_start date_end))
       (ee.Filter_bounds ee_roi))
    ee_roi.

(** Lines 439-443. *)
Definition apply_filters (base : ee.ImageCollection) (fs : list FilterSpec)
  : ee.ImageCollection :=
  fold_left (fun filtered_coll filter_components =>
               ee.IC_filter filtered_coll
                 (ee.Filter_attr (type filter_components) (args filter_components)))
    fs base.

(** Lines 428-445, for one season and one collection. *)
Fixpoint load_entries (base : ee.ImageCollection) (szn coll_key : string)
    (nested_filters : list FlattenedEntry) (imagery : tree) : result tree :=
  match nested_filters with
  | [] => Ok imagery
  | nested_filter :: rest =>
      let* fs := iter_filters (filters nested_filter) in
      let* imagery' :=
        install imagery (Some szn) (Some coll_key :: nested_keys nested_filter)
          (Leaf (apply_filters base fs)) in
      load_entries base szn coll_key rest imagery'
  end.

(** Lines 417-445, for one season. *)
Fixpoint load_collections (ee_roi : ee.Geometry) (ee_collections : list (string * string))
    (szn : string) (date_start date_end : Z)
    (flat : list (string * list FlattenedEntry)) (imagery : tree) : result tree :=
  match flat with
  | [] => Ok imagery
  | (coll_key, nested_filters) :: rest =>
      match dict_get coll_key ee_collections with
      | None => Raise (KeyError coll_key)
      | Some ee_coll_name =>
          let* imagery' :=
            load_entries (base_coll ee_roi ee_coll_name date_start date_end)
              szn coll_key nested_filters imagery in
          load_collections ee_roi ee_collections szn date_start date_end rest imagery'
      end
  end.

(** Lines 412-445. *)
Fixpoint load_seasons (ee_roi : ee.Geometry) (ee_collections : list (string * string))
    (flattened : list (string * list (string * list FlattenedEntry)))
    (seasons : list (string * roi_configs.Season)) (imagery : tree) : result tree :=
  match seasons with
  | [] => Ok imagery
  | (szn, f) :: rest =>
      match dict_get szn flattened with
      | None => Raise (KeyError szn)
      | Some flat =>
          let* imagery' :=
            load_collections ee_roi ee_collections szn
              (roi_configs.date_start f) (roi_configs.date_end f) flat imagery in
          load_seasons ee_roi ee_collections flattened rest imagery'
      end
  end.

Definition _loadImagery (ee_roi : ee.Geometry) (ee_collections : list (string * string))
    (imagery_filters : list (string * roi_configs.Season))
    (flattened : list (string * list (string * list FlattenedEntry))) : result tree :=
  load_seasons ee_roi ee_collections flattened imagery_filters
    (_reset_imagery ee_collections imagery_filters).

(** Lines 79-85: [self.ee_collections], with its default. *)
Definition collections_of (config : roi_configs.RoiConfig) : list (string * string) :=
  default [("S1", "COPERNICUS/S1_GRD"); ("S2", "COPERNICUS/S2")]
    (roi_configs.image_collections config).

(** Lines 88-100: [self.imagery_filters], with its default: the last two
    weeks, for every collection, without filters. *)
Definition filters_of (clock : Clock) (config : roi_configs.RoiConfig)
  : list (string * roi_configs.Season) :=
  default
    [(now_year clock,
      {| roi_configs.date_start := ee.advance (now clock) (-2) "week";
         roi_configs.date_end := now clock;
         roi_configs.collections :=
           List.map (fun coll_key => (coll_key, CDict [])) (keys (collections_of config)) |})]
    (roi_configs.imagery_filters config).

(** Lines 105-109: [self._flattened_filters] before the loop. *)
Definition empty_flattened (ee_collections : list (string * string))
    (imagery_filters : list (string * roi_configs.Season))
  : list (string * list (string * list FlattenedEntry)) :=
  List.map (fun szn =>
              (szn, List.map (fun coll_key => (coll_key, @nil FlattenedEntry))
                      (keys ee_collections)))
    (keys imagery_filters).

(** [__init__(roi)], given the registry [roi_configs]. *)
Definition __init__ (hasattr_Filter : string -> bool)
    (registry : list (string * roi_configs.RoiConfig)) (clock : Clock) (roi : string)
  : result (Session tree) :=
  let roi := lower roi in
  match dict_get roi registry with
  | None => Raise (ValueError ("'" +:+ roi +:+ "' is not registered in roi_configs"))
  | Some config =>
      match roi_configs.roi_coords config with
      | None => Raise (ValueError
                  "roi_coords (list of [lat, ln]) should be specified in roi_configs")
      | Some coords =>
          let ee_collections := collections_of config in
          let imagery_filters := filters_of clock config in
          let* flattened :=
            flatten_all hasattr_Filter ee_collections imagery_filters
              (empty_flattened ee_collections imagery_filters) in
          let* imagery := _loadImagery coords ee_collections imagery_filters flattened in
          Ok {| roi_name := roi;
                config := config;
                ee_roi := coords;
                ee_collections := ee_collections;
                imagery_filters := imagery_filters;
                _flattened_filters := flattened;
                imagery := imagery |}
      end
  end.

(** *** Retrieval

    [getImagery] copies a subtree of [self.imagery] and assigns into the
    dicts of the copy, so dicts are objects in a store, named by their
    location; a collection proxy is immutable and is a value. *)

Definition loc : Type := nat.

Inductive pyval : Type :=
| VColl (c : ee.ImageCollection)
| VRef (l : loc).

Definition pydict : Type := list (key * pyval).

(** The store of dicts, what [warnings.warn] was called with and what was
    printed. *)
Record state : Type := {
  heap : list pydict;
  warnings : list string;
  stdout : list string
}.

Definition set_heap (h : list pydict) (s : state) : state :=
  {| heap := h; warnings := warnings s; stdout := stdout s |}.

Definition warn (msg : string) (s : state) : state :=
  {| heap := heap s; warnings := warnings s ++ [msg]; stdout := stdout s |}.

Definition print (msg : string) (s : state) : state :=
  {| heap := heap s; warnings := warnings s; stdout := stdout s ++ [msg] |}.

(** How a call ends: with a value, with an exception, or not at all within
    the model (the recursion fuel ran out, or a reference names no dict). *)
Inductive outcome (A : Type) : Type :=
| Return (a : A) (s : state)
| Raised (e : exn) (s : state)
| Undefined.
Arguments Return {A} a s.
Arguments Raised {A} e s.
Arguments Undefined {A}.

(** [str(k)] and ['/'.join(ks)]; joining fails on [None]. *)
Definition str_key (k : key) : string := default "None" k.

Fixpoint join (sep : string) (ks : list key) : result string :=
  match ks with
  | [] => Ok ""
  | None :: _ => Raise (TypeError "sequence item: expected str instance, NoneType found")
  | [Some k] => Ok k
  | Some k :: rest => let* tail := join sep rest in Ok (k +:+ sep +:+ tail)
  end.

(** [v[k]]. *)
Inductive getitem_result : Type :=
| Found (v : pyval)
| NoKey
| NotSubscriptable
| Dangling.

Definition getitem (h : list pydict) (v : pyval) (k : key) : getitem_result :=
  match v with
  | VColl _ => NotSubscriptable
  | VRef l =>
      match h !! l with
      | None => Dangling
      | Some d => match dict_get k d with Some v' => Found v' | None => NoKey end
      end
  end.

(** [d[k] = v] on the dict at [l]. *)
Definition setitem (l : loc) (k : key) (v : pyval) (h : list pydict) : list pydict :=
  alter (dict_set k v) l h.

(** The loop of [copy.deepcopy] over the items of a dict, filling the new
    dict [y]: [y[k] = copy(child)]. *)
Fixpoint copy_items (copy : pyval -> list pydict -> option (pyval * list pydict))
    (y : loc) (its : pydict) (h : list pydict) : option (list pydict) :=
  match its with
  | [] => Some h
  | (k, child) :: rest =>
      match copy child h with
      | None => None
      | Some (child', h') => copy_items copy y rest (setitem y k child' h')
      end
  end.

(** [copy.deepcopy(v)] on a tree of dicts: the new dict is created first,
    then filled with the copies of the values. *)
Fixpoint deepcopy (fuel : nat) (v : pyval) (h : list pydict) : option (pyval * list pydict) :=
  match v with
  | VColl c => Some (VColl c, h)
  | VRef l =>
      match fuel with
      | O => None
      | S fuel' =>
          match h !! l with
          | None => None
          | Some d =>
              let y := length h in
              match copy_items (deepcopy fuel') y d (h ++ [[]]) with
              | None => None
              | Some h' => Some (VRef y, h')
              end
          end
      end
  end.

(** [_handle_season_and_date_query_args].  A [date_query] is a dict from
    ['start'] and ['end'] to dates; a season is a string or [None]. *)
Definition truthy_season (season : option string) : bool :=
  match season with
  | Some s => negb (bool_decide (s = ""))
  | None => false
  end.

Definition truthy_dict {K V : Type} (d : list (K * V)) : bool :=
  match d with
  | [] => false
  | _ :: _ => true
  end.

Definition _handle_season_and_date_query_args {I : Type} (self : Session I)
    (season : option string) (date_query : list (string * Z)) (s : state)
  : outcome (option string * list (string * Z)) :=
  let '(date_query, s) :=
    if truthy_dict date_query
       && negb (dict_has "start" date_query && dict_has "end" date_query)
    then ([], warn "date_query must contain keys 'start' and 'end', which were not found." s)
    else (date_query, s) in
  let '(season, s) :=
    if truthy_season season && truthy_dict date_query
    then (None, warn ("Specifying season as well as date_query is redundant; "
                      +:+ "season will be ignored in favour of date_query.") s)
    else (season, s) in
  let '(season, s) :=
    if truthy_season season && negb (dict_has (default "" season) (imagery_filters self))
    then (None, warn ("season '" +:+ default "" season +:+ "' not found in imagery_filters for "
                      +:+ roi_name self) s)
    else (season, s) in
  if negb (truthy_season season) && negb (truthy_dict date_query)
  then Raised (ValueError "Must specify valid season or date_query to getImagery") s
  else Return (season, date_query) s.

(** [_parse_date_query]: the loop of lines 512-527, then lines 529-537. *)
Module parsed.
Record ParsedDateQuery : Type := { season : string; start : Z; end_ : Z }.
End parsed.

Fixpoint match_season (start_date end_date : Z)
    (seasons : list (string * roi_configs.Season)) : option (string * utils.DateRange) :=
  match seasons with
  | [] => None
  | (szn, szn_filts) :: rest =>
      let szn_start := roi_configs.date_start szn_filts in
      let szn_end := roi_configs.date_end szn_filts in
      match utils.get_date_range_overlap start_date end_date szn_start szn_end with
      | None => match_season start_date end_date rest
      | Some overlap_dates => Some (szn, overlap_dates)
      end
  end.

Definition _parse_date_query {I : Type} (self : Session I) (date_query : list (string * Z))
  : result parsed.ParsedDateQuery :=
  match dict_get "start" date_query with
  | None => Raise (KeyError "start")
  | Some start_date =>
      match dict_get "end" date_query with
      | None => Raise (KeyError "end")
      | Some end_date =>
          match match_season start_date end_date (imagery_filters self) with
          | None =>
              Raise (ValueError
                ("date_query did not match date range for any seasons configured for "
                 +:+ roi_name self +:+ "."))
          | Some (matched_szn, overlap_dates) =>
              Ok {| parsed.season := matched_szn;
                    parsed.start := utils.start overlap_dates;
                    parsed.end_ := utils.end_ overlap_dates |}
          end
      end
  end.

(** The part of a path in the message printed before mosaicking:
    ['/' + '/'.join(ks) if ks else '']. *)
Definition slash_path (ks : list key) : result string :=
  match ks with
  | [] => Ok ""
  | _ :: _ => let* joined := join "/" ks in Ok ("/" +:+ joined)
  end.

(** The loop of lines 245-246 over the keys of the dict at [l]:
    [ptr[child_key] = apply(ptr[child_key], sub_keys + [child_key])]. *)
Fixpoint process_children (apply : pyval -> list key -> state -> outcome pyval)
    (l : loc) (sub_keys : list key) (child_keys : list key) (s : state) : outcome unit :=
  match child_keys with
  | [] => Return tt s
  | child_key :: rest =>
      match getitem (heap s) (VRef l) child_key with
      | Found child =>
          match apply child (sub_keys ++ [child_key]) s with
          | Return v s' =>
              process_children apply l sub_keys rest
                (set_heap (setitem l child_key v (heap s')) s')
          | Raised e s' => Raised e s'
          | Undefined => Undefined
          end
      | NoKey => Raised (KeyError (str_key child_key)) s
      | NotSubscriptable | Dangling => Undefined
      end
  end.

Section apply_processing.

(** The variables of [getImagery] that the nested function reads; [query]
    is [(query_start, query_end)] when [date_query] is given. *)
Variables (ee_roi : ee.Geometry) (collection : string) (nested_keys : list key)
          (bands : list string) (query : option (Z * Z)) (mosaic_window : option string)
          (date_start date_end : Z).

(** The base case of [apply_processing], lines 224-242. *)
Definition process_leaf (ptr : ee.ImageCollection) (sub_keys : list key) (s : state)
  : outcome ee.ImageCollection :=
  let ptr :=
    match query with
    | Some (query_start, query_end) =>
        ee.IC_filter ptr (ee.Filter_date query_start query_end)
    | None => ptr
    end in
  let ptr :=
    match bands with
    | [] => ptr
    | _ :: _ => ee.IC_select ptr bands
    end in
  match mosaic_window with
  | None => Return ptr s
  | Some window =>
      match (let* a := slash_path nested_keys in
             let* b := slash_path sub_keys in
             Ok ("Mosaicking " +:+ collection +:+ a +:+ b +:+ " by " +:+ window)) with
      | Raise e => Raised e s
      | Ok msg =>
          let s := print msg s in
          match utils.doMosaic ptr date_start date_end ee_roi window with
          | Ok mosaics => Return mosaics s
          | Raise e => Raised e s
          end
      end
  end.

(** [apply_processing(ptr, sub_keys=[])], lines 222-248. *)
Fixpoint apply_processing (fuel : nat) (ptr : pyval) (sub_keys : list key) (s : state)
  : outcome pyval :=
  match ptr with
  | VColl c =>
      match process_leaf c sub_keys s with
      | Return c' s' => Return (VColl c') s'
      | Raised e s' => Raised e s'
      | Undefined => Undefined
      end
  | VRef l =>
      match fuel with
      | O => Undefined
      | S fuel' =>
          match heap s !! l with
          | None => Undefined
          | Some d =>
              match process_children (apply_processing fuel') l sub_keys (keys d) s with
              | Return _ s' => Return (VRef l) s'
              | Raised e s' => Raised e s'
              | Undefined => Undefined
              end
          end
      end
  end.

End apply_processing.

(** The loop of lines 200-204: only [KeyError] is caught. *)
Fixpoint descend (season : option string) (collection : string) (imgry : pyval)
    (nested_keys : list key) (s : state) : outcome pyval :=
  match nested_keys with
  | [] => Return imgry s
  | k :: rest =>
      match getitem (heap s) imgry k with
      | Found sub => descend season collection sub rest s
      | NoKey =>
          descend season collection imgry rest
            (warn ("Nested key " +:+ str_key k +:+ " not found in " +:+ str_key season
                   +:+ ", " +:+ collection) s)
      | NotSubscriptable => Raised (TypeError "'ImageCollection' object is not subscriptable") s
      | Dangling => Undefined
      end
  end.

(** [getImagery(collection, nested_keys, bands, season, date_query,
    mosaic_window)]; the result is [None] or a subtree. *)
Definition getImagery (fuel : nat) (self : Session pyval) (collection : string)
    (nested_keys : list key) (bands : list string) (season : option string)
    (date_query : list (string * Z)) (mosaic_window : option string) (s : state)
  : outcome (option pyval) :=
  match _handle_season_and_date_query_args self season date_query s with
  | Raised e s => Raised e s
  | Undefined => Undefined
  | Return (season, date_query) s =>
      match (if truthy_dict date_query
             then let* parsed_date_query := _parse_date_query self date_query in
                  Ok (Some (parsed.season parsed_date_query),
                      Some (parsed.start parsed_date_query, parsed.end_ parsed_date_query))
             else Ok (season, None)) with
      | Raise e => Raised e s
      | Ok (season, query) =>
          let not_loaded :=
            Return None
              (warn ("imagery not loaded for " +:+ str_key season +:+ ", " +:+ collection) s) in
          match getitem (heap s) (imagery self) season with
          | NoKey => not_loaded
          | NotSubscriptable =>
              Raised (TypeError "'ImageCollection' object is not subscriptable") s
          | Dangling => Undefined
          | Found by_season =>
              match getitem (heap s) by_season (Some collection) with
              | NoKey => not_loaded
              | NotSubscriptable =>
                  Raised (TypeError "'ImageCollection' object is not subscriptable") s
              | Dangling => Undefined
              | Found canonical =>
                  match deepcopy fuel canonical (heap s) with
                  | None => Undefined
                  | Some (imgry, h) =>
                      match descend season collection imgry nested_keys (set_heap h s) with
                      | Raised e s => Raised e s
                      | Undefined => Undefined
                      | Return imgry s =>
                          match query, mosaic_window, bands with
                          | None, None, [] => Return (Some imgry) s
                          | _, _, _ =>
                              match
                                (match query with
                                 | Some (query_start, query_end) => Ok (query_start, query_end)
                                 | None =>
                                     match dict_get (default "" season) (imagery_filters self) with
                                     | Some f => Ok (roi_configs.date_start f, roi_configs.date_end f)
                                     | None => Raise (KeyError (str_key season))
                                     end
                                 end)
                              with
                              | Raise e => Raised e s
                              | Ok (date_start, date_end) =>
                                  match apply_processing (ee_roi self) collection nested_keys
                                          bands query mosaic_window date_start date_end
                                          fuel imgry [] s with
                                  | Return v s => Return (Some v) s
                                  | Raised e s => Raised e s
                                  | Undefined => Undefined
                                  end
                              end
                          end
                      end
                  end
              end
          end
      end
  end.

(** The keyword arguments of a call of [getImagery]; each has its default
    and may be given once, in any position. *)
Inductive keyword : Type :=
| kw_nested_keys (v : list key)
| kw_bands (v : list string)
| kw_season (v : option string)
| kw_date_query (v : list (string * Z))
| kw_mosaic_window (v : option string).

Definition keyword_name (kw : keyword) : string :=
  match kw with
  | kw_nested_keys _ => "nested_keys"
  | kw_bands _ => "bands"
  | kw_season _ => "season"
  | kw_date_query _ => "date_query"
  | kw_mosaic_window _ => "mosaic_window"
  end.

Record Arguments_ : Type := {
  arg_nested_keys : list key;
  arg_bands : list string;
  arg_season : option string;
  arg_date_query : list (string * Z);
  arg_mosaic_window : option string
}.

Definition defaults : Arguments_ :=
  {| arg_nested_keys := []; arg_bands := []; arg_season := None;
     arg_date_query := []; arg_mosaic_window := None |}.

Definition bind_keyword (a : Arguments_) (kw : keyword) : Arguments_ :=
  match kw with
  | kw_nested_keys v =>
      {| arg_nested_keys := v; arg_bands := arg_bands a; arg_season := arg_season a;
         arg_date_query := arg_date_query a; arg_mosaic_window := arg_mosaic_window a |}
  | kw_bands v =>
      {| arg_nested_keys := arg_nested_keys a; arg_bands := v; arg_season := arg_season a;
         arg_date_query := arg_date_query a; arg_mosaic_window := arg_mosaic_window a |}
  | kw_season v =>
      {| arg_nested_keys := arg_nested_keys a; arg_bands := arg_bands a; arg_season := v;
         arg_date_query := arg_date_query a; arg_mosaic_window := arg_mosaic_window a |}
  | kw_date_query v =>
      {| arg_nested_keys := arg_nested_keys a; arg_bands := arg_bands a;
         arg_season := arg_season a; arg_date_query := v;
         arg_mosaic_window := arg_mosaic_window a |}
  | kw_mosaic_window v =>
      {| arg_nested_keys := arg_nested_keys a; arg_bands := arg_bands a;
         arg_season := arg_season a; arg_date_query := arg_date_query a;
         arg_mosaic_window := v |}
  end.

(** A call [self.getImagery(collection, kw1=..., kw2=..., ...)]. *)
Definition call_getImagery (fuel : nat) (self : Session pyval) (collection : string)
    (kws : list keyword) (s : state) : outcome (option pyval) :=
  let a := fold_left bind_keyword kws defaults in
  getImagery fuel self collection (arg_nested_keys a) (arg_bands a) (arg_season a)
    (arg_date_query a) (arg_mosaic_window a) s.

(** Placing a tree value in the store: the dicts of the tree become
    objects, children before their parent. *)
Fixpoint store (t : tree) (h : list pydict) {struct t} : pyval * list pydict :=
  match t with
  | Leaf c => (VColl c, h)
  | Node children =>
      let '(d, h') :=
        (fix store_children (ch : list (key * tree)) (h : list pydict)
           : pydict * list pydict :=
           match ch with
           | [] => ([], h)
           | (k, sub) :: rest =>
               let '(v, h1) := store sub h in
               let '(d, h2) := store_children rest h1 in
               ((k, v) :: d, h2)
           end) children h in
      (VRef (length h'), h' ++ [d])
  end.

(** The tree below a value of the store. *)
Fixpoint load_items (load : pyval -> option tree) (its : pydict)
  : option (list (key * tree)) :=
  match its with
  | [] => Some []
  | (k, v) :: rest =>
      match load v, load_items load rest with
      | Some t, Some ts => Some ((k, t) :: ts)
      | _, _ => None
      end
  end.

Fixpoint load (fuel : nat) (h : list pydict) (v : pyval) : option tree :=
  match v with
  | VColl c => Some (Leaf c)
  | VRef l =>
      match fuel with
      | O => None
      | S fuel' =>
          match h !! l with
          | None => None
          | Some d => option_map Node (load_items (load fuel' h) d)
          end
      end
  end.

(** An interface object whose [imagery] lives in the store. *)
Definition in_store (self : Session tree) (h : list pydict) : Session pyval * list pydict :=
  let '(v, h') := store (imagery self) h in
  ({| roi_name := roi_name self; config := config self; ee_roi := ee_roi self;
      ee_collections := ee_collections self; imagery_filters := imagery_filters self;
      _flattened_filters := _flattened_filters self; imagery := v |}, h').

(** *** [seasonsLoaded]

    [sorted] on strings; [self.imagery] is given as the dict it is at the
    top, keyed by season names. *)
Fixpoint insert_sorted (k : string) (sorted : list string) : list string :=
  match sorted with
  | [] => [k]
  | x :: rest =>
      if (k <=? x)%string then k :: x :: rest else x :: insert_sorted k rest
  end.

Definition sorted (l : list string) : list string := foldr insert_sorted [] l.

Definition seasonsLoaded (imagery : list (string * tree)) : list string :=
  sorted (keys imagery).

(** *** [exportImagery]: the export parameters, lines 292-322

    A value of [export_params]: a number (['scale']), a string (['crs'],
    ['folder'], ['dimensions']) or a list of numbers (['crsTransform']). *)
Inductive param : Type :=
| PInt (n : Z)
| PStr (s : string)
| PList (l : list Z).

Definition geom_args : list string := ["scale"; "crsTransform"; "dimensions"].

(** [if k in d: del d[k]]. *)
Definition del_if_in (k : string) (d : list (string * param)) : list (string * param) :=
  if dict_has k d then dict_del k d else d.

(** The caller's dict is changed in place: each part answers with the
    dict as it is when the part is left, by return or by exception.

    Lines 293-307: one of the three is required; of several, one is kept. *)
Definition check_geom_args (export_params : list (string * param)) (s : state)
  : list (string * param) * outcome unit :=
  let geom_args_provided := List.map (fun k => dict_has k export_params) geom_args in
  if negb (existsb id geom_args_provided)
  then (export_params,
        Raised (ValueError "One of scale, crsTransform, dimensions is required in export_params")
          s)
  else if (1 <? length (List.filter id geom_args_provided))%nat
  then
    let msg := "More than one of scale,crsTransform,dimensions provided; " in
    if dict_has "dimensions" export_params
    then (del_if_in "scale" (del_if_in "crsTransform" export_params),
          Return tt (warn (msg +:+ "Using dimensions.") s))
    else if dict_has "crsTransform" export_params
    then (del_if_in "scale" export_params, Return tt (warn (msg +:+ "Using crsTransform") s))
    else (export_params, Return tt (warn msg s))
  else (export_params, Return tt s).

(** Lines 310-314. *)
Definition default_crs {I : Type} (self : Session I) (export_params : list (string * param))
  : list (string * param) :=
  if dict_has "crs" export_params then export_params
  else dict_set "crs" (PStr (default "EPSG:4326" (roi_configs.crs (config self))))
         export_params.

(** Lines 316-322. *)
Definition default_folder {I : Type} (self : Session I) (collection : string)
    (nested_keys : list key) (season : option string) (date_query : list (string * Z))
    (export_params : list (string * param)) (s : state)
  : list (string * param) * outcome unit :=
  if dict_has "folder" export_params then (export_params, Return tt s)
  else
    match (if truthy_dict date_query
           then let* parsed_date_query := _parse_date_query self date_query in
                Ok (Some (parsed.season parsed_date_query))
           else Ok season) with
    | Raise e => (export_params, Raised e s)
    | Ok szn_name =>
        match join "_" nested_keys with
        | Raise e => (export_params, Raised e s)
        | Ok joined =>
            (dict_set "folder"
               (PStr (roi_name self +:+ "/" +:+ collection +:+ "_" +:+ str_key szn_name
                      +:+ "/" +:+ joined))
               export_params,
             Return tt s)
        end
    end.

(** Lines 292-322. *)
Definition exportImagery_params {I : Type} (self : Session I) (collection : string)
    (nested_keys : list key) (season : option string) (date_query : list (string * Z))
    (export_params : list (string * param)) (s : state)
  : list (string * param) * outcome unit :=
  match check_geom_args export_params s with
  | (export_params, Return _ s) =>
      default_folder self collection nested_keys season date_query
        (default_crs self export_params) s
  | (export_params, o) => (export_params, o)
  end.

(** *** [exportImagery]: one pass over the tasks, lines 369-381

    [states] holds what [t.status()['state']] answers for each task in
    this pass. *)
Record Poll : Type := {
  task_outstanding : bool;
  n_completed : nat;
  n_failed : nat;
  failed_taskids : list nat
}.

Definition is_finished (t_state : string) : bool :=
  bool_decide (t_state ∈ ["COMPLETED"; "FAILED"; "CANCELLED"]).

Definition is_failed (t_state : string) : bool :=
  bool_decide (t_state ∈ ["FAILED"; "CANCELLED"]).

Fixpoint poll_tasks (i : nat) (states : list string) (p : Poll) (s : state) : Poll * state :=
  match states with
  | [] => (p, s)
  | t_state :: rest =>
      if negb (is_finished t_state)
      then poll_tasks (S i) rest
             {| task_outstanding := true; n_completed := n_completed p;
                n_failed := n_failed p; failed_taskids := failed_taskids p |} s
      else if is_failed t_state && negb (bool_decide (i ∈ failed_taskids p))
      then poll_tasks (S i) rest
             {| task_outstanding := task_outstanding p; n_completed := n_completed p;
                n_failed := S (n_failed p); failed_taskids := failed_taskids p ++ [i] |}
             (print ("Task " +:+ str_int (Z.of_nat i) +:+ " failed.") s)
      else poll_tasks (S i) rest
             {| task_outstanding := task_outstanding p; n_completed := S (n_completed p);
                n_failed := n_failed p; failed_taskids := failed_taskids p |} s
  end.

Definition poll_pass (states : list string) (failed_taskids : list nat) (s : state)
  : Poll * state :=
  poll_tasks 0 states
    {| task_outstanding := false; n_completed := 0; n_failed := 0;
       failed_taskids := failed_taskids |} s.

End eeImageryInterface.

(** ** utils.py, continued: the functions that [exportImagery] calls *)

Module utils_export.

Import eeImageryInterface.

(** [user_confirms(question, default=True)]; [input_line] is what
    [input()] reads.  The loop never reads again, so it is given fuel. *)
Definition valid_responses : list (string * bool) :=
  [("yes", true); ("y", true); ("ye", true); ("no", false); ("n", false)].

Fixpoint user_confirms_loop (fuel : nat) (default : option bool) (choice : string)
    (s : state) : outcome bool :=
  match fuel with
  | O => Undefined
  | S fuel' =>
      match default, decide (choice = "") with
      | Some answer, left _ => Return answer s
      | _, _ =>
          match dict_get choice valid_responses with
          | Some answer => Return answer s
          | None =>
              user_confirms_loop fuel' default choice
                (print "valid responses are yes, y, ye, no, n" s)
          end
      end
  end.

Definition user_confirms (fuel : nat) (question : string) (default : option bool)
    (input_line : string) (s : state) : outcome bool :=
  let prompt :=
    match default with
    | Some true => "[Y/n]"
    | Some false => "[y/N]"
    | None => "[y/n]"
    end in
  let s := print (question +:+ " " +:+ prompt) s in
  let choice := lower input_line in
  user_confirms_loop fuel default choice s.

(** [genImageBasename(collection, nested_keys=[], scale=None)]. *)
Definition genImageBasename (collection : string) (nested_keys : list key)
    (scale : option Z) : result string :=
  let* keys_part :=
    match nested_keys with
    | [] => Ok ""
    | _ :: _ => let* joined := join "_" nested_keys in Ok ("_" +:+ joined)
    end in
  let scale_part :=
    match scale with
    | Some n => if decide (n = 0) then "" else "_" +:+ str_int n +:+ "m"
    | None => ""
    end in
  Ok (collection +:+ keys_part +:+ scale_part).

(** [exportImageCollection], lines 186-191: the three arguments that
    describe the pixel grid, as passed to [Export.image.toDrive]. *)
Record GridArgs : Type := {
  dimensions : option param;
  crsTransform : option param;
  scale : option param
}.

Definition grid_args (export_params : list (string * param)) : GridArgs :=
  if dict_has "dimensions" export_params
  then {| dimensions := dict_get "dimensions" export_params;
          crsTransform := None; scale := None |}
  else if dict_has "scale" export_params
  then {| dimensions := None; crsTransform := None;
          scale := dict_get "scale" export_params |}
  else if dict_has "crsTransform" export_params
  then {| dimensions := None; crsTransform := dict_get "crsTransform" export_params;
          scale := None |}
  else {| dimensions := None; crsTransform := None; scale := None |}.

End utils_export.

(** ** scripts/export_imagery.py and scripts/download_drive_files.py *)

Module export_imagery.

(** [parse_args], lines 48-52: [--keys] and [--bands], each [None] or a
    string. *)
Definition split_argument (argument : option string) : list string :=
  match argument with
  | None | Some EmptyString => []
  | Some s => split "_" s
  end.

(** The parameters of [exportImagery] after [self], and the keywords of
    the call in lines 91-101, which passes the collection by position. *)
Definition exportImagery_parameters : list string :=
  ["collection"; "nested_keys"; "bands"; "season"; "date_query"; "mosaic_window";
   "export_params"].

Definition call_keywords : list string :=
  ["bands"; "nested_keys"; "season"; "date_query"; "mosaic"; "export_params"].

(** How Python binds the keywords of a call of a function without
    [**kwargs], after [positional] arguments given by position. *)
Fixpoint bind_keywords (fname : string) (parameters : list string) (positional : nat)
    (keywords : list string) : result unit :=
  match keywords with
  | [] => Ok tt
  | kw :: rest =>
      if negb (bool_decide (kw ∈ parameters))
      then Raise (TypeError (fname +:+ "() got an unexpected keyword argument '" +:+ kw +:+ "'"))
      else if bool_decide (kw ∈ take positional parameters)
      then Raise (TypeError (fname +:+ "() got multiple values for argument '" +:+ kw +:+ "'"))
      else bind_keywords fname parameters positional rest
  end.

(** The two statements of the script after [parse_args], up to the entry
    into [exportImagery]. *)
Definition main (hasattr_Filter : string -> bool)
    (registry : list (string * roi_configs.RoiConfig)) (clock : eeImageryInterface.Clock)
    (roi : string) : result (eeImageryInterface.Session eeImageryInterface.tree) :=
  let* interface := eeImageryInterface.__init__ hasattr_Filter registry clock roi in
  let* _ := bind_keywords "eeImageryInterface.exportImagery" exportImagery_parameters 1
              call_keywords in
  Ok interface.

End export_imagery.

Module download_drive_files.

(** Lines 164-168: where the file named [out_fp] is saved, and the counts
    after it. *)
Definition renamed (out_fp : string) (count : nat) : string :=
  join_str "." (removelast (split "." out_fp)) +:+ "_" +:+ str_int (Z.of_nat count)
  +:+ "." +:+ List.last (split "." out_fp) "".

Definition save_as (out_fp : string) (fn_counts : list (string * nat))
  : string * list (string * nat) :=
  match dict_get out_fp fn_counts with
  | None => (out_fp, dict_set out_fp 1%nat fn_counts)
  | Some count =>
      (renamed out_fp (S count), dict_set out_fp (S count) fn_counts)
  end.

(** The loop of lines 150-171 over the files that were fetched without an
    HTTP error: the paths written, in order. *)
Fixpoint save_all (out_fps : list string) (fn_counts : list (string * nat)) : list string :=
  match out_fps with
  | [] => []
  | out_fp :: rest =>
      let '(written, fn_counts') := save_as out_fp fn_counts in
      written :: save_all rest fn_counts'
  end.

End download_drive_files.


(** ** Notions used in the statements *)

Import eeImageryInterface.

(** The query range [[qs, qe]] and the season [f] have no date in common. *)
Definition no_overlap (qs qe : Z) (f : roi_configs.Season) : Prop :=
  Z.min qe (roi_configs.date_end f) < Z.max qs (roi_configs.date_start f).

(** Midnight of the day [n] days after the epoch. *)
Definition day (n : Z) : Z := n * 86400000.

(** An interface object with the given seasons and no imagery. *)
Definition with_seasons (seasons : list (string * roi_configs.Season)) : Session pyval :=
  {| roi_name := "roi";
     config := {| roi_configs.roi_coords := Some []; roi_configs.crs := None;
                  roi_configs.image_collections := None;
                  roi_configs.imagery_filters := Some seasons |};
     ee_roi := [];
     ee_collections := [];
     imagery_filters := seasons;
     _flattened_filters := [];
     imagery := VRef 0%nat |}.

Definition season_of (date_start date_end : Z) : roi_configs.Season :=
  {| roi_configs.date_start := date_start; roi_configs.date_end := date_end;
     roi_configs.collections := [] |}.

(** Seasons A = 2022-01-01..2022-03-31 and B = 2022-03-01..2022-06-30. *)
Definition seasons_A_B : list (string * roi_configs.Season) :=
  [("A", season_of (day 18993) (day 19082)); ("B", season_of (day 19052) (day 19173))].

Definition empty_state : state := {| heap := []; warnings := []; stdout := [] |}.

(** *** Filter configurations

    [reach c p c']: starting in [c] and reading the keys [p] one after the
    other, each time in a dict that has no key ['filters'], ends in [c']. *)
Inductive reach : FilterConfig -> list string -> FilterConfig -> Prop :=
| reach_here c : reach c [] c
| reach_step items k sub p c' :
    dict_get "filters" items = None ->
    (k, sub) ∈ items ->
    reach sub p c' ->
    reach (CDict items) (k :: p) c'.

(** A leaf: a dict that has the key ['filters'], with the value under it. *)
Definition leaf_at (c : FilterConfig) (p : list string) (fs : FilterConfig) : Prop :=
  exists items, reach c p (CDict items) /\ dict_get "filters" items = Some fs.

(** A value in which ['filters'] is not found. *)
Definition no_filters (c : FilterConfig) : Prop :=
  match c with
  | CDict items => dict_get "filters" items = None
  | CList _ => True
  end.

(** A group configuration: every dict either has the key ['filters'] or
    holds only group configurations. *)
Fixpoint is_group (c : FilterConfig) : bool :=
  match c with
  | CList _ => false
  | CDict items =>
      match dict_get "filters" items with
      | Some _ => true
      | None => forallb (fun p => is_group p.2) items
      end
  end.

(** The keys of every dict are pairwise different, as in Python. *)
Fixpoint unique_keys (c : FilterConfig) : bool :=
  match c with
  | CList _ => true
  | CDict items =>
      bool_decide (NoDup (keys items)) && forallb (fun p => unique_keys p.2) items
  end.

(** The number of group levels above the deepest dict without ['filters']. *)
Fixpoint height (c : FilterConfig) : nat :=
  match c with
  | CList _ => 0
  | CDict items =>
      match dict_get "filters" items with
      | Some _ => 0
      | None => S (foldr (fun p acc => Nat.max (height p.2) acc) 0%nat items)
      end
  end.

(** The entry of a leaf, and the entry that marks a branch cut at the
    depth limit. *)
Definition leaf_entry (pre : list key) (p : list string) (fs : FilterConfig) : FlattenedEntry :=
  {| nested_keys := pre ++ (Some <$> p); filters := fs |}.

Definition cut_entry (pre : list key) (p : list string) : FlattenedEntry :=
  {| nested_keys := pre ++ (Some <$> p) ++ [None]; filters := CList [] |}.

(** What flattening [c] with the keys [pre] and the limit [d] returns: the
    leaves at most [d] levels down, and a cut entry for every value without
    ['filters'] exactly [d] levels down. *)
Definition flattened_from (c : FilterConfig) (pre : list key) (d : Z) (e : FlattenedEntry)
  : Prop :=
  (exists p fs, leaf_at c p fs /\ (length p <= Z.to_nat d)%nat /\ e = leaf_entry pre p fs)
  \/ (exists p c', reach c p c' /\ no_filters c' /\ length p = Z.to_nat d
                   /\ e = cut_entry pre p).

(** The results of the children, one after the other, up to the first
    exception. *)
Fixpoint collect {A : Type} (rs : list (result (list A))) : result (list A) :=
  match rs with
  | [] => Ok []
  | r :: rest => let* x := r in let* xs := collect rest in Ok (x ++ xs)
  end.

(** [n] group levels named ["g"] above an empty filter list. *)
Fixpoint nested (n : nat) : FilterConfig :=
  match n with
  | O => CDict [("filters", CList [])]
  | S n' => CDict [("g", nested n')]
  end.

(** *** The configuration shipped with the repository
    ([config/collection_filters.py], [config/roi_configs.py]) *)

Definition example_S1_filters : FilterConfig :=
  CDict
    [("EW", CDict
       [("HH-HV", CDict
          [("filters", CList
             [ {| type := "listContains";
                  args := [ArgStr "transmitterReceiverPolarisation"; ArgStr "HH"] |};
               {| type := "listContains";
                  args := [ArgStr "transmitterReceiverPolarisation"; ArgStr "HV"] |};
               {| type := "eq"; args := [ArgStr "instrumentMode"; ArgStr "EW"] |} ])])]);
     ("IW", CDict
       [("VV", CDict
          [("filters", CList
             [ {| type := "listContains";
                  args := [ArgStr "transmitterReceiverPolarisation"; ArgStr "VV"] |};
               {| type := "eq"; args := [ArgStr "instrumentMode"; ArgStr "IW"] |} ])])])].

Definition example_S2_filters : FilterConfig :=
  CDict
    [("filters", CList
       [ {| type := "lt"; args := [ArgStr "CLOUDY_PIXEL_PERCENTAGE"; ArgInt 80] |} ])].

Definition S1_S2_filters : list (string * FilterConfig) :=
  [("S1", example_S1_filters); ("S2", example_S2_filters)].

(** 2021-12-01, 2022-05-31, 2020-01-01 and 2020-06-30 are the days 18962,
    19143, 18262 and 18443 after the epoch. *)
Definition example_sanikiluaq : roi_configs.RoiConfig :=
  {| roi_configs.roi_coords :=
       Some [(-80399, 55433); (-78306, 55433); (-78306, 57077); (-80399, 57077);
             (-80399, 55433)];
     roi_configs.crs := Some "EPSG:32617";
     roi_configs.image_collections :=
       Some [("S1", "COPERNICUS/S1_GRD"); ("S2", "COPERNICUS/S2")];
     roi_configs.imagery_filters :=
       Some [("2022", {| roi_configs.date_start := day 18962;
                         roi_configs.date_end := day 19143;
                         roi_configs.collections := S1_S2_filters |});
             ("2020", {| roi_configs.date_start := day 18262;
                         roi_configs.date_end := day 18443;
                         roi_configs.collections := S1_S2_filters |})] |}.

Definition registry : list (string * roi_configs.RoiConfig) :=
  [("example_sanikiluaq", example_sanikiluaq)].

(** Some attributes of [ee.Filter], among them those the shipped
    configuration names; [hasattr(ee.Filter, t)] for the examples. *)
Definition ee_Filter_names : list string :=
  ["eq"; "neq"; "lt"; "lte"; "gt"; "gte"; "inList"; "listContains"; "stringContains";
   "stringStartsWith"; "stringEndsWith"; "date"; "bounds"; "calendarRange"; "dayOfYear"].

Definition hasattr_Filter (t : string) : bool := bool_decide (t ∈ ee_Filter_names).

(** The instant 2024-01-01 00:00. *)
Definition a_clock : Clock := {| now := day 19723; now_year := "2024" |}.

(** [pat in s] on strings. *)
Fixpoint contains (pat s : string) : bool :=
  String.prefix pat s
  || match s with
     | EmptyString => false
     | String _ rest => contains pat rest
     end.

(** *** The three operations of the tree processor, each with the option
    that asks for it *)

Definition narrow_dates (query : option (Z * Z)) (c : ee.ImageCollection)
  : ee.ImageCollection :=
  match query with
  | Some (query_start, query_end) => ee.IC_filter c (ee.Filter_date query_start query_end)
  | None => c
  end.

Definition select_bands (bands : list string) (c : ee.ImageCollection)
  : ee.ImageCollection :=
  match bands with
  | [] => c
  | _ :: _ => ee.IC_select c bands
  end.

Definition mosaic_by (mosaic_window : option string) (date_start date_end : Z)
    (roi : ee.Geometry) (c : ee.ImageCollection) : ee.ImageCollection :=
  match mosaic_window with
  | Some window => ee.IC_mosaics c date_start date_end roi window
  | None => c
  end.

(** *** The imagery tree

    [t[k1][k2]...]: the subtree at a path. *)
Fixpoint subtree (t : tree) (path : list key) : option tree :=
  match path with
  | [] => Some t
  | k :: rest =>
      match t with
      | Leaf _ => None
      | Node children =>
          match dict_get k children with
          | Some sub => subtree sub rest
          | None => None
          end
      end
  end.

(** *** Two regions for the check of the filter types: one whose only
    filter has a type [ee.Filter] lacks, one with the same filter eleven
    group levels down. *)

Definition bogus_filter : FilterSpec := {| type := "bogus"; args := [] |}.

Definition bogus_filters : FilterConfig := CDict [("filters", CList [bogus_filter])].

Fixpoint nested_above (n : nat) (c : FilterConfig) : FilterConfig :=
  match n with
  | O => c
  | S n' => CDict [("g", nested_above n' c)]
  end.

Definition season_2022 (filt_cfg : FilterConfig) : roi_configs.Season :=
  {| roi_configs.date_start := day 18962;
     roi_configs.date_end := day 19143;
     roi_configs.collections := [("S1", filt_cfg)] |}.

Definition region_with (filt_cfg : FilterConfig) : roi_configs.RoiConfig :=
  {| roi_configs.roi_coords := Some [(0, 0); (1000, 0); (1000, 1000); (0, 0)];
     roi_configs.crs := None;
     roi_configs.image_collections := Some [("S1", "COPERNICUS/S1_GRD")];
     roi_configs.imagery_filters := Some [("2022", season_2022 filt_cfg)] |}.

Definition test_registry : list (string * roi_configs.RoiConfig) :=
  [("bad_type", region_with bogus_filters);
   ("too_deep", region_with (nested_above 11 bogus_filters))].

(** *** Mosaicking

    The image [img] was taken in the window of length [u] that starts at [t]. *)
Definition in_window (u t : Z) (img : ee.Image) : Prop :=
  t <= ee.system_time_start img < t + u.

Definition time_le (a b : ee.Image) : Prop :=
  ee.system_time_start a <= ee.system_time_start b.

(** What one window contributes to the list of mosaics: nothing, or one
    composite of its images. *)
Definition window_mosaic (collection : list ee.Image) (roi : ee.Geometry)
    (mosaic_window : string) (datetime : Z) : option ee.Image :=
  match ee.filterDate (ee.sort_by_time collection) datetime
          (ee.advance datetime 1 mosaic_window) with
  | [] => None
  | first :: rest => Some (ee.clip (ee.mosaic_set first (first :: rest)) roi)
  end.

(** One image, taken half an hour after the epoch. *)
Definition half_past : ee.Image :=
  {| ee.system_time_start := 1800000; ee.resolution_meters := 10;
     ee.tiles := ["tile"]; ee.clipped_to := None |}.

(** Two paths are comparable when they agree as far as both go, that is,
    when one is a prefix of the other. *)
Fixpoint comparable (p q : list key) : Prop :=
  match p, q with
  | [], _ | _, [] => True
  | a :: p', b :: q' => a = b /\ comparable p' q'
  end.

(** No two paths of the list are comparable. *)
Inductive separated : list (list key) -> Prop :=
| separated_nil : separated []
| separated_cons p ps :
    (forall q, q ∈ ps -> ~ comparable p q) -> separated ps -> separated (p :: ps).

(** Every collection of the tree sits at one of the paths [paths]. *)
Definition leaves_within (paths : list (list key)) (t : tree) : Prop :=
  forall q c, subtree t q = Some (Leaf c) -> q ∈ paths.

(** One assignment of [_loadImagery]: the keys [k :: rest] and the value. *)
Definition job : Type := key * list key * tree.

Definition job_path (j : job) : list key := j.1.1 :: j.1.2.

Fixpoint install_all (jobs : list job) (t : tree) : result tree :=
  match jobs with
  | [] => Ok t
  | (k, rest, v) :: more => let* t' := install t k rest v in install_all more t'
  end.

Definition filters_list (filters : FilterConfig) : list FilterSpec :=
  match iter_filters filters with
  | Ok fs => fs
  | Raise _ => []
  end.

(** The assignments of [_loadImagery], in the order of its three loops. *)
Definition entry_job (base : ee.ImageCollection) (szn coll_key : string)
    (nested_filter : FlattenedEntry) : job :=
  (Some szn, Some coll_key :: nested_keys nested_filter,
   Leaf (apply_filters base (filters_list (filters nested_filter)))).

Definition collection_jobs (ee_roi : ee.Geometry) (ee_collections : list (string * string))
    (szn : string) (date_start date_end : Z) (p : string * list FlattenedEntry) : list job :=
  List.map
    (entry_job (base_coll ee_roi (default "" (dict_get p.1 ee_collections))
                  date_start date_end) szn p.1)
    p.2.

Definition season_jobs (ee_roi : ee.Geometry) (ee_collections : list (string * string))
    (flattened : list (string * list (string * list FlattenedEntry)))
    (p : string * roi_configs.Season) : list job :=
  List.concat
    (List.map
       (collection_jobs ee_roi ee_collections p.1
          (roi_configs.date_start p.2) (roi_configs.date_end p.2))
       (default [] (dict_get p.1 flattened))).

Definition all_jobs (ee_roi : ee.Geometry) (ee_collections : list (string * string))
    (imagery_filters : list (string * roi_configs.Season))
    (flattened : list (string * list (string * list FlattenedEntry))) : list job :=
  List.concat (List.map (season_jobs ee_roi ee_collections flattened) imagery_filters).

(** What [_loadImagery] needs of its inputs: the seasons are pairwise
    different; each has its flattened filters, whose collections are
    pairwise different and known; and the entries of a collection have
    filter lists and pairwise incomparable paths, as the flattener returns
    them. *)
Definition loadable (ee_collections : list (string * string))
    (imagery_filters : list (string * roi_configs.Season))
    (flattened : list (string * list (string * list FlattenedEntry))) : Prop :=
  NoDup (keys imagery_filters) /\
  forall szn, szn ∈ keys imagery_filters ->
    exists flat,
      dict_get szn flattened = Some flat /\
      NoDup (keys flat) /\
      forall coll_key entries, (coll_key, entries) ∈ flat ->
        (exists ee_coll_name, dict_get coll_key ee_collections = Some ee_coll_name) /\
        separated (nested_keys <$> entries) /\
        forall entry, entry ∈ entries -> exists fs, iter_filters (filters entry) = Ok fs.

(** The same conditions as a test that can be run. *)
Fixpoint comparableb (p q : list key) : bool :=
  match p, q with
  | [], _ | _, [] => true
  | a :: p', b :: q' => bool_decide (a = b) && comparableb p' q'
  end.

Fixpoint separatedb (ps : list (list key)) : bool :=
  match ps with
  | [] => true
  | p :: ps' => forallb (fun q => negb (comparableb p q)) ps' && separatedb ps'
  end.

Definition has_filter_list (entry : FlattenedEntry) : bool :=
  match iter_filters (filters entry) with
  | Ok _ => true
  | Raise _ => false
  end.

Definition loadableb (ee_collections : list (string * string))
    (imagery_filters : list (string * roi_configs.Season))
    (flattened : list (string * list (string * list FlattenedEntry))) : bool :=
  bool_decide (NoDup (keys imagery_filters))
  && forallb
       (fun szn =>
          match dict_get szn flattened with
          | None => false
          | Some flat =>
              bool_decide (NoDup (keys flat))
              && forallb
                   (fun p : string * list FlattenedEntry =>
                      dict_has p.1 ee_collections
                      && separatedb (nested_keys <$> p.2)
                      && forallb has_filter_list p.2)
                   flat
          end)
       (keys imagery_filters).

(** [self._flattened_filters] for the shipped region. *)
Definition shipped_flattened : list (string * list (string * list FlattenedEntry)) :=
  match flatten_all hasattr_Filter (collections_of example_sanikiluaq)
          (filters_of a_clock example_sanikiluaq)
          (empty_flattened (collections_of example_sanikiluaq)
             (filters_of a_clock example_sanikiluaq)) with
  | Ok flattened => flattened
  | Raise _ => []
  end.

(** *** The object store

    [keeps n h h']: the store [h'] has every location of [h], and holds at
    each location below [n] what [h] holds there. *)
Definition keeps (n : nat) (h h' : list pydict) : Prop :=
  (length h <= length h')%nat /\ forall l, (l < n)%nat -> h' !! l = h !! l.

(** A value that names no dict below [n], and a store whose dicts from [n]
    on hold only such values. *)
Definition fresh_value (n : nat) (v : pyval) : Prop :=
  match v with
  | VColl _ => True
  | VRef l => (n <= l)%nat
  end.

Definition closed_above (n : nat) (h : list pydict) : Prop :=
  forall l d, (n <= l)%nat -> h !! l = Some d -> Forall (fun kv => fresh_value n kv.2) d.

(** Retrieval calls one after the other, each on the state the one before
    left, whether it returned or raised. *)
Fixpoint run_calls (fuel : nat) (self : Session pyval)
    (calls : list (string * list keyword)) (s : state) : option state :=
  match calls with
  | [] => Some s
  | (collection, kws) :: rest =>
      match call_getImagery fuel self collection kws s with
      | Return _ s' | Raised _ s' => run_calls fuel self rest s'
      | Undefined => None
      end
  end.

(** What a call may do to the store: keep what was there below [n]; and
    what it returns then: a value that is new, in a store closed above [n]. *)
Definition frames {A : Type} (n : nat) (h : list pydict) (o : outcome A)
    (post : A -> list pydict -> Prop) : Prop :=
  match o with
  | Return a s' => keeps n h (heap s') /\ post a (heap s')
  | Raised _ s' => keeps n h (heap s')
  | Undefined => True
  end.

(** A call that does not touch the store. *)
Definition same_heap {A : Type} (h : list pydict) (o : outcome A) : Prop :=
  match o with
  | Return _ s' | Raised _ s' => heap s' = h
  | Undefined => True
  end.

(** The shipped region, constructed and placed in an empty store; two
    calls with different operations; the state after them. *)
Definition shipped_in_store : Session pyval * list pydict :=
  match __init__ hasattr_Filter registry a_clock "example_sanikiluaq" with
  | Ok session => in_store session []
  | Raise _ => (with_seasons [], [])
  end.

Definition shipped_self : Session pyval := shipped_in_store.1.

Definition shipped_state : state :=
  {| heap := shipped_in_store.2; warnings := []; stdout := [] |}.

Definition two_calls : list (string * list keyword) :=
  [("S1", [kw_season (Some "2022"); kw_bands ["HH"]]);
   ("S1", [kw_season (Some "2022"); kw_mosaic_window (Some "day")])].

Definition after_two_calls : state :=
  default shipped_state (run_calls 4 shipped_self two_calls shipped_state).

(** *** Arguments of a retrieval call that can be used

    A season that is truthy and configured; a date query with both keys. *)
Definition usable_season {I : Type} (self : Session I) (season : option string) : Prop :=
  exists szn, season = Some szn /\ szn <> "" /\ dict_has szn (imagery_filters self) = true.

Definition usable_query (date_query : list (string * Z)) : Prop :=
  dict_has "start" date_query = true /\ dict_has "end" date_query = true.

(** *** Configurations as Python holds them

    The dicts of the filter configurations of all seasons have pairwise
    different keys. *)
Definition unique_config_keys (imagery_filters : list (string * roi_configs.Season)) : bool :=
  forallb (fun p : string * roi_configs.Season =>
             bool_decide (NoDup (keys (roi_configs.collections p.2)))
             && forallb (fun q : string * FilterConfig => unique_keys q.2)
                  (roi_configs.collections p.2))
    imagery_filters.

(** A region that gives its coordinates and nothing else. *)
Definition region_without_filters : roi_configs.RoiConfig :=
  {| roi_configs.roi_coords := Some [(0, 0); (1000, 0); (1000, 1000); (0, 0)];
     roi_configs.crs := None;
     roi_configs.image_collections := None;
     roi_configs.imagery_filters := None |}.

Definition bare_registry : list (string * roi_configs.RoiConfig) :=
  [("bare", region_without_filters)].

(** The flattened filters of one season as [_loadImagery] needs them: one
    list of entries per collection nickname, each as the flattener and the
    check leave it. *)
Definition checked_flat (ee_collections : list (string * string))
    (flat : list (string * list FlattenedEntry)) : Prop :=
  keys flat = keys ee_collections /\
  forall coll_key entries, (coll_key, entries) ∈ flat ->
    separated (nested_keys <$> entries) /\
    forall e, e ∈ entries -> exists fs, iter_filters (filters e) = Ok fs.

(** An image taken before another. *)
Definition time_lt (a b : ee.Image) : Prop :=
  ee.system_time_start a < ee.system_time_start b.

(** A second image, taken at a quarter to two, and the two images with
    the later one first. *)
Definition quarter_to_two : ee.Image :=
  {| ee.system_time_start := 6300000; ee.resolution_meters := 10;
     ee.tiles := ["late tile"]; ee.clipped_to := None |}.

Definition two_images : list ee.Image := [quarter_to_two; half_past].

(** The keys of every dict of a tree are pairwise different, as in
    Python. *)
Fixpoint unique_tree_keys (t : tree) : bool :=
  match t with
  | Leaf _ => true
  | Node children =>
      bool_decide (NoDup (keys children))
      && forallb (fun p => unique_tree_keys p.2) children
  end.

(** A store of two dicts, [{'VV': collection}] and above it
    [{'IW': ...}], and the tree read from the second. *)
Definition small_store : list pydict :=
  [ [(Some "VV", VColl (ee.IC_source "COPERNICUS/S1_GRD"))];
    [(Some "IW", VRef 0%nat)] ].

Definition small_tree : tree :=
  Node [(Some "IW", Node [(Some "VV", Leaf (ee.IC_source "COPERNICUS/S1_GRD"))])].

(** The same store with the two dicts [{'S1': ...}] and [{'2022': ...}]
    above, and an interface object whose imagery is the last. *)
Definition small_session_store : list pydict :=
  small_store ++ [ [(Some "S1", VRef 1%nat)]; [(Some "2022", VRef 2%nat)] ].

Definition small_self : Session pyval :=
  {| roi_name := "roi";
     config := {| roi_configs.roi_coords := Some []; roi_configs.crs := None;
                  roi_configs.image_collections := None;
                  roi_configs.imagery_filters := None |};
     ee_roi := [];
     ee_collections := [("S1", "COPERNICUS/S1_GRD")];
     imagery_filters := [("2022", season_of (day 18962) (day 19143))];
     _flattened_filters := [];
     imagery := VRef 3%nat |}.

Definition small_state : state :=
  {| heap := small_session_store; warnings := []; stdout := [] |}.

(** *** Export parameters

    The geometry argument that [exportImagery] prefers: dimensions, then
    crsTransform, then scale. *)
Definition preferred_geometry (export_params : list (string * param)) : option string :=
  if dict_has "dimensions" export_params then Some "dimensions"
  else if dict_has "crsTransform" export_params then Some "crsTransform"
  else if dict_has "scale" export_params then Some "scale"
  else None.

(** A dict that gives a scale and a transform, and what an export of
    ['S1'], ['IW'] for the season ['2022'] leaves of it. *)
Definition two_geometries : list (string * param) :=
  [("scale", PInt 40); ("crsTransform", PList [40; 0; 500000; 0; -40; 6200000])].

Definition prepared_params : list (string * param) :=
  (exportImagery_params small_self "S1" [Some "IW"] (Some "2022") [] two_geometries
     empty_state).1.

Definition warned_state : state :=
  warn "More than one of scale,crsTransform,dimensions provided; Using crsTransform"
    empty_state.

(** *** The pass over the export tasks

    The tasks, counted from [i], that a pass records as failed: those in
    a failed state whose number is not yet in [ids]. *)
Fixpoint newly_failed (i : nat) (states : list string) (ids : list nat) : list nat :=
  match states with
  | [] => []
  | t_state :: rest =>
      if is_failed t_state && negb (bool_decide (i ∈ ids))
      then i :: newly_failed (S i) rest ids
      else newly_failed (S i) rest ids
  end.

Definition failure_message (i : nat) : string :=
  "Task " +:+ str_int (Z.of_nat i) +:+ " failed.".

(** The states of five tasks, the second and the fourth of which failed. *)
Definition five_states : list string :=
  ["COMPLETED"; "FAILED"; "RUNNING"; "CANCELLED"; "READY"].

(** *** The seasons of a tree

    The order of Python on strings; a tree that is a dict with the keys
    [K]; a dict keyed by strings as a dict of the tree. *)
Definition str_le (a b : string) : Prop := (a <=? b)%string = true.

Definition top_keys (K : list key) (t : tree) : Prop :=
  exists children, t = Node children /\ keys children = K.

Definition by_season (top : list (string * tree)) : tree :=
  Node (List.map (fun p => (Some p.1, p.2)) top).

(** *** The scripts

    How often a path occurs in a list, and the separator as a pattern. *)
Definition occurrences (out_fp : string) (out_fps : list string) : nat :=
  length (List.filter (fun x => bool_decide (x = out_fp)) out_fps).

Definition one_char (c : ascii) : string := String c EmptyString.

(** ** The interval matcher *)

Section IntervalMatcher.

Context (self : Session pyval).

Lemma overlap_none qs qe f :
  no_overlap qs qe f ->
  utils.get_date_range_overlap qs qe (roi_configs.date_start f) (roi_configs.date_end f) = None.
Proof.
  unfold no_overlap, utils.get_date_range_overlap. intros H.
  destruct (Z.gtb_spec (Z.max qs (roi_configs.date_start f))
              (Z.min qe (roi_configs.date_end f))); [reflexivity | lia].
Qed.

Lemma overlap_some qs qe f :
  Z.max qs (roi_configs.date_start f) <= Z.min qe (roi_configs.date_end f) ->
  utils.get_date_range_overlap qs qe (roi_configs.date_start f) (roi_configs.date_end f)
  = Some {| utils.start := Z.max qs (roi_configs.date_start f);
            utils.end_ := Z.min qe (roi_configs.date_end f) |}.
Proof.
  unfold utils.get_date_range_overlap. intros H.
  destruct (Z.gtb_spec (Z.max qs (roi_configs.date_start f))
              (Z.min qe (roi_configs.date_end f))); [lia | reflexivity].
Qed.

Lemma match_season_skips qs qe pre rest :
  Forall (fun p => no_overlap qs qe p.2) pre ->
  match_season qs qe (pre ++ rest) = match_season qs qe rest.
Proof.
  induction 1 as [| [szn f] pre Hf _ IH]; simpl; [reflexivity |].
  simpl in Hf. rewrite (overlap_none _ _ _ Hf). exact IH.
Qed.

Lemma match_season_none qs qe seasons :
  Forall (fun p => no_overlap qs qe p.2) seasons ->
  match_season qs qe seasons = None.
Proof.
  intros H. rewrite <- (app_nil_r seasons). rewrite match_season_skips by assumption.
  reflexivity.
Qed.

(** Every result of the loop is the first season that meets the query,
    with the bounds of the intersection. *)
Lemma match_season_inv qs qe seasons szn ov :
  match_season qs qe seasons = Some (szn, ov) ->
  exists pre f post,
    seasons = pre ++ (szn, f) :: post /\
    Forall (fun p => no_overlap qs qe p.2) pre /\
    utils.start ov = Z.max qs (roi_configs.date_start f) /\
    utils.end_ ov = Z.min qe (roi_configs.date_end f) /\
    utils.start ov <= utils.end_ ov.
Proof.
  induction seasons as [| [szn' f] seasons IH]; simpl; [discriminate |].
  unfold utils.get_date_range_overlap.
  destruct (Z.gtb_spec (Z.max qs (roi_configs.date_start f))
              (Z.min qe (roi_configs.date_end f))) as [Hgt | Hle].
  - intros H. destruct (IH H) as (pre & f' & post & -> & Hpre & Hs & He & Hle).
    exists ((szn', f) :: pre), f', post. repeat split; try assumption.
    constructor; [| assumption]. unfold no_overlap. simpl. lia.
  - intros [= <- <-]. exists [], f, seasons. simpl. repeat split; auto.
Qed.


(** With a date query that has both keys, the argument check returns the
    query unchanged and leaves the store alone. *)
Lemma handle_args_with_query season (date_query : list (string * Z)) qs qe s :
  dict_get "start" date_query = Some qs ->
  dict_get "end" date_query = Some qe ->
  exists season' s',
    _handle_season_and_date_query_args self season date_query s
    = Return (season', date_query) s' /\ heap s' = heap s.
Proof.
  intros Hs He.
  assert (Hhas : dict_has "start" date_query && dict_has "end" date_query = true).
  { unfold dict_has. rewrite Hs, He. reflexivity. }
  assert (Htruthy : truthy_dict date_query = true).
  { destruct date_query; [discriminate Hs | reflexivity]. }
  unfold _handle_season_and_date_query_args.
  rewrite Htruthy, Hhas. cbn [negb andb]. rewrite Htruthy.
  destruct (truthy_season season) eqn:Hseason; cbn [negb andb truthy_season].
  - eexists _, _. split; reflexivity.
  - rewrite Hseason. cbn [negb andb]. rewrite Bool.andb_false_r.
    eexists _, _. split; reflexivity.
Qed.

(** C6. When the query meets no configured season, season resolution
    raises, and a retrieval call given that query raises the same error
    without touching the store. *)
Theorem no_matching_season_raises (date_query : list (string * Z)) (qs qe : Z) :
  dict_get "start" date_query = Some qs ->
  dict_get "end" date_query = Some qe ->
  Forall (fun p => no_overlap qs qe p.2) (imagery_filters self) ->
  exists msg,
    _parse_date_query self date_query = Raise (ValueError msg) /\
    forall fuel collection nested_keys bands season mosaic_window s,
      exists s',
        getImagery fuel self collection nested_keys bands season date_query mosaic_window s
        = Raised (ValueError msg) s' /\ heap s' = heap s.
Proof.
  intros Hs He Hno.
  assert (Hparse : _parse_date_query self date_query
                   = Raise (ValueError
                       ("date_query did not match date range for any seasons configured for "
                        +:+ roi_name self +:+ "."))).
  { unfold _parse_date_query.
    rewrite Hs, He, match_season_none by assumption. reflexivity. }
  eexists. split; [exact Hparse |].
  intros fuel collection nested_keys bands season mosaic_window s.
  assert (Htruthy : truthy_dict date_query = true).
  { destruct date_query; [discriminate Hs | reflexivity]. }
  destruct (handle_args_with_query season date_query qs qe s Hs He)
    as (season' & s' & Hargs & Hheap).
  unfold getImagery. rewrite Hargs, Htruthy, Hparse. cbn [bind].
  exists s'. split; [reflexivity | exact Hheap].
Qed.

End IntervalMatcher.


(** A query that starts before the season is clipped to the season's
    start: season 2022-01-01..2022-02-28, query 2021-12-01..2022-02-15. *)
Example partial_overlap_is_clipped :
  _parse_date_query (with_seasons [("C", season_of (day 18993) (day 19051))])
    [("start", day 18962); ("end", day 19038)]
  = Ok {| parsed.season := "C"; parsed.start := day 18993; parsed.end_ := day 19038 |}.
Proof. reflexivity. Qed.

(** The query 2021-01-01..2021-01-02 meets neither A nor B. *)
Lemma no_matching_season_raises_witness :
  exists msg,
    _parse_date_query (with_seasons seasons_A_B) [("start", day 18628); ("end", day 18629)]
    = Raise (ValueError msg) /\
    forall fuel collection nested_keys bands season mosaic_window s,
      exists s',
        getImagery fuel (with_seasons seasons_A_B) collection nested_keys bands season
          [("start", day 18628); ("end", day 18629)] mosaic_window s
        = Raised (ValueError msg) s' /\ heap s' = heap s.
Proof.
  apply (no_matching_season_raises (with_seasons seasons_A_B)
           [("start", day 18628); ("end", day 18629)] (day 18628) (day 18629));
    [reflexivity | reflexivity |].
  apply Forall_cons; [vm_compute; reflexivity |].
  apply Forall_cons; [vm_compute; reflexivity | apply Forall_nil].
Defined.

(** ** The flattener *)

Section Flattener.

Local Abbreviation flatten := utils.flatten_nested_imagery_filters.

Lemma FilterConfig_induction (P : FilterConfig -> Prop) :
  (forall fs, P (CList fs)) ->
  (forall items, Forall (fun p => P p.2) items -> P (CDict items)) ->
  forall c, P c.
Proof.
  intros HL HD. fix IH 1. intros [items | fs]; [| apply HL].
  apply HD. revert items. fix IHitems 1. intros [| [k sub] items].
  - constructor.
  - constructor; [apply IH | apply IHitems].
Qed.

Lemma collect_map_elem {A B : Type} (f : B -> result (list A)) (items : list B) es :
  collect (List.map f items) = Ok es ->
  (forall x, x ∈ items -> exists xs, f x = Ok xs) /\
  (forall e, e ∈ es <-> exists x xs, x ∈ items /\ f x = Ok xs /\ e ∈ xs).
Proof.
  revert es. induction items as [| x items IH]; simpl; intros es H.
  - injection H as <-. split.
    + intros x Hx. inversion Hx.
    + intros e. split; [intros He; inversion He |].
      intros (x & xs & Hx & _). inversion Hx.
  - destruct (f x) as [xs |] eqn:Hfx; simpl in H; [| discriminate].
    destruct (collect (List.map f items)) as [ys |] eqn:Hc; simpl in H; [| discriminate].
    injection H as <-. destruct (IH ys eq_refl) as [IH1 IH2]. split.
    + intros x' Hx'. apply elem_of_cons in Hx' as [-> | Hx']; eauto.
    + intros e. rewrite elem_of_app, IH2. split.
      * intros [He | (x' & xs' & Hx' & Hf & He)].
        -- exists x, xs. split; [left | auto].
        -- exists x', xs'. split; [right; assumption | auto].
      * intros (x' & xs' & Hx' & Hf & He).
        apply elem_of_cons in Hx' as [-> | Hx'].
        -- left. congruence.
        -- right. eauto.
Qed.

Lemma collect_map_total {A B : Type} (f : B -> result (list A)) (items : list B) :
  (forall x, x ∈ items -> exists xs, f x = Ok xs) ->
  exists es, collect (List.map f items) = Ok es.
Proof.
  induction items as [| x items IH]; simpl; intros H; [eauto |].
  destruct (H x) as [xs ->]; [left |]. simpl.
  destruct IH as [ys ->]; [intros; apply H; right; assumption |]. simpl. eauto.
Qed.

(** The loop over the children of a group, as one expression. *)
Lemma flatten_group items pre d :
  dict_get "filters" items = None -> 1 <= d ->
  flatten (CDict items) pre d
  = collect (List.map (fun p => flatten p.2 (pre ++ [Some p.1]) (d - 1)) items).
Proof.
  intros Hf Hd. cbn [utils.flatten_nested_imagery_filters]. rewrite Hf.
  destruct (Z.ltb_spec d 1) as [Hlt | _]; [lia |]. clear Hf Hd.
  transitivity
    (let* xs := collect (List.map (fun p => flatten p.2 (pre ++ [Some p.1]) (d - 1)) items)
     in Ok ([] ++ xs)); [| destruct (collect _); reflexivity].
  generalize (@nil FlattenedEntry).
  induction items as [| [k sub] items IH]; intros acc; simpl.
  - rewrite app_nil_r. reflexivity.
  - destruct (flatten sub (pre ++ [Some k]) (d - 1)) as [xs |]; simpl; [| reflexivity].
    rewrite IH. destruct (collect _); simpl; [| reflexivity].
    rewrite app_assoc. reflexivity.
Qed.

Lemma flatten_leaf items pre d fs :
  dict_get "filters" items = Some fs ->
  flatten (CDict items) pre d = Ok [ {| nested_keys := pre; filters := fs |} ].
Proof. intros Hf. cbn [utils.flatten_nested_imagery_filters]. rewrite Hf. reflexivity. Qed.

Lemma flatten_exhausted c pre d :
  no_filters c -> d < 1 ->
  flatten c pre d = Ok [ {| nested_keys := pre ++ [None]; filters := CList [] |} ].
Proof.
  intros Hf Hd. destruct c as [items | fs]; cbn [utils.flatten_nested_imagery_filters].
  - simpl in Hf. rewrite Hf. destruct (Z.ltb_spec d 1); [reflexivity | lia].
  - destruct (Z.ltb_spec d 1); [reflexivity | lia].
Qed.

Lemma reach_nil_inv c c' : reach c [] c' -> c' = c.
Proof. inversion 1; reflexivity. Qed.

Lemma reach_cons_inv c k p c' :
  reach c (k :: p) c' ->
  exists items sub, c = CDict items /\ dict_get "filters" items = None /\
                    (k, sub) ∈ items /\ reach sub p c'.
Proof. inversion 1; subst. eauto 10. Qed.

(** What is returned, entry by entry. *)
Lemma flatten_entries c : forall pre d es,
  flatten c pre d = Ok es -> forall e, e ∈ es <-> flattened_from c pre d e.
Proof.
  induction c as [fs | items IH] using FilterConfig_induction; intros pre d es H e.
  - (* a list *)
    cbn [utils.flatten_nested_imagery_filters] in H.
    destruct (Z.ltb_spec d 1) as [Hd | Hd]; [| discriminate]. injection H as <-.
    rewrite list_elem_of_singleton. split.
    + intros ->. right. exists [], (CList fs). split_and!; [constructor | exact I | simpl; lia | reflexivity].
    + intros [(p & fs' & (its & Hr & _) & _) | (p & c' & Hr & _ & Hlen & ->)].
      * destruct p; [apply reach_nil_inv in Hr; discriminate |].
        apply reach_cons_inv in Hr as (? & ? & ? & _); discriminate.
      * destruct p; [reflexivity |].
        apply reach_cons_inv in Hr as (? & ? & ? & _); discriminate.
  - destruct (dict_get "filters" items) as [fs |] eqn:Hf.
    + (* a leaf *)
      rewrite (flatten_leaf _ _ _ _ Hf) in H. injection H as <-.
      rewrite list_elem_of_singleton. split.
      * intros ->. left. exists [], fs. split_and!.
        -- exists items. split; [constructor | assumption].
        -- simpl. lia.
        -- unfold leaf_entry. simpl. rewrite app_nil_r. reflexivity.
      * intros [(p & fs' & (its & Hr & Hfs) & _ & ->) | (p & c' & Hr & Hno & _)].
        -- destruct p.
           ++ apply reach_nil_inv in Hr. injection Hr as ->.
              unfold leaf_entry. simpl. rewrite app_nil_r. congruence.
           ++ apply reach_cons_inv in Hr as (? & ? & [= <-] & Hn & _). congruence.
        -- destruct p.
           ++ apply reach_nil_inv in Hr. subst c'. simpl in Hno. congruence.
           ++ apply reach_cons_inv in Hr as (? & ? & [= <-] & Hn & _). congruence.
    + destruct (Z.ltb_spec d 1) as [Hd | Hd].
      * (* a group at the depth limit *)
        rewrite (flatten_exhausted (CDict items)) in H by assumption. injection H as <-.
        rewrite list_elem_of_singleton. split.
        -- intros ->. right. exists [], (CDict items). split_and!; [constructor | assumption | simpl; lia | reflexivity].
        -- intros [(p & fs' & (its & Hr & Hfs) & Hlen & ->) | (p & c' & Hr & _ & Hlen & ->)].
           ++ destruct p; [| simpl in Hlen; lia].
              apply reach_nil_inv in Hr. injection Hr as ->. congruence.
           ++ destruct p; [reflexivity | simpl in Hlen; lia].
      * (* a group below the depth limit *)
        rewrite flatten_group in H by assumption.
        apply collect_map_elem in H as [Htot H]. rewrite H. clear H.
        rewrite list.Forall_forall in IH.
        assert (Hd' : Z.to_nat d = S (Z.to_nat (d - 1))) by lia.
        split.
        -- intros ([k sub] & xs & Hin & Hsub & He). simpl in Hsub.
           apply (IH _ Hin _ _ _ Hsub) in He.
           destruct He as [(p & fs' & (its & Hr & Hfs) & Hlen & ->)
                          | (p & c' & Hr & Hno & Hlen & ->)].
           ++ left. exists (k :: p), fs'. split_and!.
              ** exists its. split; [econstructor; eassumption | assumption].
              ** simpl. lia.
              ** unfold leaf_entry. simpl. rewrite <- app_assoc. reflexivity.
           ++ right. exists (k :: p), c'. split_and!; try assumption.
              ** econstructor; eassumption.
              ** simpl. lia.
              ** unfold cut_entry. simpl. rewrite <- app_assoc. reflexivity.
        -- intros [(p & fs' & (its & Hr & Hfs) & Hlen & ->)
                  | (p & c' & Hr & Hno & Hlen & ->)].
           ++ destruct p as [| k p].
              { apply reach_nil_inv in Hr. injection Hr as ->. congruence. }
              apply reach_cons_inv in Hr as (its' & sub & [= <-] & _ & Hin & Hr).
              destruct (Htot _ Hin) as [xs Hxs]. simpl in Hxs.
              exists (k, sub), xs. split; [assumption |]. split; [assumption |].
              apply (IH _ Hin _ _ _ Hxs). left. exists p, fs'. split_and!.
              ** exists its. split; assumption.
              ** simpl in Hlen. lia.
              ** unfold leaf_entry. simpl. rewrite <- app_assoc. reflexivity.
           ++ destruct p as [| k p]; [simpl in Hlen; lia |].
              apply reach_cons_inv in Hr as (its' & sub & [= <-] & _ & Hin & Hr).
              destruct (Htot _ Hin) as [xs Hxs]. simpl in Hxs.
              exists (k, sub), xs. split; [assumption |]. split; [assumption |].
              apply (IH _ Hin _ _ _ Hxs). right. exists p, c'. split_and!; try assumption.
              ** simpl in Hlen. lia.
              ** unfold cut_entry. simpl. rewrite <- app_assoc. reflexivity.
Qed.

Lemma is_group_dict items :
  dict_get "filters" items = None ->
  is_group (CDict items) = true -> forall x, x ∈ items -> is_group x.2 = true.
Proof.
  intros Hf H x Hx. cbn [is_group] in H. rewrite Hf in H.
  rewrite forallb_forall in H. apply H, list_elem_of_In, Hx.
Qed.

Lemma unique_keys_dict items :
  unique_keys (CDict items) = true ->
  NoDup (keys items) /\ forall x, x ∈ items -> unique_keys x.2 = true.
Proof.
  cbn [unique_keys]. intros H. apply andb_prop in H as [H1 H2]. split.
  - apply bool_decide_eq_true in H1. exact H1.
  - rewrite forallb_forall in H2. intros x Hx. apply H2, list_elem_of_In, Hx.
Qed.

(** Flattening a group configuration returns, whatever the limit. *)
Lemma flatten_total c : forall pre d,
  is_group c = true -> exists es, flatten c pre d = Ok es.
Proof.
  induction c as [fs | items IH] using FilterConfig_induction; intros pre d Hg;
    [discriminate |].
  destruct (dict_get "filters" items) as [fs |] eqn:Hf.
  - rewrite (flatten_leaf _ _ _ _ Hf). eauto.
  - destruct (Z.ltb_spec d 1) as [Hd | Hd].
    + rewrite (flatten_exhausted (CDict items)) by assumption. eauto.
    + rewrite flatten_group by assumption. apply collect_map_total.
      rewrite list.Forall_forall in IH. intros x Hx. apply (IH x Hx).
      apply (is_group_dict items); assumption.
Qed.

Lemma flattened_from_prefix c pre d e :
  flattened_from c pre d e -> exists r, nested_keys e = pre ++ r.
Proof.
  intros [(p & fs & _ & _ & ->) | (p & c' & _ & _ & _ & ->)]; simpl; eauto.
Qed.

Lemma flattened_from_length c pre d e :
  flattened_from c pre d e ->
  (length (nested_keys e) <= length pre + Z.to_nat d + 1)%nat.
Proof.
  intros [(p & fs & _ & Hlen & ->) | (p & c' & _ & _ & Hlen & ->)]; simpl;
    rewrite ?length_app, ?length_fmap; simpl; lia.
Qed.

(** With unique keys no path is returned twice. *)
Lemma flatten_NoDup c : forall pre d es,
  unique_keys c = true -> flatten c pre d = Ok es -> NoDup (nested_keys <$> es).
Proof.
  induction c as [fs | items IH] using FilterConfig_induction; intros pre d es Hu H.
  - cbn [utils.flatten_nested_imagery_filters] in H.
    destruct (d <? 1); [| discriminate]. injection H as <-. apply NoDup_singleton.
  - destruct (dict_get "filters" items) as [fs |] eqn:Hf.
    { rewrite (flatten_leaf _ _ _ _ Hf) in H. injection H as <-. apply NoDup_singleton. }
    destruct (Z.ltb_spec d 1) as [Hd | Hd].
    { rewrite (flatten_exhausted (CDict items)) in H by assumption.
      injection H as <-. apply NoDup_singleton. }
    rewrite flatten_group in H by assumption. clear Hf.
    apply unique_keys_dict in Hu as [Hnd Hu]. rewrite list.Forall_forall in IH.
    revert es H. induction items as [| [k sub] items IHitems]; intros es H.
    + injection H as <-. constructor.
    + simpl in H.
      destruct (flatten sub (pre ++ [Some k]) (d - 1)) as [xs |] eqn:Hxs;
        simpl in H; [| discriminate].
      destruct (collect _) as [ys |] eqn:Hys; simpl in H; [| discriminate].
      injection H as <-. rewrite fmap_app. apply list.NoDup_app.
      simpl in Hnd. apply list.NoDup_cons in Hnd as [Hk Hnd]. split_and!.
      * apply (IH (k, sub) ltac:(left) _ _ _ (Hu (k, sub) ltac:(left)) Hxs).
      * intros q Hq1 Hq2.
        apply list_elem_of_fmap in Hq1 as (e1 & -> & He1).
        apply list_elem_of_fmap in Hq2 as (e2 & Heq & He2).
        apply (flatten_entries _ _ _ _ Hxs) in He1.
        apply flattened_from_prefix in He1 as [r1 Hr1].
        apply collect_map_elem in Hys as [_ Hys]. apply Hys in He2.
        destruct He2 as ([k' sub'] & zs & Hin & Hzs & He2). simpl in Hzs.
        apply (flatten_entries _ _ _ _ Hzs) in He2.
        apply flattened_from_prefix in He2 as [r2 Hr2].
        rewrite Hr1, Hr2, <- !app_assoc in Heq. apply app_inv_head in Heq.
        injection Heq as <- _. apply Hk.
        apply list_elem_of_fmap. exists (k, sub'). split; [reflexivity | exact Hin].
      * apply IHitems;
          [ intros x Hx; apply IH; right; exact Hx
          | assumption
          | intros x Hx; apply Hu; right; exact Hx
          | reflexivity ].
Qed.

Lemma height_child (items : list (string * FilterConfig)) (x : string * FilterConfig) :
  x ∈ items -> (height x.2 <= foldr (fun p acc => Nat.max (height p.2) acc) 0 items)%nat.
Proof.
  induction 1 as [x items | x y items _ IH]; simpl; lia.
Qed.

Lemma reach_height c p c' : reach c p c' -> (length p + height c' <= height c)%nat.
Proof.
  induction 1 as [c | items k sub p c' Hf Hin _ IH]; simpl; [lia |].
  rewrite Hf. pose proof (height_child items (k, sub) Hin) as Hc. simpl in Hc. lia.
Qed.

Lemma reach_group c p c' : reach c p c' -> is_group c = true -> is_group c' = true.
Proof.
  induction 1 as [c | items k sub p c' Hf Hin _ IH]; intros Hg; [assumption |].
  apply IH. apply (is_group_dict items Hf Hg (k, sub) Hin).
Qed.

(** C2, as amended. For every group configuration with unique keys whose
    nesting does not exceed [max_depth], flattening returns exactly one
    entry per leaf: the paths returned are the paths of the leaves, each
    once, each with the filter set found there. *)
Theorem flatten_covers_leaves (c : FilterConfig) (pre : list key) (d : Z) :
  is_group c = true ->
  unique_keys c = true ->
  Z.of_nat (height c) <= d ->
  exists es,
    flatten c pre d = Ok es /\
    NoDup (nested_keys <$> es) /\
    forall e, e ∈ es <-> exists p fs, leaf_at c p fs /\ e = leaf_entry pre p fs.
Proof.
  intros Hg Hu Hh. destruct (flatten_total c pre d Hg) as [es Hes].
  exists es. split_and!; [assumption | eapply flatten_NoDup; eassumption |].
  intros e. rewrite (flatten_entries _ _ _ _ Hes). split.
  - intros [(p & fs & Hl & _ & ->) | (p & c' & Hr & Hno & Hlen & _)]; [eauto |].
    exfalso. pose proof (reach_height _ _ _ Hr) as Hle.
    pose proof (reach_group _ _ _ Hr Hg) as Hg'.
    destruct c' as [its | fs]; [| discriminate]. simpl in Hno, Hle.
    rewrite Hno in Hle. lia.
  - intros (p & fs & Hl & ->). left. exists p, fs. split_and!; [assumption | | reflexivity].
    destruct Hl as (its & Hr & _). pose proof (reach_height _ _ _ Hr). lia.
Qed.

(** C3. Flattening a group configuration returns for every limit, also
    when the configuration is nested deeper: no entry is longer than the
    limit allows, and the entries are the leaves found within the limit
    and, for every dict without ['filters'] met when the limit is used up,
    one entry whose path ends in the sentinel [None] and whose filter list
    is empty. *)
Theorem flatten_depth_limit (c : FilterConfig) (pre : list key) (d : Z) :
  is_group c = true ->
  exists es,
    flatten c pre d = Ok es /\
    (forall e, e ∈ es <-> flattened_from c pre d e) /\
    (forall e, e ∈ es -> (length (nested_keys e) <= length pre + Z.to_nat d + 1)%nat) /\
    (unique_keys c = true -> NoDup (nested_keys <$> es)) /\
    (no_filters c -> d < 1 ->
     es = [ {| nested_keys := pre ++ [None]; filters := CList [] |} ]).
Proof.
  intros Hg. destruct (flatten_total c pre d Hg) as [es Hes].
  exists es. split_and!.
  - assumption.
  - apply flatten_entries. assumption.
  - intros e He. apply (flatten_entries _ _ _ _ Hes) in He.
    eapply flattened_from_length. eassumption.
  - intros Hu. eapply flatten_NoDup; eassumption.
  - intros Hno Hd. rewrite flatten_exhausted in Hes by assumption. congruence.
Qed.

End Flattener.

(** The shipped Sentinel-1 configuration, flattened with the default limit. *)
Lemma flatten_covers_leaves_witness :
  exists es,
    utils.flatten_nested_imagery_filters example_S1_filters [] utils.default_max_depth = Ok es /\
    NoDup (nested_keys <$> es) /\
    forall e, e ∈ es <-> exists p fs, leaf_at example_S1_filters p fs /\ e = leaf_entry [] p fs.
Proof.
  apply (flatten_covers_leaves example_S1_filters [] utils.default_max_depth);
    [reflexivity | vm_compute; reflexivity | vm_compute; discriminate].
Defined.

Example flatten_example_S1 :
  utils.flatten_nested_imagery_filters example_S1_filters [] utils.default_max_depth
  = Ok [ leaf_entry [] ["EW"; "HH-HV"]
           (CList [ {| type := "listContains";
                       args := [ArgStr "transmitterReceiverPolarisation"; ArgStr "HH"] |};
                    {| type := "listContains";
                       args := [ArgStr "transmitterReceiverPolarisation"; ArgStr "HV"] |};
                    {| type := "eq"; args := [ArgStr "instrumentMode"; ArgStr "EW"] |} ]);
         leaf_entry [] ["IW"; "VV"]
           (CList [ {| type := "listContains";
                       args := [ArgStr "transmitterReceiverPolarisation"; ArgStr "VV"] |};
                    {| type := "eq"; args := [ArgStr "instrumentMode"; ArgStr "IW"] |} ]) ].
Proof. reflexivity. Qed.

(** C2, counterexample. Eleven group levels above the filter list,
    flattened with the default limit of ten: the only entry is the one that marks the cut, and the
    path of the leaf is not returned. *)
Lemma flatten_deep_config_counterexample :
  is_group (nested 11) = true /\
  unique_keys (nested 11) = true /\
  exists es,
    utils.flatten_nested_imagery_filters (nested 11) [] utils.default_max_depth = Ok es /\
    ~ (forall e, e ∈ es <->
                 exists p fs, leaf_at (nested 11) p fs /\ e = leaf_entry [] p fs).
Proof.
  split; [reflexivity |]. split; [vm_compute; reflexivity |].
  exists [cut_entry [] (replicate 10 "g")]. split; [reflexivity |].
  intros H. destruct (H (cut_entry [] (replicate 10 "g"))) as [H1 _].
  destruct H1 as (p & fs & _ & Heq); [apply list_elem_of_singleton; reflexivity |].
  apply (f_equal nested_keys) in Heq. simpl in Heq.
  assert (Hin : None ∈ Some <$> p).
  { rewrite <- Heq. apply list_elem_of_In. simpl. tauto. }
  apply list_elem_of_fmap in Hin as (y & Hy & _). discriminate.
Qed.

(** The same configuration: flattening returns, with the cut entry. *)
Lemma flatten_depth_limit_witness :
  exists es,
    utils.flatten_nested_imagery_filters (nested 11) [] 10 = Ok es /\
    (forall e, e ∈ es <-> flattened_from (nested 11) [] 10 e) /\
    (forall e, e ∈ es -> (length (nested_keys e) <= length (@nil key) + Z.to_nat 10 + 1)%nat) /\
    (unique_keys (nested 11) = true -> NoDup (nested_keys <$> es)) /\
    (no_filters (nested 11) -> 10 < 1 ->
     es = [ {| nested_keys := [] ++ [None]; filters := CList [] |} ]).
Proof.
  apply (flatten_depth_limit (nested 11) [] 10). reflexivity.
Defined.

Example flatten_nested_eleven :
  utils.flatten_nested_imagery_filters (nested 11) [] 10
  = Ok [ {| nested_keys := replicate 10 (Some "g") ++ [None]; filters := CList [] |} ].
Proof. reflexivity. Qed.

(** ** The tree processor *)

Section TreeProcessor.

Variables (ee_roi : ee.Geometry) (collection : string) (nested_keys : list key)
          (bands : list string) (query : option (Z * Z)) (mosaic_window : option string)
          (date_start date_end : Z).

Local Abbreviation leaf :=
  (process_leaf ee_roi collection nested_keys bands query mosaic_window date_start date_end).

(** Whatever the options, a processed leaf is the leaf narrowed by date,
    then restricted to the bands, then mosaicked. *)
Lemma process_leaf_order c sub_keys s c' s' :
  leaf c sub_keys s = Return c' s' ->
  c' = mosaic_by mosaic_window date_start date_end ee_roi
         (select_bands bands (narrow_dates query c)).
Proof.
  unfold process_leaf, mosaic_by.
  fold (narrow_dates query c). fold (select_bands bands (narrow_dates query c)).
  destruct mosaic_window as [window |]; [| intros [= <- _]; reflexivity].
  destruct (let* a := slash_path nested_keys in _) as [msg |]; [| discriminate].
  unfold utils.doMosaic. destruct (utils.check_mosaic_window window); simpl;
    [intros [= <- _]; reflexivity | discriminate].
Qed.

Lemma join_Some sep (ks : list key) :
  Forall is_Some ks -> exists joined, join sep ks = Ok joined.
Proof.
  induction 1 as [| k ks [k' ->] _ [tail IH]]; simpl; [eauto |].
  destruct ks; [eauto |]. rewrite IH. simpl. eauto.
Qed.

Lemma slash_path_Some (ks : list key) :
  Forall is_Some ks -> exists text, slash_path ks = Ok text.
Proof.
  intros H. unfold slash_path. destruct ks; [eauto |].
  destruct (join_Some "/" _ H) as [joined ->]. simpl. eauto.
Qed.

(** With a supported window, or none, and keys that are strings, the leaf
    is processed. *)
Lemma process_leaf_returns c sub_keys s :
  (forall window, mosaic_window = Some window -> window ∈ utils.supported_mosaic_windows) ->
  Forall is_Some (nested_keys ++ sub_keys) ->
  exists s',
    leaf c sub_keys s
    = Return (mosaic_by mosaic_window date_start date_end ee_roi
                (select_bands bands (narrow_dates query c))) s'
    /\ heap s' = heap s.
Proof.
  intros Hw Hks. unfold process_leaf, mosaic_by.
  fold (narrow_dates query c). fold (select_bands bands (narrow_dates query c)).
  destruct mosaic_window as [window |]; [| eauto].
  apply Forall_app in Hks as [Hn Hs].
  destruct (slash_path_Some _ Hn) as [a ->]. destruct (slash_path_Some _ Hs) as [b ->].
  simpl. unfold utils.doMosaic, utils.check_mosaic_window.
  rewrite bool_decide_eq_true_2 by (apply Hw; reflexivity). simpl. eauto.
Qed.

Lemma apply_processing_leaf fuel c sub_keys s :
  apply_processing ee_roi collection nested_keys bands query mosaic_window
    date_start date_end fuel (VColl c) sub_keys s
  = match leaf c sub_keys s with
    | Return c' s' => Return (VColl c') s'
    | Raised e s' => Raised e s'
    | Undefined => Undefined
    end.
Proof. destruct fuel; reflexivity. Qed.

End TreeProcessor.

Lemma bind_keyword_comm a k1 k2 :
  keyword_name k1 <> keyword_name k2 ->
  bind_keyword (bind_keyword a k1) k2 = bind_keyword (bind_keyword a k2) k1.
Proof.
  destruct k1, k2; simpl; intros H; try reflexivity; exfalso; apply H; reflexivity.
Qed.

Lemma bind_keywords_perm kws kws' :
  kws ≡ₚ kws' -> NoDup (keyword_name <$> kws) ->
  forall a, fold_left bind_keyword kws a = fold_left bind_keyword kws' a.
Proof.
  induction 1 as [| k kws kws' _ IH | k1 k2 kws | kws kws' kws'' H1 IH1 H2 IH2];
    intros Hnd a; simpl.
  - reflexivity.
  - apply IH. apply list.NoDup_cons in Hnd as [_ Hnd]. exact Hnd.
  - rewrite bind_keyword_comm; [reflexivity |].
    simpl in Hnd. apply list.NoDup_cons in Hnd as [Hk _].
    intros Heq. apply Hk. rewrite Heq. left.
  - rewrite IH1 by assumption. apply IH2. rewrite <- H1. exact Hnd.
Qed.



(** ** Retrieval on the shipped configuration *)

(** A key that is not in the dict reached so far: a warning, and the loop
    goes on from the same dict. *)
Lemma descend_missing_key season collection imgry k rest s :
  getitem (heap s) imgry k = NoKey ->
  descend season collection imgry (k :: rest) s
  = descend season collection imgry rest
      (warn ("Nested key " +:+ str_key k +:+ " not found in " +:+ str_key season
             +:+ ", " +:+ collection) s).
Proof. intros H. simpl. rewrite H. reflexivity. Qed.

(** C10, the failing call. The shipped configuration has no grouping for
    ['S2'], so [imagery['2022']['S2']] is a collection;
    [getImagery('S2', nested_keys=['HH'], season='2022')] then indexes the
    collection, which raises [TypeError]: the call is aborted instead of
    warning and going on. *)
Lemma getImagery_key_below_leaf_raises :
  exists session self h s',
    __init__ hasattr_Filter registry a_clock "example_sanikiluaq" = Ok session /\
    in_store session [] = (self, h) /\
    getImagery 4 self "S2" [Some "HH"] [] (Some "2022") [] None
      {| heap := h; warnings := []; stdout := [] |}
    = Raised (TypeError "'ImageCollection' object is not subscriptable") s'.
Proof.
  eexists _, _, _, _. split; [vm_compute; reflexivity |].
  split; vm_compute; reflexivity.
Qed.

(** The same call on the grouped ['S1'] with a key it does not have warns
    and returns the whole group. *)
Example getImagery_missing_key_warns :
  exists session self h v s',
    __init__ hasattr_Filter registry a_clock "example_sanikiluaq" = Ok session /\
    in_store session [] = (self, h) /\
    getImagery 4 self "S1" [Some "HH"] [] (Some "2022") [] None
      {| heap := h; warnings := []; stdout := [] |}
    = Return (Some v) s' /\
    warnings s' = ["Nested key HH not found in 2022, S1"] /\
    load 4 (heap s') v = subtree (imagery session) [Some "2022"; Some "S1"].
Proof.
  eexists _, _, _, _, _. split; [vm_compute; reflexivity |].
  split; [vm_compute; reflexivity |].
  split; [vm_compute; reflexivity |].
  split; vm_compute; reflexivity.
Qed.

(** ** Construction: the check of the filter types *)

Section FilterTypes.

Variable hasattr : string -> bool.

Lemma assert_filter_types_Ok coll_key fs :
  assert_filter_types hasattr coll_key fs = Ok tt ->
  forall f, f ∈ fs -> hasattr (type f) = true.
Proof.
  induction fs as [| f0 fs IH]; simpl; intros H f Hf; [inversion Hf |].
  destruct (hasattr (type f0)) eqn:Hf0; [| discriminate].
  apply elem_of_cons in Hf as [-> | Hf]; auto.
Qed.

Lemma assert_filter_types_Raise coll_key fs e :
  assert_filter_types hasattr coll_key fs = Raise e ->
  exists f, f ∈ fs /\ hasattr (type f) = false /\
            e = AssertionError
                  ("Invalid filter type provided for " +:+ coll_key +:+ ": " +:+ type f).
Proof.
  induction fs as [| f0 fs IH]; simpl; intros H; [discriminate |].
  destruct (hasattr (type f0)) eqn:Hf0.
  - destruct (IH H) as (f & Hf & Hfalse & ->). exists f. split_and!; [right | |]; auto.
  - injection H as <-. exists f0. split_and!; [left | |]; auto.
Qed.

Lemma verify_flattened_Ok coll_key es :
  verify_flattened hasattr coll_key es = Ok tt ->
  forall entry fs f, entry ∈ es -> filters entry = CList fs -> f ∈ fs ->
                     hasattr (type f) = true.
Proof.
  induction es as [| e0 es IH]; simpl; intros H entry fs f Hentry Hfs Hf;
    [inversion Hentry |].
  destruct (iter_filters (filters e0)) as [fs0 |] eqn:Hit; simpl in H; [| discriminate].
  destruct (assert_filter_types hasattr coll_key fs0) as [[] |] eqn:Has; simpl in H;
    [| discriminate].
  apply elem_of_cons in Hentry as [-> | Hentry]; [| eauto].
  rewrite Hfs in Hit. injection Hit as <-. eapply assert_filter_types_Ok; eassumption.
Qed.

Lemma verify_flattened_Raise coll_key es msg :
  verify_flattened hasattr coll_key es = Raise (AssertionError msg) ->
  exists t, hasattr t = false /\
            msg = "Invalid filter type provided for " +:+ coll_key +:+ ": " +:+ t.
Proof.
  induction es as [| e0 es IH]; simpl; intros H; [discriminate |].
  destruct (iter_filters (filters e0)) as [fs0 |] eqn:Hit; simpl in H.
  - destruct (assert_filter_types hasattr coll_key fs0) as [[] |] eqn:Has; simpl in H;
      [auto |].
    injection H as ->.
    apply assert_filter_types_Raise in Has as (f & _ & Hfalse & [= ->]). eauto.
  - injection H as ->. destruct (filters e0) as [[| ? ?] | ?]; discriminate Hit.
Qed.

Lemma collect_map_Raise {A B : Type} (f : B -> result (list A)) (items : list B) e :
  collect (List.map f items) = Raise e -> exists x, x ∈ items /\ f x = Raise e.
Proof.
  induction items as [| x items IH]; simpl; intros H; [discriminate |].
  destruct (f x) as [xs |] eqn:Hfx; simpl in H.
  - destruct (collect (List.map f items)); simpl in H; [discriminate |].
    destruct (IH H) as (x' & Hx' & Hf). exists x'. split; [right |]; assumption.
  - injection H as <-. exists x. split; [left | assumption].
Qed.

(** The flattener raises nothing but [AttributeError]. *)
Lemma flatten_Raise c : forall pre d e,
  utils.flatten_nested_imagery_filters c pre d = Raise e -> exists m, e = AttributeError m.
Proof.
  induction c as [fs | items IH] using FilterConfig_induction; intros pre d e H.
  - cbn [utils.flatten_nested_imagery_filters] in H. destruct (d <? 1); [discriminate |].
    injection H as <-. eauto.
  - destruct (dict_get "filters" items) as [fs |] eqn:Hf.
    { rewrite (flatten_leaf _ _ _ _ Hf) in H. discriminate. }
    destruct (Z.ltb_spec d 1) as [Hd | Hd].
    { rewrite (flatten_exhausted (CDict items)) in H by assumption. discriminate. }
    rewrite flatten_group in H by assumption.
    apply collect_map_Raise in H as (x & Hx & H).
    rewrite list.Forall_forall in IH. eapply IH; eassumption.
Qed.

Section Season.

Variables (ee_collections : list (string * string)) (szn : string).

Lemma flatten_season_Ok coll_cfg : forall flat flat',
  flatten_season hasattr ee_collections szn coll_cfg flat = Ok flat' ->
  forall coll_key filt_cfg, (coll_key, filt_cfg) ∈ coll_cfg ->
    exists es,
      utils.flatten_nested_imagery_filters filt_cfg [] utils.default_max_depth = Ok es /\
      verify_flattened hasattr coll_key es = Ok tt.
Proof.
  induction coll_cfg as [| [k0 c0] coll_cfg IH]; simpl; intros flat flat' H k c Hin;
    [inversion Hin |].
  destruct (dict_has k0 ee_collections); simpl in H; [| discriminate].
  destruct (utils.flatten_nested_imagery_filters c0 [] utils.default_max_depth)
    as [es0 |] eqn:Hfl; simpl in H; [| discriminate].
  destruct (verify_flattened hasattr k0 es0) as [[] |] eqn:Hv; simpl in H; [| discriminate].
  apply elem_of_cons in Hin as [[= -> ->] | Hin]; [eauto | eapply IH; eassumption].
Qed.

Lemma flatten_season_Raise coll_cfg : forall flat msg,
  flatten_season hasattr ee_collections szn coll_cfg flat = Raise (AssertionError msg) ->
  exists coll_key t,
    coll_key ∈ keys coll_cfg /\ hasattr t = false /\
    msg = "Invalid filter type provided for " +:+ coll_key +:+ ": " +:+ t.
Proof.
  induction coll_cfg as [| [k0 c0] coll_cfg IH]; simpl; intros flat msg H; [discriminate |].
  destruct (dict_has k0 ee_collections); simpl in H; [| discriminate].
  destruct (utils.flatten_nested_imagery_filters c0 [] utils.default_max_depth)
    as [es0 |] eqn:Hfl; simpl in H.
  - destruct (verify_flattened hasattr k0 es0) as [[] |] eqn:Hv; simpl in H.
    + destruct (IH _ _ H) as (k & t & Hk & Ht & ->). exists k, t. split_and!; [right | |]; auto.
    + injection H as ->. apply verify_flattened_Raise in Hv as (t & Ht & ->).
      exists k0, t. split_and!; [left | |]; auto.
  - injection H as ->. apply flatten_Raise in Hfl as [m Hm]. discriminate.
Qed.

End Season.

Lemma flatten_all_Ok ee_collections seasons : forall flattened flattened',
  flatten_all hasattr ee_collections seasons flattened = Ok flattened' ->
  forall szn season coll_key filt_cfg,
    (szn, season) ∈ seasons -> (coll_key, filt_cfg) ∈ roi_configs.collections season ->
    exists es,
      utils.flatten_nested_imagery_filters filt_cfg [] utils.default_max_depth = Ok es /\
      verify_flattened hasattr coll_key es = Ok tt.
Proof.
  induction seasons as [| [s0 f0] seasons IH]; simpl;
    intros flattened flattened' H szn season k c Hs Hc; [inversion Hs |].
  destruct (flatten_season hasattr ee_collections s0 (roi_configs.collections f0) _)
    as [flat |] eqn:Hfs; simpl in H; [| discriminate].
  apply elem_of_cons in Hs as [[= -> ->] | Hs].
  - eapply flatten_season_Ok; eassumption.
  - eapply IH; eassumption.
Qed.

Lemma flatten_all_Raise ee_collections seasons : forall flattened msg,
  flatten_all hasattr ee_collections seasons flattened = Raise (AssertionError msg) ->
  exists szn season coll_key t,
    (szn, season) ∈ seasons /\ coll_key ∈ keys (roi_configs.collections season) /\
    hasattr t = false /\
    msg = "Invalid filter type provided for " +:+ coll_key +:+ ": " +:+ t.
Proof.
  induction seasons as [| [s0 f0] seasons IH]; simpl; intros flattened msg H;
    [discriminate |].
  destruct (flatten_season hasattr ee_collections s0 (roi_configs.collections f0) _)
    as [flat |] eqn:Hfs; simpl in H.
  - destruct (IH _ _ H) as (szn & season & k & t & Hs & Hk & Ht & ->).
    exists szn, season, k, t. split_and!; [right | | |]; auto.
  - injection H as ->. apply flatten_season_Raise in Hfs as (k & t & Hk & Ht & ->).
    exists s0, f0, k, t. split_and!; [left | | |]; auto.
Qed.


End FilterTypes.



(** ** Mosaicking *)

Section Mosaicking.

Lemma unit_millis_pos w : w ∈ utils.supported_mosaic_windows -> 0 < ee.unit_millis w.
Proof.
  unfold utils.supported_mosaic_windows. rewrite !elem_of_cons, elem_of_nil.
  intros [-> | [-> | [-> | []]]]; reflexivity.
Qed.

Lemma insert_by_time_elem img x l :
  x ∈ ee.insert_by_time img l <-> x = img \/ x ∈ l.
Proof.
  induction l as [| y l IH]; simpl.
  - rewrite list_elem_of_singleton, elem_of_nil. tauto.
  - destruct (ee.system_time_start img <? ee.system_time_start y).
    + rewrite elem_of_cons. tauto.
    + rewrite !elem_of_cons, IH. tauto.
Qed.

Lemma sort_by_time_elem x l : x ∈ ee.sort_by_time l <-> x ∈ l.
Proof.
  unfold ee.sort_by_time. induction l as [| y l IH]; simpl; [tauto |].
  rewrite insert_by_time_elem, elem_of_cons, IH. tauto.
Qed.

Lemma insert_by_time_sorted img l :
  StronglySorted time_le l -> StronglySorted time_le (ee.insert_by_time img l).
Proof.
  induction 1 as [| y l Hs IH Hall]; simpl.
  - constructor; constructor.
  - destruct (Z.ltb_spec (ee.system_time_start img) (ee.system_time_start y)) as [Hlt | Hge].
    + constructor; [constructor; assumption |].
      constructor; [unfold time_le; lia |].
      apply list.Forall_forall. intros x Hx. rewrite list.Forall_forall in Hall.
      specialize (Hall x Hx). unfold time_le in *. lia.
    + constructor; [exact IH |].
      apply list.Forall_forall. intros x Hx. apply insert_by_time_elem in Hx as [-> | Hx].
      * unfold time_le. lia.
      * rewrite list.Forall_forall in Hall. auto.
Qed.

Lemma sort_by_time_sorted l : StronglySorted time_le (ee.sort_by_time l).
Proof.
  unfold ee.sort_by_time. induction l as [| y l IH]; simpl; [constructor |].
  apply insert_by_time_sorted, IH.
Qed.

Lemma filter_sorted (p : ee.Image -> bool) l :
  StronglySorted time_le l -> StronglySorted time_le (List.filter p l).
Proof.
  induction 1 as [| y l Hs IH Hall]; simpl; [constructor |].
  destruct (p y); [| exact IH]. constructor; [exact IH |].
  apply list.Forall_forall. intros x Hx. apply list_elem_of_In, filter_In in Hx as [Hx _].
  rewrite list.Forall_forall in Hall. apply Hall, list_elem_of_In, Hx.
Qed.

Lemma filterDate_elem collection u t img :
  img ∈ ee.filterDate (ee.sort_by_time collection) t (t + u)
  <-> img ∈ collection /\ in_window u t img.
Proof.
  unfold ee.filterDate, in_window.
  rewrite list_elem_of_In, filter_In, <- list_elem_of_In, sort_by_time_elem.
  rewrite andb_true_iff, Z.leb_le, Z.ltb_lt. tauto.
Qed.

Lemma advance_one t w : ee.advance t 1 w = t + ee.unit_millis w.
Proof. unfold ee.advance. lia. Qed.

(** A window without images contributes nothing. *)
Lemma window_mosaic_None collection roi w t :
  window_mosaic collection roi w t = None
  <-> forall img, img ∈ collection -> ~ in_window (ee.unit_millis w) t img.
Proof.
  unfold window_mosaic. rewrite advance_one.
  pose proof (filterDate_elem collection (ee.unit_millis w) t) as Hel.
  destruct (ee.filterDate _ _ _) as [| first rest]; split.
  - intros _ img Hin Hw. apply (elem_of_nil img). apply Hel. auto.
  - reflexivity.
  - discriminate.
  - intros H. exfalso. destruct (proj1 (Hel first) ltac:(left)) as [Hin Hw]. eapply H; eauto.
Qed.

(** The composite of a window: tagged with the time of the earliest image
    of the window, clipped to the region, made of the window's images. *)
Lemma window_mosaic_Some collection roi w t m :
  window_mosaic collection roi w t = Some m ->
  (exists first,
     first ∈ collection /\ in_window (ee.unit_millis w) t first /\
     ee.system_time_start m = ee.system_time_start first /\
     forall img, img ∈ collection -> in_window (ee.unit_millis w) t img -> time_le first img)
  /\ ee.clipped_to m = Some roi
  /\ forall tile,
       tile ∈ ee.tiles m
       <-> exists img, img ∈ collection /\ in_window (ee.unit_millis w) t img
                       /\ tile ∈ ee.tiles img.
Proof.
  unfold window_mosaic. rewrite advance_one.
  pose proof (filterDate_elem collection (ee.unit_millis w) t) as Hel.
  pose proof (filter_sorted
                (fun img => (t <=? ee.system_time_start img)
                            && (ee.system_time_start img <? t + ee.unit_millis w))
                _ (sort_by_time_sorted collection)) as Hsorted.
  fold (ee.filterDate (ee.sort_by_time collection) t (t + ee.unit_millis w)) in Hsorted.
  destruct (ee.filterDate _ _ _) as [| first rest]; [discriminate |].
  intros [= <-]. split_and!.
  - exists first. destruct (proj1 (Hel first) ltac:(left)) as [Hin Hw].
    split_and!; [assumption | assumption | reflexivity |].
    intros img Himg Hwin. assert (Hmem : img ∈ first :: rest) by (apply Hel; auto).
    apply elem_of_cons in Hmem as [-> | Hmem]; [unfold time_le; lia |].
    apply StronglySorted_inv in Hsorted as [_ Hall].
    rewrite list.Forall_forall in Hall. auto.
  - reflexivity.
  - intros tile. cbn [ee.clip ee.mosaic_set ee.tiles].
    rewrite list_elem_of_In, in_concat. split.
    + intros (ts & Hts & Htile). apply in_map_iff in Hts as (img & <- & Himg).
      apply list_elem_of_In, Hel in Himg as [Hin Hw].
      exists img. split_and!; [assumption | assumption | apply list_elem_of_In, Htile].
    + intros (img & Hin & Hw & Htile). exists (ee.tiles img). split.
      * apply in_map, list_elem_of_In, Hel. auto.
      * apply list_elem_of_In, Htile.
Qed.

(** The iteration over the window starts, as one expression. *)
Lemma iterate_mosaicCollection collection roi w starts : forall acc,
  fold_left (fun image_list datetime =>
               utils.mosaicCollection (ee.sort_by_time collection) roi w datetime image_list)
    starts acc
  = acc ++ omap (window_mosaic collection roi w) starts.
Proof.
  induction starts as [| t starts IH]; intros acc; simpl; [rewrite app_nil_r; reflexivity |].
  rewrite IH. unfold utils.mosaicCollection, window_mosaic.
  destruct (ee.filterDate _ _ _); simpl; [reflexivity |].
  rewrite <- app_assoc. reflexivity.
Qed.

Lemma hourly_datetime_list_eq startDate endDate w :
  w ∈ utils.supported_mosaic_windows -> startDate <= endDate ->
  utils.hourly_datetime_list startDate endDate w
  = (fun i => startDate + Z.of_nat i * ee.unit_millis w)
      <$> seq 0 (S (Z.to_nat ((endDate - startDate) / ee.unit_millis w))).
Proof.
  intros Hw Hle. pose proof (unit_millis_pos w Hw) as Hu.
  unfold utils.hourly_datetime_list, ee.sequence_to_difference, ee.advance.
  assert (Hn : 0 <= (endDate - startDate) / ee.unit_millis w)
    by (apply Z.div_pos; lia).
  replace (Z.to_nat ((endDate - startDate) / ee.unit_millis w + 1))
    with (S (Z.to_nat ((endDate - startDate) / ee.unit_millis w))) by lia.
  rewrite List.map_map. reflexivity.
Qed.

(** C4, as amended. For the windows 'hour', 'day' and 'week' mosaicking
    succeeds; the windows start at [startDate] and follow one another, one
    unit apart, up to the window that holds [endDate]; every window that
    holds at least one image contributes exactly one composite, made of the
    images of that window, clipped to the region and tagged with the time
    of the earliest of them; a window without images contributes nothing. *)
Theorem mosaic_by_window (c : ee.ImageCollection) (collection : list ee.Image)
    (startDate endDate : Z) (roi : ee.Geometry) (w : string) :
  w ∈ utils.supported_mosaic_windows ->
  startDate <= endDate ->
  let u := ee.unit_millis w in
  let n := (endDate - startDate) / u in
  utils.doMosaic c startDate endDate roi w = Ok (ee.IC_mosaics c startDate endDate roi w)
  /\ utils.hourly_datetime_list startDate endDate w
     = (fun i => startDate + Z.of_nat i * u) <$> seq 0 (S (Z.to_nat n))
  /\ startDate + n * u <= endDate < startDate + (n + 1) * u
  /\ utils.doMosaic_images collection startDate endDate roi w
     = Ok (omap (window_mosaic collection roi w)
             (utils.hourly_datetime_list startDate endDate w))
  /\ forall t,
       (window_mosaic collection roi w t = None
        <-> forall img, img ∈ collection -> ~ in_window u t img)
       /\ forall m, window_mosaic collection roi w t = Some m ->
            (exists first,
               first ∈ collection /\ in_window u t first /\
               ee.system_time_start m = ee.system_time_start first /\
               forall img, img ∈ collection -> in_window u t img -> time_le first img)
            /\ ee.clipped_to m = Some roi
            /\ forall tile,
                 tile ∈ ee.tiles m
                 <-> exists img, img ∈ collection /\ in_window u t img /\ tile ∈ ee.tiles img.
Proof.
  intros Hw Hle u n. pose proof (unit_millis_pos w Hw) as Hu. fold u in Hu.
  assert (Hguard : utils.check_mosaic_window w = Ok tt).
  { unfold utils.check_mosaic_window. rewrite bool_decide_eq_true_2 by assumption.
    reflexivity. }
  split_and!.
  - unfold utils.doMosaic. rewrite Hguard. reflexivity.
  - apply hourly_datetime_list_eq; assumption.
  - subst n. pose proof (Z.mul_div_le (endDate - startDate) u Hu). lia.
  - subst n. pose proof (Z.mul_succ_div_gt (endDate - startDate) u Hu). lia.
  - unfold utils.doMosaic_images, utils.genMosaickingFunction. rewrite Hguard. simpl.
    rewrite iterate_mosaicCollection. reflexivity.
  - intros t. split; [apply window_mosaic_None | apply window_mosaic_Some].
Qed.

End Mosaicking.

(** One image at half past midnight, mosaicked by the hour from 0:00 to
    1:00. *)
Lemma mosaic_by_window_witness :
  utils.doMosaic_images [half_past] 0 3600000 [] "hour"
  = Ok (omap (window_mosaic [half_past] [] "hour")
          (utils.hourly_datetime_list 0 3600000 "hour")).
Proof.
  apply (mosaic_by_window (ee.IC_source "COPERNICUS/S2") [half_past] 0 3600000 [] "hour").
  - apply (bool_decide_unpack _). vm_compute. exact I.
  - lia.
Defined.

(** C4, counterexample. The window 'month' is refused, and the composite
    of the window 0:00-1:00 carries the time of its image, 0:30, not the start of the
    window. *)
Lemma mosaic_by_window_counterexample :
  utils.doMosaic (ee.IC_source "COPERNICUS/S2") 0 3600000 [] "month"
  = Raise (ValueError "mosaic_window must be in ['hour', 'day', 'week']; received month")
  /\ utils.doMosaic_images [half_past] 0 3600000 [] "month"
     = Raise (ValueError "mosaic_window must be in ['hour', 'day', 'week']; received month")
  /\ utils.hourly_datetime_list 0 3600000 "hour" = [0; 3600000]
  /\ exists m,
       utils.doMosaic_images [half_past] 0 3600000 [] "hour" = Ok [m]
       /\ in_window 3600000 0 half_past
       /\ ee.system_time_start m = 1800000
       /\ ee.system_time_start m <> 0.
Proof.
  split_and!; [reflexivity | reflexivity | reflexivity |].
  eexists. split_and!; [vm_compute; reflexivity | unfold in_window; simpl; lia
                       | reflexivity | discriminate].
Qed.

(** ** The grouped collection builder *)

Section Builder.

Lemma dict_get_set_eq {K V : Type} `{EqDecision K} (k : K) (v : V) d :
  dict_get k (dict_set k v d) = Some v.
Proof.
  induction d as [| [k' v'] d IH]; simpl.
  - destruct (decide (k = k)); [reflexivity | congruence].
  - destruct (decide (k = k')) as [-> | Hne]; simpl.
    + destruct (decide (k' = k')); [reflexivity | congruence].
    + destruct (decide (k = k')); [congruence | exact IH].
Qed.

Lemma dict_get_set_ne {K V : Type} `{EqDecision K} (k k' : K) (v : V) d :
  k <> k' -> dict_get k' (dict_set k v d) = dict_get k' d.
Proof.
  intros Hne. induction d as [| [k0 v0] d IH]; simpl.
  - destruct (decide (k' = k)); [congruence | reflexivity].
  - destruct (decide (k = k0)) as [-> | Hne0]; simpl.
    + destruct (decide (k' = k0)); [congruence | reflexivity].
    + destruct (decide (k' = k0)); [reflexivity | exact IH].
Qed.

Lemma comparable_sym p : forall q, comparable p q -> comparable q p.
Proof.
  induction p as [| a p IH]; intros [| b q]; simpl; try tauto.
  intros [-> H]. split; [reflexivity | apply IH, H].
Qed.

Lemma comparable_refl p : comparable p p.
Proof. induction p; simpl; auto. Qed.

(** [comparable] says what its name says. *)
Lemma comparable_prefix p : forall q, comparable p q <-> p `prefix_of` q \/ q `prefix_of` p.
Proof.
  induction p as [| a p IH]; intros [| b q]; simpl.
  - split; [left; apply prefix_nil | trivial].
  - split; [left; apply prefix_nil | trivial].
  - split; [right; apply prefix_nil | trivial].
  - rewrite IH. split.
    + intros [-> [H | H]]; [left | right]; apply prefix_cons; exact H.
    + intros [H | H].
      * pose proof (prefix_cons_inv_1 _ _ _ _ H). pose proof (prefix_cons_inv_2 _ _ _ _ H).
        auto.
      * pose proof (prefix_cons_inv_1 _ _ _ _ H). pose proof (prefix_cons_inv_2 _ _ _ _ H).
        auto.
Qed.

Lemma comparable_app pre : forall p q, comparable (pre ++ p) (pre ++ q) <-> comparable p q.
Proof. induction pre as [| a pre IH]; intros p q; simpl; [tauto |]. rewrite IH. tauto. Qed.

Lemma subtree_leaf c q t : subtree (Leaf c) q = Some t -> q = [] /\ t = Leaf c.
Proof. destruct q; simpl; [intros [= <-]; auto | discriminate]. Qed.

Lemma subtree_empty_node q c : subtree (Node []) q <> Some (Leaf c).
Proof. destruct q; simpl; discriminate. Qed.

(** After the assignment the value is at its path. *)
Lemma install_lookup rest : forall t k v t',
  install t k rest v = Ok t' -> subtree t' (k :: rest) = Some v.
Proof.
  induction rest as [| k' rest IH]; intros [c | children] k v t' H; simpl in H;
    try discriminate.
  - injection H as <-. simpl. rewrite dict_get_set_eq. reflexivity.
  - destruct (install _ k' rest v) as [sub |] eqn:Hsub; simpl in H; [| discriminate].
    injection H as <-. cbn [subtree]. rewrite dict_get_set_eq. eapply IH. exact Hsub.
Qed.

(** The assignment changes nothing at a path that is not comparable with
    its own. *)
Lemma install_frame rest : forall t k v t' q,
  install t k rest v = Ok t' -> ~ comparable q (k :: rest) -> subtree t' q = subtree t q.
Proof.
  induction rest as [| k' rest IH]; intros [c | children] k v t' q H Hq; simpl in H;
    try discriminate.
  - injection H as <-. destruct q as [| k1 q]; [exfalso; apply Hq; exact I |].
    cbn [subtree]. rewrite dict_get_set_ne; [reflexivity |].
    intros ->. apply Hq. simpl. destruct q; simpl; auto.
  - destruct (install _ k' rest v) as [sub |] eqn:Hsub; simpl in H; [| discriminate].
    injection H as <-. destruct q as [| k1 q]; [exfalso; apply Hq; exact I |].
    cbn [subtree]. destruct (decide (k = k1)) as [<- | Hne].
    + rewrite dict_get_set_eq.
      assert (Hq' : ~ comparable q (k' :: rest)) by (intros Hc; apply Hq; simpl; auto).
      rewrite (IH _ _ _ _ _ Hsub Hq').
      destruct (dict_get k children) as [t0 |]; [reflexivity |]. simpl.
      destruct q; [exfalso; apply Hq'; exact I | reflexivity].
    + rewrite dict_get_set_ne by assumption. reflexivity.
Qed.

(** The collections of the tree after the assignment of a collection: the
    one assigned, and those that were elsewhere. *)
Lemma install_leaves rest : forall t k c0 t' q c,
  install t k rest (Leaf c0) = Ok t' ->
  subtree t' q = Some (Leaf c) ->
  q = k :: rest \/ (~ comparable q (k :: rest) /\ subtree t q = Some (Leaf c)).
Proof.
  induction rest as [| k' rest IH]; intros [c1 | children] k c0 t' q c H Hq; simpl in H;
    try discriminate.
  - injection H as <-. destruct q as [| k1 q]; [discriminate |].
    cbn [subtree] in Hq. destruct (decide (k = k1)) as [<- | Hne].
    + rewrite dict_get_set_eq in Hq. apply subtree_leaf in Hq as [-> _]. left. reflexivity.
    + rewrite dict_get_set_ne in Hq by assumption. right. split; [| exact Hq].
      simpl. intros [Heq _]. congruence.
  - destruct (install _ k' rest (Leaf c0)) as [sub |] eqn:Hsub; simpl in H; [| discriminate].
    injection H as <-. destruct q as [| k1 q]; [discriminate |].
    cbn [subtree] in Hq. destruct (decide (k = k1)) as [<- | Hne].
    + rewrite dict_get_set_eq in Hq.
      destruct (IH _ _ _ _ _ _ Hsub Hq) as [-> | [Hnc Hold]]; [left; reflexivity |].
      right. split; [simpl; tauto |]. cbn [subtree].
      destruct (dict_get k children) as [t0 |]; [exact Hold |].
      exfalso. eapply subtree_empty_node. exact Hold.
    + rewrite dict_get_set_ne in Hq by assumption. right. split; [| exact Hq].
      simpl. intros [Heq _]. congruence.
Qed.

(** The assignment succeeds when no collection sits at a comparable path. *)
Lemma install_succeeds rest : forall t k v,
  (forall q c, comparable q (k :: rest) -> subtree t q <> Some (Leaf c)) ->
  exists t', install t k rest v = Ok t'.
Proof.
  induction rest as [| k' rest IH]; intros t k v Hfree.
  - destruct t as [c | children]; [exfalso; apply (Hfree [] c); [exact I | reflexivity] |].
    simpl. eauto.
  - destruct t as [c | children]; [exfalso; apply (Hfree [] c); [exact I | reflexivity] |].
    simpl. destruct (IH (default (Node []) (dict_get k children)) k' v) as [sub ->];
      [| simpl; eauto].
    intros q c Hc Hq. apply (Hfree (k :: q) c); [simpl; auto |]. cbn [subtree].
    destruct (dict_get k children) as [t0 |]; [exact Hq |].
    exfalso. eapply subtree_empty_node. exact Hq.
Qed.

Lemma install_all_app jobs1 : forall jobs2 t,
  install_all (jobs1 ++ jobs2) t = let* t' := install_all jobs1 t in install_all jobs2 t'.
Proof.
  induction jobs1 as [| [[k rest] v] jobs1 IH]; intros jobs2 t; simpl; [reflexivity |].
  destruct (install t k rest v); simpl; [apply IH | reflexivity].
Qed.

(** A list of assignments at pairwise incomparable paths, none comparable
    with the path of a collection already in the tree: all succeed, each
    value is found at its path in the end, and nothing else changes. *)
Lemma install_all_spec jobs : forall t paths,
  leaves_within paths t ->
  separated (job_path <$> jobs) ->
  (forall q j, q ∈ paths -> j ∈ jobs -> ~ comparable q (job_path j)) ->
  (forall j, j ∈ jobs -> exists c, j.2 = Leaf c) ->
  exists t',
    install_all jobs t = Ok t' /\
    (forall j, j ∈ jobs -> subtree t' (job_path j) = Some j.2) /\
    (forall q, (forall j, j ∈ jobs -> ~ comparable q (job_path j)) ->
               subtree t' q = subtree t q) /\
    leaves_within (paths ++ (job_path <$> jobs)) t'.
Proof.
  induction jobs as [| [[k rest] v] jobs IH]; intros t paths Hin Hsep Hapart Hleaf.
  - exists t. simpl. split_and!;
      [reflexivity | intros j Hj; inversion Hj | reflexivity | rewrite app_nil_r; exact Hin].
  - rewrite fmap_cons in Hsep. inversion Hsep as [| p ps Hhead Htail]; subst.
    destruct (Hleaf (k, rest, v) ltac:(left)) as [c0 Hv]. simpl in Hv. subst v.
    change (job_path (k, rest, Leaf c0)) with (k :: rest) in Hhead.
    destruct (install_succeeds rest t k (Leaf c0)) as [t1 Ht1].
    { intros q c Hc Hq. apply Hin in Hq.
      apply (Hapart q (k, rest, Leaf c0)); [exact Hq | left | exact Hc]. }
    destruct (IH t1 (paths ++ [k :: rest])) as (t' & Ht' & Hlook & Hframe & Hwithin).
    + intros q c Hq. destruct (install_leaves _ _ _ _ _ _ _ Ht1 Hq) as [-> | [_ Hold]].
      * apply elem_of_app. right. left.
      * apply elem_of_app. left. apply (Hin _ _ Hold).
    + exact Htail.
    + intros q j Hq Hj. apply elem_of_app in Hq as [Hq | Hq].
      * apply (Hapart q j Hq). right. exact Hj.
      * apply list_elem_of_singleton in Hq as ->. apply Hhead.
        apply list_elem_of_fmap. exists j. split; [reflexivity | exact Hj].
    + intros j Hj. apply Hleaf. right. exact Hj.
    + exists t'. cbn [install_all]. rewrite Ht1. cbn [bind]. split_and!.
      * exact Ht'.
      * intros j Hj. apply elem_of_cons in Hj as [-> | Hj]; [| apply Hlook, Hj].
        change (job_path (k, rest, Leaf c0)) with (k :: rest).
        rewrite Hframe; [eapply install_lookup; exact Ht1 |].
        intros j Hj Hc. apply (Hhead (job_path j)); [| exact Hc].
        apply list_elem_of_fmap. exists j. split; [reflexivity | exact Hj].
      * intros q Hq. rewrite Hframe; [| intros j Hj; apply Hq; right; exact Hj].
        eapply install_frame; [exact Ht1 |]. apply (Hq (k, rest, Leaf c0)). left.
      * rewrite fmap_cons. rewrite <- app_assoc in Hwithin. exact Hwithin.
Qed.

Lemma elem_of_concat_map {A B : Type} (g : A -> list B) (xs : list A) (y : B) :
  y ∈ List.concat (List.map g xs) <-> exists x, x ∈ xs /\ y ∈ g x.
Proof.
  induction xs as [| x xs IH]; simpl.
  - rewrite elem_of_nil. split; [tauto | intros (x & Hx & _); inversion Hx].
  - rewrite elem_of_app, IH. split.
    + intros [H | (x' & Hx' & H)]; [exists x | exists x']; split; auto; [left | right; auto].
    + intros (x' & Hx' & H). apply elem_of_cons in Hx' as [-> | Hx']; eauto.
Qed.

Lemma separated_app ps1 : forall ps2,
  separated ps1 -> separated ps2 ->
  (forall p q, p ∈ ps1 -> q ∈ ps2 -> ~ comparable p q) ->
  separated (ps1 ++ ps2).
Proof.
  induction ps1 as [| p ps1 IH]; intros ps2 H1 H2 Hcross; simpl; [exact H2 |].
  inversion H1 as [| p' ps' Hhead Htail]; subst. constructor.
  - intros q Hq. apply elem_of_app in Hq as [Hq | Hq]; [apply Hhead, Hq |].
    apply Hcross; [left | exact Hq].
  - apply IH; [exact Htail | exact H2 |]. intros p' q Hp' Hq. apply Hcross; [right |]; auto.
Qed.

Lemma separated_fmap_app pre ps : separated ps -> separated ((pre ++.) <$> ps).
Proof.
  induction 1 as [| p ps Hhead _ IH]; simpl; constructor; [| exact IH].
  intros q Hq. apply list_elem_of_fmap in Hq as (q' & -> & Hq').
  rewrite comparable_app. apply Hhead, Hq'.
Qed.

(** Blocks of assignments, each under its own key after a common prefix. *)
Lemma separated_blocks {A : Type} (g : A -> list job) (pre : list key) (hd : A -> key)
    (xs : list A) :
  NoDup (hd <$> xs) ->
  (forall x, x ∈ xs -> separated (job_path <$> g x)) ->
  (forall x j, x ∈ xs -> j ∈ g x -> exists r, job_path j = pre ++ hd x :: r) ->
  separated (job_path <$> List.concat (List.map g xs)).
Proof.
  induction xs as [| x xs IH]; intros Hnd Hsep Hhd; simpl; [constructor |].
  rewrite fmap_app. rewrite fmap_cons in Hnd. apply list.NoDup_cons in Hnd as [Hx Hnd].
  apply separated_app.
  - apply Hsep. left.
  - apply IH; [exact Hnd | |]; intros; [apply Hsep | eapply Hhd]; try right; eauto.
  - intros p q Hp Hq Hc.
    apply list_elem_of_fmap in Hp as (j & -> & Hj).
    apply list_elem_of_fmap in Hq as (j' & -> & Hj').
    apply elem_of_concat_map in Hj' as (x' & Hx' & Hj').
    destruct (Hhd x j ltac:(left) Hj) as [r Hr].
    destruct (Hhd x' j' ltac:(right; exact Hx') Hj') as [r' Hr'].
    rewrite Hr, Hr', comparable_app in Hc. simpl in Hc. destruct Hc as [Heq _].
    apply Hx. rewrite Heq. apply list_elem_of_fmap. exists x'. split; [reflexivity | exact Hx'].
Qed.

Section Loops.

Variables (ee_roi : ee.Geometry) (ee_collections : list (string * string)).

Lemma load_entries_jobs base szn coll_key entries : forall t,
  (forall e, e ∈ entries -> exists fs, iter_filters (filters e) = Ok fs) ->
  load_entries base szn coll_key entries t
  = install_all (List.map (entry_job base szn coll_key) entries) t.
Proof.
  induction entries as [| e entries IH]; intros t H; [reflexivity |].
  destruct (H e ltac:(left)) as [fs Hfs].
  cbn [load_entries List.map]. unfold entry_job at 1, filters_list. cbn [install_all].
  rewrite Hfs. cbn [bind]. destruct (install _ _ _ _); cbn [bind]; [| reflexivity].
  apply IH. intros e' He'. apply H. right. exact He'.
Qed.

Lemma load_collections_jobs szn date_start date_end flat : forall t,
  (forall coll_key entries, (coll_key, entries) ∈ flat ->
     (exists ee_coll_name, dict_get coll_key ee_collections = Some ee_coll_name) /\
     forall e, e ∈ entries -> exists fs, iter_filters (filters e) = Ok fs) ->
  load_collections ee_roi ee_collections szn date_start date_end flat t
  = install_all
      (List.concat
         (List.map (collection_jobs ee_roi ee_collections szn date_start date_end) flat)) t.
Proof.
  induction flat as [| [coll_key entries] flat IH]; intros t H; [reflexivity |].
  destruct (H coll_key entries ltac:(left)) as [[name Hname] Hentries].
  cbn [load_collections List.map List.concat]. rewrite Hname, install_all_app.
  rewrite load_entries_jobs by assumption.
  unfold collection_jobs at 1. cbn [fst snd]. rewrite Hname. cbn [default].
  destruct (install_all _ t); cbn [bind]; [| reflexivity].
  apply IH. intros k es Hin. apply H. right. exact Hin.
Qed.

Lemma load_seasons_jobs flattened seasons : forall t,
  (forall szn f, (szn, f) ∈ seasons ->
     exists flat,
       dict_get szn flattened = Some flat /\
       forall coll_key entries, (coll_key, entries) ∈ flat ->
         (exists ee_coll_name, dict_get coll_key ee_collections = Some ee_coll_name) /\
         forall e, e ∈ entries -> exists fs, iter_filters (filters e) = Ok fs) ->
  load_seasons ee_roi ee_collections flattened seasons t
  = install_all
      (List.concat (List.map (season_jobs ee_roi ee_collections flattened) seasons)) t.
Proof.
  induction seasons as [| [szn f] seasons IH]; intros t H; [reflexivity |].
  destruct (H szn f ltac:(left)) as (flat & Hflat & Hcolls).
  cbn [load_seasons List.map List.concat]. rewrite Hflat, install_all_app.
  rewrite load_collections_jobs by assumption.
  unfold season_jobs at 1. cbn [fst snd]. rewrite Hflat. cbn [default].
  destruct (install_all _ t); cbn [bind]; [| reflexivity].
  apply IH. intros s' f' Hin. apply (H s' f'). right. exact Hin.
Qed.

End Loops.

Lemma comparableb_spec p : forall q, comparableb p q = true <-> comparable p q.
Proof.
  induction p as [| a p IH]; intros [| b q]; simpl; try tauto.
  rewrite andb_true_iff, bool_decide_eq_true, IH. tauto.
Qed.

Lemma separatedb_spec ps : separatedb ps = true -> separated ps.
Proof.
  induction ps as [| p ps IH]; simpl; intros H; [constructor |].
  apply andb_prop in H as [H1 H2]. constructor; [| apply IH, H2].
  intros q Hq Hc. rewrite forallb_forall in H1.
  specialize (H1 q (proj1 (list_elem_of_In _ _) Hq)).
  apply comparableb_spec in Hc. rewrite Hc in H1. discriminate.
Qed.

Lemma loadableb_spec ee_collections imagery_filters flattened :
  loadableb ee_collections imagery_filters flattened = true ->
  loadable ee_collections imagery_filters flattened.
Proof.
  unfold loadableb, loadable. intros H. apply andb_prop in H as [H1 H2].
  split; [apply bool_decide_eq_true in H1; exact H1 |].
  intros szn Hszn. rewrite forallb_forall in H2.
  specialize (H2 szn (proj1 (list_elem_of_In _ _) Hszn)).
  destruct (dict_get szn flattened) as [flat |]; [| discriminate].
  apply andb_prop in H2 as [H3 H4]. exists flat.
  split_and!; [reflexivity | apply bool_decide_eq_true in H3; exact H3 |].
  intros coll_key entries Hin. rewrite forallb_forall in H4.
  specialize (H4 _ (proj1 (list_elem_of_In _ _) Hin)). cbn [fst snd] in H4.
  apply andb_prop in H4 as [H5 H6]. apply andb_prop in H5 as [H5 H7]. split_and!.
  - unfold dict_has in H5. destruct (dict_get coll_key ee_collections); [eauto | discriminate].
  - apply separatedb_spec, H7.
  - intros entry He. rewrite forallb_forall in H6.
    specialize (H6 _ (proj1 (list_elem_of_In _ _) He)). unfold has_filter_list in H6.
    destruct (iter_filters (filters entry)); [eauto | discriminate].
Qed.

(** What the flattener returns for a configuration with unique keys is
    separated. *)
Lemma flatten_separated c : forall pre d es,
  unique_keys c = true ->
  utils.flatten_nested_imagery_filters c pre d = Ok es ->
  separated (nested_keys <$> es).
Proof.
  assert (Hone : forall p : list key, separated [p]).
  { intros p. constructor; [intros q Hq; inversion Hq | constructor]. }
  induction c as [fs | items IH] using FilterConfig_induction; intros pre d es Hu H.
  - cbn [utils.flatten_nested_imagery_filters] in H.
    destruct (d <? 1); [| discriminate]. injection H as <-. apply Hone.
  - destruct (dict_get "filters" items) as [fs |] eqn:Hf.
    { rewrite (flatten_leaf _ _ _ _ Hf) in H. injection H as <-. apply Hone. }
    destruct (Z.ltb_spec d 1) as [Hd | Hd].
    { rewrite (flatten_exhausted (CDict items)) in H by assumption.
      injection H as <-. apply Hone. }
    rewrite flatten_group in H by assumption. clear Hf.
    apply unique_keys_dict in Hu as [Hnd Hu]. rewrite list.Forall_forall in IH.
    revert es H. induction items as [| [k sub] items IHitems]; intros es H.
    + injection H as <-. constructor.
    + simpl in H.
      destruct (utils.flatten_nested_imagery_filters sub (pre ++ [Some k]) (d - 1))
        as [xs |] eqn:Hxs; simpl in H; [| discriminate].
      destruct (collect _) as [ys |] eqn:Hys; simpl in H; [| discriminate].
      injection H as <-. rewrite fmap_app.
      simpl in Hnd. apply list.NoDup_cons in Hnd as [Hk Hnd]. apply separated_app.
      * apply (IH (k, sub) ltac:(left) _ _ _ (Hu (k, sub) ltac:(left)) Hxs).
      * apply IHitems;
          [ intros x Hx; apply IH; right; exact Hx
          | assumption
          | intros x Hx; apply Hu; right; exact Hx
          | reflexivity ].
      * intros q1 q2 Hq1 Hq2 Hc.
        apply list_elem_of_fmap in Hq1 as (e1 & -> & He1).
        apply list_elem_of_fmap in Hq2 as (e2 & -> & He2).
        apply (flatten_entries _ _ _ _ Hxs) in He1.
        apply flattened_from_prefix in He1 as [r1 Hr1].
        apply collect_map_elem in Hys as [_ Hys]. apply Hys in He2.
        destruct He2 as ([k' sub'] & zs & Hin & Hzs & He2). simpl in Hzs.
        apply (flatten_entries _ _ _ _ Hzs) in He2.
        apply flattened_from_prefix in He2 as [r2 Hr2].
        rewrite Hr1, Hr2, <- !app_assoc, comparable_app in Hc. simpl in Hc.
        destruct Hc as [[= <-] _]. apply Hk.
        apply list_elem_of_fmap. exists (k, sub'). split; [reflexivity | exact Hin].
Qed.

Lemma dict_get_map_node {A : Type} (g : A -> key) (v : A -> tree) (xs : list A) k t :
  dict_get k (List.map (fun x => (g x, v x)) xs) = Some t -> exists x, t = v x.
Proof.
  induction xs as [| x xs IH]; simpl; [discriminate |].
  destruct (decide (k = g x)); [intros [= <-]; eauto | exact IH].
Qed.

(** [_reset_imagery] holds no collection. *)
Lemma reset_no_leaves ee_collections imagery_filters :
  leaves_within [] (_reset_imagery ee_collections imagery_filters).
Proof.
  intros q c Hq. exfalso. unfold _reset_imagery in Hq.
  destruct q as [| k q]; [discriminate |]. cbn [subtree] in Hq.
  destruct (dict_get k _) as [t |] eqn:Hk; [| discriminate].
  apply dict_get_map_node in Hk as [szn ->].
  destruct q as [| k' q]; [discriminate |]. cbn [subtree] in Hq.
  destruct (dict_get k' _) as [t |] eqn:Hk'; [| discriminate].
  apply dict_get_map_node in Hk' as [coll ->].
  eapply subtree_empty_node. exact Hq.
Qed.

Lemma NoDup_Some_keys {V : Type} (l : list (string * V)) :
  NoDup (keys l) -> NoDup ((fun p : string * V => Some p.1) <$> l).
Proof.
  induction l as [| [k v] l IH]; simpl; intros H; [constructor |].
  apply list.NoDup_cons in H as [H1 H2]. apply list.NoDup_cons. split; [| apply IH, H2].
  intros Hin. apply H1. apply list_elem_of_fmap in Hin as (x & [= Heq] & Hx).
  apply list_elem_of_fmap. exists x. split; [exact Heq | exact Hx].
Qed.


End Builder.


(** Sentinel-2 is configured without groups: its collection sits directly
    under [['2022']['S2']]; the Sentinel-1 collections sit below their
    groups. *)
Example shipped_imagery_paths :
  exists session,
    __init__ hasattr_Filter registry a_clock "example_sanikiluaq" = Ok session /\
    _flattened_filters session = shipped_flattened /\
    subtree (imagery session) [Some "2022"; Some "S2"]
    = Some (Leaf (apply_filters
                    (base_coll (ee_roi session) "COPERNICUS/S2" (day 18962) (day 19143))
                    [ {| type := "lt";
                         args := [ArgStr "CLOUDY_PIXEL_PERCENTAGE"; ArgInt 80] |} ])) /\
    subtree (imagery session) [Some "2020"; Some "S1"; Some "IW"; Some "VV"]
    = Some (Leaf (apply_filters
                    (base_coll (ee_roi session) "COPERNICUS/S1_GRD" (day 18262) (day 18443))
                    [ {| type := "listContains";
                         args := [ArgStr "transmitterReceiverPolarisation"; ArgStr "VV"] |};
                      {| type := "eq"; args := [ArgStr "instrumentMode"; ArgStr "IW"] |} ])).
Proof.
  eexists. split; [vm_compute; reflexivity |].
  split; [vm_compute; reflexivity |]. split; vm_compute; reflexivity.
Qed.

(** ** Retrieval leaves the canonical tree alone *)

Section Frame.

Lemma keeps_refl n h : keeps n h h.
Proof. split; [lia | reflexivity]. Qed.

Lemma keeps_trans n h1 h2 h3 : keeps n h1 h2 -> keeps n h2 h3 -> keeps n h1 h3.
Proof.
  intros [L1 K1] [L2 K2]. split; [lia |]. intros l Hl. rewrite K2, K1 by assumption.
  reflexivity.
Qed.

Lemma keeps_weaken m n h h' : (m <= n)%nat -> keeps n h h' -> keeps m h h'.
Proof. intros Hmn [L K]. split; [exact L |]. intros l Hl. apply K. lia. Qed.

Lemma keeps_alloc h (d : pydict) : keeps (length h) h (h ++ [d]).
Proof.
  split; [rewrite length_app; lia |]. intros l Hl. apply lookup_app_l. exact Hl.
Qed.

Lemma keeps_setitem n l k v h : (n <= l)%nat -> keeps n h (setitem l k v h).
Proof.
  intros Hl. unfold setitem. split; [rewrite length_alter; lia |].
  intros l' Hl'. apply list_lookup_alter_ne. lia.
Qed.

Lemma dict_set_Forall {K V : Type} `{EqDecision K} (P : K * V -> Prop) k v d :
  Forall P d -> P (k, v) -> Forall P (dict_set k v d).
Proof.
  intros Hd Hv. induction Hd as [| [k' v'] d Hx Hd IH]; simpl.
  - constructor; [exact Hv | constructor].
  - destruct (decide (k = k')); constructor; assumption.
Qed.

Lemma dict_get_elem {K V : Type} `{EqDecision K} (k : K) (v : V) d :
  dict_get k d = Some v -> (k, v) ∈ d.
Proof.
  induction d as [| [k' v'] d IH]; simpl; [discriminate |].
  destruct (decide (k = k')) as [-> | _]; [intros [= ->]; left | intros H; right; auto].
Qed.

Lemma closed_setitem n l k v h :
  closed_above n h -> fresh_value n v -> closed_above n (setitem l k v h).
Proof.
  intros Hc Hv l' d Hl' Hd. unfold setitem in Hd.
  destruct (decide (l = l')) as [<- | Hne].
  - rewrite list_lookup_alter_eq in Hd. apply fmap_Some in Hd as (d0 & Hd0 & ->). apply dict_set_Forall; [eapply Hc; eassumption | exact Hv].
  - rewrite list_lookup_alter_ne in Hd by assumption. eapply Hc; eassumption.
Qed.

Lemma closed_alloc n h : closed_above n h -> closed_above n (h ++ [[]]).
Proof.
  intros Hc l d Hl Hd. apply lookup_app_Some in Hd as [Hd | [_ Hd]]; [eapply Hc; eassumption |].
  apply list_lookup_singleton_Some in Hd as [_ <-]. constructor.
Qed.

Lemma closed_getitem n h v k child :
  closed_above n h -> fresh_value n v -> getitem h v k = Found child -> fresh_value n child.
Proof.
  intros Hc Hv Hg. destruct v as [c | l]; [discriminate |]. simpl in *.
  destruct (h !! l) as [d |] eqn:Hd; [| discriminate].
  destruct (dict_get k d) as [v' |] eqn:Hk; [| discriminate]. injection Hg as <-.
  pose proof (Hc l d Hv Hd) as Hall. rewrite list.Forall_forall in Hall.
  apply (Hall (k, v')). eapply dict_get_elem. exact Hk.
Qed.

(** The copy: nothing that was in the store changes, and the copy and all
    it holds are new. *)
Lemma copy_items_spec (copy : pyval -> list pydict -> option (pyval * list pydict))
    (n y : nat) :
  (forall v h v' h', (n <= length h)%nat -> closed_above n h -> copy v h = Some (v', h') ->
                     keeps (length h) h h' /\ closed_above n h' /\ fresh_value n v') ->
  (n <= y)%nat ->
  forall its h h',
    (n <= length h)%nat -> closed_above n h ->
    copy_items copy y its h = Some h' ->
    keeps n h h' /\ closed_above n h'.
Proof.
  intros Hcopy Hy. induction its as [| [k child] its IH]; intros h h' Hn Hc H; simpl in H.
  - injection H as <-. split; [apply keeps_refl | exact Hc].
  - destruct (copy child h) as [[child' h1] |] eqn:Hchild; [| discriminate].
    destruct (Hcopy _ _ _ _ Hn Hc Hchild) as (K1 & C1 & F1).
    destruct (IH (setitem y k child' h1) h') as [K2 C2].
    + unfold setitem. rewrite length_alter. destruct K1. lia.
    + apply closed_setitem; assumption.
    + exact H.
    + split; [| exact C2].
      eapply keeps_trans; [eapply keeps_weaken; [| exact K1]; lia |].
      eapply keeps_trans; [apply keeps_setitem; exact Hy | exact K2].
Qed.

Lemma deepcopy_spec fuel : forall n v h v' h',
  (n <= length h)%nat -> closed_above n h ->
  deepcopy fuel v h = Some (v', h') ->
  keeps (length h) h h' /\ closed_above n h' /\ (fresh_value n v -> fresh_value n v')
  /\ (forall l, v = VRef l -> fresh_value (length h) v').
Proof.
  induction fuel as [| fuel IH]; intros n v h v' h' Hn Hc H.
  - destruct v as [c | l]; simpl in H; [| discriminate]. injection H as <- <-.
    split_and!; [apply keeps_refl | exact Hc | trivial | discriminate].
  - destruct v as [c | l]; simpl in H.
    { injection H as <- <-.
      split_and!; [apply keeps_refl | exact Hc | trivial | discriminate]. }
    destruct (h !! l) as [d |] eqn:Hd; [| discriminate].
    destruct (copy_items (deepcopy fuel) (length h) d (h ++ [[]])) as [h1 |] eqn:Hitems;
      [| discriminate].
    injection H as <- <-.
    assert (Hboth : forall m, (m <= length h)%nat -> closed_above m h ->
                              keeps m (h ++ [[]]) h1 /\ closed_above m h1).
    { intros m Hm Hcm.
      apply (copy_items_spec (deepcopy fuel) m (length h)) with (its := d); [| exact Hm | | |].
      - intros v0 h0 v0' h0' Hn0 Hc0 H0.
        destruct (IH m v0 h0 v0' h0' Hn0 Hc0 H0) as (K & C & F & Fnew).
        split_and!; [exact K | exact C |].
        destruct v0 as [c0 | l0]; [| ].
        + destruct fuel; simpl in H0; injection H0 as <- _; exact I.
        + specialize (Fnew l0 eq_refl). destruct v0'; simpl in *; [exact I | lia].
      - rewrite length_app. simpl. lia.
      - apply closed_alloc. exact Hcm.
      - exact Hitems. }
    split_and!.
    + destruct (Hboth (length h) ltac:(lia)) as [K _].
      { intros l0 d0 Hl0 Hd0. apply lookup_lt_Some in Hd0. exfalso.
        unfold pydict in *. lia. }
      eapply keeps_trans; [apply keeps_alloc | exact K].
    + apply (Hboth n Hn Hc).
    + intros _. simpl. exact Hn.
    + intros l0 _. simpl. lia.
Qed.

Lemma process_leaf_heap ee_roi collection nested_keys bands query mosaic_window
    date_start date_end c sub_keys s :
  same_heap (heap s)
    (process_leaf ee_roi collection nested_keys bands query mosaic_window
       date_start date_end c sub_keys s).
Proof.
  unfold process_leaf. destruct mosaic_window as [window |]; [| reflexivity].
  destruct (let* a := slash_path nested_keys in _) as [msg |]; [| reflexivity].
  destruct (utils.doMosaic _ _ _ _ _); reflexivity.
Qed.

(** The loop over the children of a new dict writes to that dict only. *)
Lemma process_children_spec (apply : pyval -> list key -> state -> outcome pyval)
    (n l : nat) (sub_keys : list key) :
  (forall v ks s, (n <= length (heap s))%nat -> closed_above n (heap s) -> fresh_value n v ->
     frames n (heap s) (apply v ks s) (fun v' h' => closed_above n h' /\ fresh_value n v')) ->
  (n <= l)%nat ->
  forall child_keys s,
    (n <= length (heap s))%nat -> closed_above n (heap s) ->
    frames n (heap s) (process_children apply l sub_keys child_keys s)
      (fun _ h' => closed_above n h').
Proof.
  intros Happly Hl. induction child_keys as [| k rest IH]; intros s Hn Hc;
    cbn [process_children].
  - split; [apply keeps_refl | exact Hc].
  - destruct (getitem (heap s) (VRef l) k) as [child | | |] eqn:Hget; cbn [frames]; trivial.
    + pose proof (closed_getitem n _ (VRef l) k child Hc Hl Hget) as Hchild.
      pose proof (Happly child (sub_keys ++ [k]) s Hn Hc Hchild) as Hstep.
      destruct (apply child (sub_keys ++ [k]) s) as [v s1 | e s1 |]; cbn [frames] in Hstep |- *;
        [| exact Hstep | exact I].
      destruct Hstep as (K1 & C1 & F1).
      specialize (IH (set_heap (setitem l k v (heap s1)) s1)). cbn [set_heap heap] in IH.
      assert (Hn1 : (n <= length (setitem l k v (heap s1)))%nat).
      { unfold setitem. rewrite length_alter. destruct K1. unfold pydict in *. lia. }
      specialize (IH Hn1 (closed_setitem _ _ _ _ _ C1 F1)).
      destruct (process_children apply l sub_keys rest _) as [[] s2 | e s2 |];
        cbn [frames] in IH |- *; [| | exact I].
      * destruct IH as [K2 C2]. split; [| exact C2].
        eapply keeps_trans; [exact K1 |].
        eapply keeps_trans; [apply keeps_setitem; exact Hl | exact K2].
      * eapply keeps_trans; [exact K1 |].
        eapply keeps_trans; [apply keeps_setitem; exact Hl | exact IH].
    + apply keeps_refl.
Qed.

Lemma apply_processing_spec ee_roi collection nested_keys bands query mosaic_window
    date_start date_end (n : nat) fuel : forall v ks s,
  (n <= length (heap s))%nat -> closed_above n (heap s) -> fresh_value n v ->
  frames n (heap s)
    (apply_processing ee_roi collection nested_keys bands query mosaic_window
       date_start date_end fuel v ks s)
    (fun v' h' => closed_above n h' /\ fresh_value n v').
Proof.
  induction fuel as [| fuel IH]; intros v ks s Hn Hc Hv.
  - destruct v as [c | l]; simpl; [| exact I].
    pose proof (process_leaf_heap ee_roi collection nested_keys bands query mosaic_window
                  date_start date_end c ks s) as Hleaf.
    destruct (process_leaf _ _ _ _ _ _ _ _ c ks s) as [c' s' | e s' |]; simpl in *;
      rewrite ?Hleaf; [split_and!; [apply keeps_refl | exact Hc | exact I]
                      | apply keeps_refl | exact I].
  - destruct v as [c | l]; simpl.
    + pose proof (process_leaf_heap ee_roi collection nested_keys bands query mosaic_window
                    date_start date_end c ks s) as Hleaf.
      destruct (process_leaf _ _ _ _ _ _ _ _ c ks s) as [c' s' | e s' |]; simpl in *;
        rewrite ?Hleaf; [split_and!; [apply keeps_refl | exact Hc | exact I]
                        | apply keeps_refl | exact I].
    + destruct (heap s !! l) as [d |] eqn:Hd; [| exact I].
      pose proof (process_children_spec _ n l ks IH Hv (keys d) s Hn Hc) as Hloop.
      destruct (process_children _ l ks (keys d) s) as [[] s' | e s' |]; simpl in *;
        [| exact Hloop | exact I].
      destruct Hloop as [K C]. split_and!; assumption.
Qed.

Lemma descend_spec (n : nat) season collection nested_keys : forall imgry s,
  closed_above n (heap s) -> fresh_value n imgry ->
  match descend season collection imgry nested_keys s with
  | Return v s' => heap s' = heap s /\ fresh_value n v
  | Raised _ s' => heap s' = heap s
  | Undefined => True
  end.
Proof.
  induction nested_keys as [| k rest IH]; intros imgry s Hc Hv; cbn [descend]; [auto |].
  destruct (getitem (heap s) imgry k) as [sub | | |] eqn:Hget; trivial.
  - apply IH; [exact Hc |]. eapply closed_getitem; eassumption.
  - specialize (IH imgry (warn ("Nested key " +:+ str_key k +:+ " not found in "
                                 +:+ str_key season +:+ ", " +:+ collection) s) Hc Hv).
    exact IH.
Qed.

Lemma handle_args_heap (self : Session pyval) season date_query s :
  same_heap (heap s) (_handle_season_and_date_query_args self season date_query s).
Proof.
  unfold _handle_season_and_date_query_args.
  repeat match goal with
         | |- context [if ?b then _ else _] => destruct b
         end; reflexivity.
Qed.

(** One call of [getImagery] keeps every dict that was in the store. *)
Lemma getImagery_keeps fuel (self : Session pyval) collection nested_keys bands season
    date_query mosaic_window s :
  match getImagery fuel self collection nested_keys bands season date_query mosaic_window s
  with
  | Return _ s' | Raised _ s' => keeps (length (heap s)) (heap s) (heap s')
  | Undefined => True
  end.
Proof.
  unfold getImagery.
  pose proof (handle_args_heap self season date_query s) as Hargs.
  destruct (_handle_season_and_date_query_args self season date_query s)
    as [[season' date_query'] s0 | e s0 |]; simpl in Hargs;
    [| rewrite Hargs; apply keeps_refl | exact I].
  rewrite <- Hargs. clear Hargs s.
  destruct (if truthy_dict date_query' then _ else _) as [[season1 query] | e];
    [| apply keeps_refl].
  destruct (getitem (heap s0) (imagery self) season1) as [by_season | | |];
    try (simpl; apply keeps_refl); [| exact I].
  destruct (getitem (heap s0) by_season (Some collection)) as [canonical | | |];
    try (simpl; apply keeps_refl); [| exact I].
  destruct (deepcopy fuel canonical (heap s0)) as [[imgry h] |] eqn:Hcopy; [| exact I].
  set (n := length (heap s0)).
  assert (Hc0 : closed_above n (heap s0)).
  { intros l d Hl Hd. apply lookup_lt_Some in Hd. exfalso. subst n. unfold pydict in *. lia. }
  destruct (deepcopy_spec fuel n canonical (heap s0) imgry h ltac:(subst n; lia) Hc0 Hcopy)
    as (K & C & _ & Fnew). fold n in K.
  assert (Hfresh : fresh_value n imgry).
  { destruct canonical as [c | l]; [| apply (Fnew l eq_refl)].
    destruct fuel; simpl in Hcopy; injection Hcopy as <- _; exact I. }
  pose proof (descend_spec n season1 collection nested_keys imgry (set_heap h s0) C Hfresh)
    as Hdesc.
  destruct (descend season1 collection imgry nested_keys (set_heap h s0))
    as [imgry' s1 | e s1 |]; cbn [set_heap heap] in Hdesc; [| rewrite Hdesc; exact K | exact I].
  destruct Hdesc as [Hh1 Hfresh'].
  assert (Hlen : (n <= length (heap s1))%nat).
  { rewrite Hh1. destruct K. subst n. unfold pydict in *. lia. }
  assert (Hgo : forall date_start date_end,
             match apply_processing (ee_roi self) collection nested_keys bands query
                     mosaic_window date_start date_end fuel imgry' [] s1 with
             | Return v s' => keeps n (heap s0) (heap s')
             | Raised _ s' => keeps n (heap s0) (heap s')
             | Undefined => True
             end).
  { intros ds de.
    pose proof (apply_processing_spec (ee_roi self) collection nested_keys bands query
                  mosaic_window ds de n fuel imgry' [] s1 Hlen
                  ltac:(rewrite Hh1; exact C) Hfresh') as Hap.
    destruct (apply_processing _ _ _ _ _ _ _ _ fuel imgry' [] s1) as [v s' | e s' |];
      simpl in Hap; [| | exact I].
    - destruct Hap as [K' _]. rewrite Hh1 in K'. eapply keeps_trans; eassumption.
    - rewrite Hh1 in Hap. eapply keeps_trans; eassumption. }
  assert (Hrest :
    match
      match
        match query with
        | Some (query_start, query_end) => Ok (query_start, query_end)
        | None =>
            match dict_get (default "" season1) (imagery_filters self) with
            | Some f => Ok (roi_configs.date_start f, roi_configs.date_end f)
            | None => Raise (KeyError (str_key season1))
            end
        end
      with
      | Raise e => Raised e s1
      | Ok (date_start, date_end) =>
          match apply_processing (ee_roi self) collection nested_keys bands query
                  mosaic_window date_start date_end fuel imgry' [] s1 with
          | Return v s => Return (Some v) s
          | Raised e s => Raised e s
          | Undefined => Undefined
          end
      end
    with
    | Return _ s' | Raised _ s' => keeps n (heap s0) (heap s')
    | Undefined => True
    end).
  { destruct (match query with Some _ => _ | None => _ end) as [[ds de] | e];
      [| rewrite Hh1; exact K].
    specialize (Hgo ds de).
    destruct (apply_processing _ _ _ _ _ _ _ _ fuel imgry' [] s1); exact Hgo. }
  destruct query as [[qs qe] |]; [exact Hrest |].
  destruct mosaic_window as [w |]; [exact Hrest |].
  destruct bands as [| b bs]; [rewrite Hh1; exact K | exact Hrest].
Qed.

Lemma keeps_lookup h h' l d :
  keeps (length h) h h' -> h !! l = Some d -> h' !! l = Some d.
Proof.
  intros [_ K] Hd. rewrite K; [exact Hd |]. apply lookup_lt_Some in Hd. exact Hd.
Qed.

(** A tree that can be read from the store can be read from every store
    that keeps its dicts. *)
Lemma load_kept h h' :
  (forall l d, h !! l = Some d -> h' !! l = Some d) ->
  forall fuel v t, load fuel h v = Some t -> load fuel h' v = Some t.
Proof.
  intros Hkept. induction fuel as [| fuel IH]; intros v t H.
  - destruct v; cbn [load] in *; [exact H | discriminate].
  - destruct v as [c | l]; cbn [load] in *; [exact H |].
    destruct (h !! l) as [d |] eqn:Hd; [| discriminate].
    pose proof (Hkept _ _ Hd) as Hd'. unfold loc, pydict in *. rewrite Hd'.
    assert (Hitems : forall its ts, load_items (load fuel h) its = Some ts ->
                                    load_items (load fuel h') its = Some ts).
    { induction its as [| [k v] its IHits]; intros ts Hts; cbn [load_items] in *;
        [exact Hts |].
      destruct (load fuel h v) as [t0 |] eqn:Ht0; [| discriminate].
      destruct (load_items (load fuel h) its) as [ts0 |] eqn:Hts0; [| discriminate].
      rewrite (IH _ _ Ht0), (IHits _ eq_refl). exact Hts. }
    destruct (load_items (load fuel h) d) as [ts |] eqn:Hts; [| discriminate].
    rewrite (Hitems _ _ Hts). exact H.
Qed.

(** C9. After any number of retrieval calls, with whatever operations,
    each returning or raising, every dict that was in the store before
    them is in the store unchanged; so the canonical tree built at
    construction reads as it did before the calls. *)
Theorem retrieval_keeps_canonical (fuel : nat) (self : Session pyval)
    (calls : list (string * list keyword)) (s s' : state) :
  run_calls fuel self calls s = Some s' ->
  (forall l d, heap s !! l = Some d -> heap s' !! l = Some d) /\
  (forall fuel' t,
     load fuel' (heap s) (imagery self) = Some t ->
     load fuel' (heap s') (imagery self) = Some t).
Proof.
  intros Hrun.
  assert (Hkept : forall l d, heap s !! l = Some d -> heap s' !! l = Some d).
  { revert s Hrun. induction calls as [| [collection kws] calls IH]; intros s Hrun l d Hd;
      simpl in Hrun.
    - injection Hrun as <-. exact Hd.
    - unfold call_getImagery in Hrun.
      pose proof (getImagery_keeps fuel self collection
                    (arg_nested_keys (fold_left bind_keyword kws defaults))
                    (arg_bands (fold_left bind_keyword kws defaults))
                    (arg_season (fold_left bind_keyword kws defaults))
                    (arg_date_query (fold_left bind_keyword kws defaults))
                    (arg_mosaic_window (fold_left bind_keyword kws defaults)) s) as Hcall.
      destruct (getImagery _ _ _ _ _ _ _ _ s) as [v s1 | e s1 |]; [| | discriminate];
        (apply (IH s1 Hrun); eapply keeps_lookup; eassumption). }
  split; [exact Hkept |]. intros fuel' t. apply load_kept. exact Hkept.
Qed.

End Frame.

(** The shipped region after a call that selects a band and a call that
    mosaics by day. *)
Lemma retrieval_keeps_canonical_witness :
  (forall l d, heap shipped_state !! l = Some d -> heap after_two_calls !! l = Some d) /\
  (forall fuel' t,
     load fuel' (heap shipped_state) (imagery shipped_self) = Some t ->
     load fuel' (heap after_two_calls) (imagery shipped_self) = Some t).
Proof.
  apply (retrieval_keeps_canonical 4 shipped_self two_calls shipped_state after_two_calls).
  vm_compute. reflexivity.
Defined.

(** The call that selects the band ['HH'] returns a tree whose leaves are
    the selections, in dicts of its own; the canonical tree still holds the
    collections without the selection. *)
Example processed_copy_is_separate :
  exists v s' t c,
    getImagery 4 shipped_self "S1" [] ["HH"] (Some "2022") [] None shipped_state
    = Return (Some v) s' /\
    load 4 (heap s') v = Some t /\
    subtree t [Some "EW"; Some "HH-HV"] = Some (Leaf (ee.IC_select c ["HH"])) /\
    (exists canonical,
       load 4 (heap s') (imagery shipped_self) = Some canonical /\
       load 4 (heap shipped_state) (imagery shipped_self) = Some canonical /\
       subtree canonical [Some "2022"; Some "S1"; Some "EW"; Some "HH-HV"] = Some (Leaf c)).
Proof.
  eexists _, _, _, _. split; [vm_compute; reflexivity |].
  split; [vm_compute; reflexivity |]. split; [vm_compute; reflexivity |].
  eexists. split; [vm_compute; reflexivity |]. split; vm_compute; reflexivity.
Qed.

(** ** The season and date arguments, continued *)

(** X1. [get_date_range_overlap] computes the intersection of the two
    ranges: when it returns a range, a date lies in it exactly when it lies
    in both arguments, and the range is not empty; it returns [None] exactly
    when no date lies in both; and the order of the two ranges does not
    matter. *)
Theorem date_range_overlap_is_intersection (a b c d : Z) :
  utils.get_date_range_overlap a b c d = utils.get_date_range_overlap c d a b /\
  match utils.get_date_range_overlap a b c d with
  | Some r =>
      utils.start r <= utils.end_ r /\
      forall t, utils.start r <= t <= utils.end_ r <-> (a <= t <= b /\ c <= t <= d)
  | None => forall t, ~ (a <= t <= b /\ c <= t <= d)
  end.
Proof.
  split.
  - unfold utils.get_date_range_overlap. rewrite (Z.max_comm a c), (Z.min_comm b d).
    reflexivity.
  - unfold utils.get_date_range_overlap.
    destruct (Z.gtb_spec (Z.max a c) (Z.min b d)); simpl.
    + intros t. lia.
    + split; [lia | intros t; lia].
Qed.

Ltac simp_season :=
  repeat first
    [ progress cbn [andb negb heap stdout warn]
    | progress change (truthy_season None) with false
    | match goal with H : truthy_season _ = _ |- _ => rewrite H end ].

(** X2. What [_handle_season_and_date_query_args] answers.  It never
    touches the store or the output.  When it returns, exactly one of the
    two arguments is left in use: the date query, unchanged, when it has
    both keys (a season given with it is dropped); otherwise the empty
    query and the season, which is then a configured one.  It raises, a
    [ValueError], exactly when the query lacks a key (or is empty) and the
    season is empty, [None] or not configured. *)
Theorem handle_args_outcome {I : Type} (self : Session I) (season : option string)
    (date_query : list (string * Z)) (s : state) :
  match _handle_season_and_date_query_args self season date_query s with
  | Return (season', date_query') s' =>
      heap s' = heap s /\ stdout s' = stdout s /\
      ((usable_query date_query /\ date_query' = date_query /\ truthy_season season' = false)
       \/ (~ usable_query date_query /\ date_query' = [] /\ season' = season
           /\ usable_season self season))
  | Raised e s' =>
      e = ValueError "Must specify valid season or date_query to getImagery" /\
      heap s' = heap s /\ stdout s' = stdout s /\
      ~ usable_query date_query /\ ~ usable_season self season
  | Undefined => False
  end.
Proof.
  unfold _handle_season_and_date_query_args, usable_query, usable_season.
  assert (Hsome : truthy_season season = true ->
                  exists szn, season = Some szn /\ szn <> "").
  { destruct season as [szn |]; [| discriminate]. cbn [truthy_season].
    rewrite negb_true_iff, bool_decide_eq_false. eauto. }
  assert (Hnone : truthy_season season = false ->
                  forall szn, season = Some szn -> szn = "").
  { intros H szn ->. cbn [truthy_season] in H.
    rewrite negb_false_iff, bool_decide_eq_true in H. exact H. }
  assert (Hcases : date_query = [] \/
                   exists kv rest, date_query = kv :: rest).
  { destruct date_query; eauto. }
  destruct Hcases as [-> | (kv & rest & Hdq)].
  - change (dict_has "start" (@nil (string * Z))) with false.
    cbn [andb negb truthy_dict].
    destruct (truthy_season season) eqn:Hseason; simp_season.
    + destruct (Hsome eq_refl) as (szn & -> & Hne). cbn [default from_option id].
      destruct (dict_has szn (imagery_filters self)) eqn:Hcfg;
        simp_season.
      * split_and!; [reflexivity | reflexivity |]. right.
        split_and!; [intros [H _]; discriminate H | reflexivity | reflexivity | eauto].
      * split_and!; [reflexivity | reflexivity | reflexivity
                    | intros [H _]; discriminate H |].
        intros (szn' & [= <-] & _ & H). congruence.
    + split_and!; [reflexivity | reflexivity | reflexivity | intros [H _]; discriminate H |].
      intros (szn & Hszn & Hne & _). apply Hne. eapply Hnone; eauto.
  - assert (Htruthy : truthy_dict date_query = true) by (rewrite Hdq; reflexivity).
    clear kv rest Hdq. rewrite Htruthy. cbn [andb].
    destruct (dict_has "start" date_query && dict_has "end" date_query) eqn:Hkeys;
      cbn [negb].
    + apply andb_prop in Hkeys as [Hst Hen]. rewrite Htruthy, Bool.andb_true_r.
      destruct (truthy_season season) eqn:Hseason; simp_season.
      * split_and!; [reflexivity | reflexivity |]. left. auto.
      * rewrite ?Bool.andb_false_r. cbn [heap stdout].
        split_and!; [reflexivity | reflexivity |]. left. auto.
    + assert (Hno : ~ (dict_has "start" date_query = true /\ dict_has "end" date_query = true)).
      { intros [H1 H2]. rewrite H1, H2 in Hkeys. discriminate. }
      cbn [truthy_dict andb negb]. rewrite Bool.andb_false_r.
      destruct (truthy_season season) eqn:Hseason; simp_season.
      * destruct (Hsome eq_refl) as (szn & -> & Hne). cbn [default from_option id].
        destruct (dict_has szn (imagery_filters self)) eqn:Hcfg;
          simp_season.
        -- split_and!; [reflexivity | reflexivity |]. right.
           split_and!; [exact Hno | reflexivity | reflexivity | eauto].
        -- split_and!; [reflexivity | reflexivity | reflexivity | exact Hno |].
           intros (szn' & [= <-] & _ & H). congruence.
      * split_and!; [reflexivity | reflexivity | reflexivity | exact Hno |].
        intros (szn & Hszn & Hne & _). apply Hne. eapply Hnone; eauto.
Qed.

(** ** The flattener, continued *)

Section FlattenerPaths.

Local Abbreviation flatten := utils.flatten_nested_imagery_filters.

Lemma separated_lookup ps :
  separated ps ->
  forall i j p q, ps !! i = Some p -> ps !! j = Some q -> i <> j -> ~ comparable p q.
Proof.
  induction 1 as [| p0 ps Hhead _ IH]; intros i j p q Hi Hj Hne; [discriminate Hi |].
  destruct i as [| i], j as [| j]; simpl in Hi, Hj.
  - congruence.
  - injection Hi as <-. apply Hhead. eapply list_elem_of_lookup_2. exact Hj.
  - injection Hj as <-. intros Hc. apply comparable_sym in Hc. revert Hc.
    apply Hhead. eapply list_elem_of_lookup_2. exact Hi.
  - eapply IH; eauto.
Qed.

(** X3. No path that the flattener returns is a prefix of another: two
    entries at different positions of the result have paths that differ at
    some position both have. *)
Theorem flatten_paths_incomparable (c : FilterConfig) (pre : list key) (d : Z)
    (es : list FlattenedEntry) :
  unique_keys c = true ->
  flatten c pre d = Ok es ->
  forall i j e1 e2,
    es !! i = Some e1 -> es !! j = Some e2 -> i <> j ->
    ~ nested_keys e1 `prefix_of` nested_keys e2.
Proof.
  intros Hu Hes i j e1 e2 Hi Hj Hne Hpre.
  pose proof (flatten_separated c pre d es Hu Hes) as Hsep.
  apply (separated_lookup _ Hsep i j (nested_keys e1) (nested_keys e2)).
  - rewrite list_lookup_fmap, Hi. reflexivity.
  - rewrite list_lookup_fmap, Hj. reflexivity.
  - exact Hne.
  - apply comparable_prefix. left. exact Hpre.
Qed.

Lemma collect_map_raises {A B : Type} (f : B -> result (list A)) (items : list B) x e0 :
  x ∈ items -> f x = Raise e0 ->
  exists x' e, x' ∈ items /\ f x' = Raise e /\ collect (List.map f items) = Raise e.
Proof.
  induction 1 as [x items | x y items Hin IH]; intros Hf; simpl.
  - rewrite Hf. exists x, e0. split_and!; [left | exact Hf | reflexivity].
  - destruct (f y) as [ys |] eqn:Hy; simpl.
    + destruct (IH Hf) as (x' & e & Hx' & Hfx' & ->).
      exists x', e. split_and!; [right; exact Hx' | exact Hfx' | reflexivity].
    + exists y, e. split_and!; [left | exact Hy | reflexivity].
Qed.

Lemma flatten_Raise_list c : forall pre d e,
  flatten c pre d = Raise e ->
  e = AttributeError "'list' object has no attribute 'items'"
  /\ exists p fs, reach c p (CList fs) /\ Z.of_nat (length p) < d.
Proof.
  induction c as [fs | items IH] using FilterConfig_induction; intros pre d e H.
  - cbn [utils.flatten_nested_imagery_filters] in H.
    destruct (Z.ltb_spec d 1) as [Hd | Hd]; [discriminate |]. injection H as <-.
    split; [reflexivity |]. exists [], fs. split; [constructor | simpl; lia].
  - destruct (dict_get "filters" items) as [fs |] eqn:Hf.
    { rewrite (flatten_leaf _ _ _ _ Hf) in H. discriminate. }
    destruct (Z.ltb_spec d 1) as [Hd | Hd].
    { rewrite (flatten_exhausted (CDict items)) in H by assumption. discriminate. }
    rewrite flatten_group in H by assumption.
    apply collect_map_Raise in H as ([k sub] & Hx & H). simpl in H.
    rewrite list.Forall_forall in IH.
    destruct (IH (k, sub) Hx _ _ _ H) as (-> & p & fs & Hr & Hlen).
    split; [reflexivity |]. exists (k :: p), fs.
    split; [econstructor; eassumption | simpl; lia].
Qed.


End FlattenerPaths.

(** The two paths of the Sentinel-1 configuration of the repository. *)
Lemma flatten_paths_incomparable_witness :
  (exists es, utils.flatten_nested_imagery_filters example_S1_filters [] 10 = Ok es
              /\ nested_keys <$> es = [[Some "EW"; Some "HH-HV"]; [Some "IW"; Some "VV"]])
  /\ ~ [Some "EW"; Some "HH-HV"] `prefix_of` [Some "IW"; Some "VV"].
Proof.
  split; [eexists; split; reflexivity |].
  exact (flatten_paths_incomparable example_S1_filters [] 10 _ eq_refl eq_refl
           0%nat 1%nat _ _ eq_refl eq_refl ltac:(discriminate)).
Defined.

(** ** Construction, from the check to the tree *)

Section Construction.

Variable hasattr : string -> bool.

Lemma dict_has_keys {K V : Type} `{EqDecision K} (k : K) (d : list (K * V)) :
  dict_has k d = true <-> k ∈ keys d.
Proof.
  unfold dict_has, keys. induction d as [| [k' v'] d IH]; simpl.
  - rewrite elem_of_nil. split; [discriminate | tauto].
  - rewrite elem_of_cons. destruct (decide (k = k')); [tauto |].
    rewrite IH. tauto.
Qed.

Lemma dict_get_keys {K V : Type} `{EqDecision K} (k : K) (d : list (K * V)) :
  k ∈ keys d -> exists v, dict_get k d = Some v.
Proof.
  intros H. apply dict_has_keys in H. unfold dict_has in H.
  destruct (dict_get k d); [eauto | discriminate].
Qed.

Lemma keys_dict_set {K V : Type} `{EqDecision K} (k : K) (v : V) (d : list (K * V)) :
  k ∈ keys d -> keys (dict_set k v d) = keys d.
Proof.
  unfold keys. induction d as [| [k' v'] d IH]; simpl; intros H; [inversion H |].
  destruct (decide (k = k')) as [-> | Hne]; simpl; [reflexivity |].
  apply elem_of_cons in H as [H | H]; [congruence |]. rewrite IH; auto.
Qed.

Lemma elem_of_dict_set {K V : Type} `{EqDecision K} (k : K) (v : V) (d : list (K * V)) x :
  x ∈ dict_set k v d -> x = (k, v) \/ x ∈ d.
Proof.
  induction d as [| [k' v'] d IH]; simpl.
  - rewrite list_elem_of_singleton. tauto.
  - destruct (decide (k = k')); rewrite !elem_of_cons; [tauto |].
    intros [-> | H]; [tauto |]. destruct (IH H); tauto.
Qed.

Lemma dict_set_same {K V : Type} `{EqDecision K} (k : K) (v : V) (d : list (K * V)) :
  dict_get k d = Some v -> dict_set k v d = d.
Proof.
  induction d as [| [k' v'] d IH]; simpl; [discriminate |].
  destruct (decide (k = k')) as [-> | Hne]; [intros [= ->]; reflexivity |].
  intros H. rewrite IH; auto.
Qed.

Lemma dict_get_map_keys {A V : Type} `{EqDecision A} (g : A -> V) (l : list A) k :
  k ∈ l -> dict_get k (List.map (fun x => (x, g x)) l) = Some (g k).
Proof.
  induction 1 as [k l | k y l _ IH]; simpl.
  - destruct (decide (k = k)); [reflexivity | congruence].
  - destruct (decide (k = y)) as [-> | _]; [reflexivity | exact IH].
Qed.

Lemma keys_map_keys {A V : Type} (g : A -> V) (l : list A) :
  keys (List.map (fun x => (x, g x)) l) = l.
Proof. unfold keys. rewrite List.map_map. simpl. apply List.map_id. Qed.

Lemma verify_flattened_lists coll_key es :
  verify_flattened hasattr coll_key es = Ok tt ->
  forall e, e ∈ es -> exists fs, iter_filters (filters e) = Ok fs.
Proof.
  induction es as [| e0 es IH]; simpl; intros H e He; [inversion He |].
  destruct (iter_filters (filters e0)) as [fs0 |] eqn:Hit; simpl in H; [| discriminate].
  destruct (assert_filter_types hasattr coll_key fs0) as [[] |]; simpl in H; [| discriminate].
  apply elem_of_cons in He as [-> | He]; eauto.
Qed.

Lemma flatten_season_checked ee_collections szn coll_cfg : forall flat flat',
  forallb (fun q : string * FilterConfig => unique_keys q.2) coll_cfg = true ->
  checked_flat ee_collections flat ->
  flatten_season hasattr ee_collections szn coll_cfg flat = Ok flat' ->
  checked_flat ee_collections flat'.
Proof.
  induction coll_cfg as [| [k0 c0] coll_cfg IH]; simpl; intros flat flat' Hu Hflat H.
  - injection H as <-. exact Hflat.
  - apply andb_prop in Hu as [Hu0 Hu].
    destruct (dict_has k0 ee_collections) eqn:Hk0; simpl in H; [| discriminate].
    destruct (utils.flatten_nested_imagery_filters c0 [] utils.default_max_depth)
      as [es0 |] eqn:Hfl; simpl in H; [| discriminate].
    destruct (verify_flattened hasattr k0 es0) as [[] |] eqn:Hv; simpl in H; [| discriminate].
    eapply IH; [exact Hu | | exact H].
    destruct Hflat as [Hkeys Hall]. split.
    + rewrite keys_dict_set; [exact Hkeys |]. rewrite Hkeys. apply dict_has_keys, Hk0.
    + intros k es Hin. apply elem_of_dict_set in Hin as [[= -> ->] | Hin]; [| eauto].
      split; [eapply flatten_separated; eassumption |].
      eapply verify_flattened_lists; eassumption.
Qed.

Lemma flatten_all_checked ee_collections (known : list string) seasons :
  forall flattened flattened',
  unique_config_keys seasons = true ->
  (forall szn, szn ∈ keys seasons -> szn ∈ known) ->
  (forall szn, szn ∈ known ->
     exists flat, dict_get szn flattened = Some flat /\ checked_flat ee_collections flat) ->
  flatten_all hasattr ee_collections seasons flattened = Ok flattened' ->
  forall szn, szn ∈ known ->
    exists flat, dict_get szn flattened' = Some flat /\ checked_flat ee_collections flat.
Proof.
  induction seasons as [| [s0 f0] seasons IH]; simpl;
    intros flattened flattened' Hu Hknown Hinv H.
  - injection H as <-. exact Hinv.
  - apply andb_prop in Hu as [Hu0 Hu]. apply andb_prop in Hu0 as [_ Hu0].
    destruct (Hinv s0 (Hknown s0 ltac:(left))) as (flat0 & Hflat0 & Hchecked0).
    rewrite Hflat0 in H. cbn [default from_option id] in H.
    destruct (flatten_season hasattr ee_collections s0 (roi_configs.collections f0) flat0)
      as [flat |] eqn:Hfs; simpl in H; [| discriminate].
    eapply IH; [exact Hu | intros szn Hszn; apply Hknown; right; exact Hszn | | exact H].
    intros szn Hszn. destruct (decide (s0 = szn)) as [<- | Hne].
    + rewrite dict_get_set_eq. exists flat. split; [reflexivity |].
      eapply flatten_season_checked; eassumption.
    + rewrite dict_get_set_ne by assumption. apply Hinv, Hszn.
Qed.

Lemma empty_flattened_checked ee_collections seasons szn :
  szn ∈ keys seasons ->
  exists flat,
    dict_get szn (empty_flattened ee_collections seasons) = Some flat /\
    checked_flat ee_collections flat.
Proof.
  intros Hszn. unfold empty_flattened. eexists. split.
  - apply (dict_get_map_keys
             (fun _ => List.map (fun coll_key => (coll_key, @nil FlattenedEntry))
                         (keys ee_collections))). exact Hszn.
  - split; [apply keys_map_keys |].
    intros k es Hin. apply list_elem_of_In, in_map_iff in Hin as (k' & [= <- <-] & _).
    split; [constructor | intros e He; inversion He].
Qed.

Lemma flatten_all_loadable (ee_collections : list (string * string))
    (seasons : list (string * roi_configs.Season))
    (flattened : list (string * list (string * list FlattenedEntry))) :
  NoDup (keys ee_collections) ->
  NoDup (keys seasons) ->
  unique_config_keys seasons = true ->
  flatten_all hasattr ee_collections seasons (empty_flattened ee_collections seasons)
  = Ok flattened ->
  loadable ee_collections seasons flattened.
Proof.
  intros Hcolls Hseasons Hu H. split; [exact Hseasons |]. intros szn Hszn.
  destruct (flatten_all_checked ee_collections (keys seasons) seasons _ _ Hu
              ltac:(auto) (empty_flattened_checked ee_collections seasons) H szn Hszn)
    as (flat & Hflat & Hkeys & Hall).
  exists flat. split_and!; [exact Hflat | rewrite Hkeys; exact Hcolls |].
  intros coll_key entries Hin. destruct (Hall _ _ Hin) as [Hsep Hlists].
  split_and!; [| exact Hsep | exact Hlists].
  apply dict_get_keys. rewrite <- Hkeys.
  apply list_elem_of_fmap. exists (coll_key, entries). split; [reflexivity | exact Hin].
Qed.


Lemma loadImagery_as_jobs ee_roi ee_collections imagery_filters flattened :
  loadable ee_collections imagery_filters flattened ->
  _loadImagery ee_roi ee_collections imagery_filters flattened
  = install_all (all_jobs ee_roi ee_collections imagery_filters flattened)
      (_reset_imagery ee_collections imagery_filters)
  /\ separated (job_path <$> all_jobs ee_roi ee_collections imagery_filters flattened)
  /\ forall j, j ∈ all_jobs ee_roi ee_collections imagery_filters flattened ->
                exists c, j.2 = Leaf c.
Proof.
  intros [Hnd Hload].
  assert (Hseason : forall szn f, (szn, f) ∈ imagery_filters -> szn ∈ keys imagery_filters).
  { intros szn f Hin. apply list_elem_of_fmap. exists (szn, f). split; [reflexivity | exact Hin]. }
  split_and!.
  - unfold _loadImagery. rewrite load_seasons_jobs; [reflexivity |].
    intros szn f Hin. destruct (Hload szn (Hseason _ _ Hin)) as (flat & Hflat & _ & Hcolls).
    exists flat. split; [exact Hflat |]. intros k es Hk.
    destruct (Hcolls k es Hk) as (Hname & _ & Hfs). auto.
  - unfold all_jobs. apply (separated_blocks _ [] (fun p => Some p.1)).
    + apply NoDup_Some_keys. exact Hnd.
    + intros [szn f] Hin.
      destruct (Hload szn (Hseason _ _ Hin)) as (flat & Hflat & Hndflat & Hcolls).
      unfold season_jobs. cbn [fst snd]. rewrite Hflat. cbn [default from_option id].
      apply (separated_blocks _ [Some szn] (fun p => Some p.1)).
      * apply NoDup_Some_keys. exact Hndflat.
      * intros [coll_key entries] Hk. destruct (Hcolls _ _ Hk) as (_ & Hsep & _).
        unfold collection_jobs. cbn [fst snd].
        apply (separated_fmap_app [Some szn; Some coll_key]) in Hsep.
        rewrite <- list_fmap_compose in Hsep.
        change (List.map ?f ?l) with (f <$> l). rewrite <- list_fmap_compose. exact Hsep.
      * intros [coll_key entries] j _ Hj. unfold collection_jobs in Hj.
        apply list_elem_of_fmap in Hj as (e & -> & _). eexists. reflexivity.
    + intros [szn f] j _ Hj. unfold season_jobs in Hj.
      apply elem_of_concat_map in Hj as ([coll_key entries] & _ & Hj).
      apply list_elem_of_fmap in Hj as (e & -> & _). eexists. reflexivity.
  - intros j Hj. unfold all_jobs in Hj.
    apply elem_of_concat_map in Hj as ([szn f] & _ & Hj).
    apply elem_of_concat_map in Hj as ([coll_key entries] & _ & Hj).
    apply list_elem_of_fmap in Hj as (e & -> & _). eexists. reflexivity.
Qed.

Lemma loadImagery_returns ee_roi ee_collections imagery_filters flattened :
  loadable ee_collections imagery_filters flattened ->
  exists imagery,
    _loadImagery ee_roi ee_collections imagery_filters flattened = Ok imagery /\
    forall j, j ∈ all_jobs ee_roi ee_collections imagery_filters flattened ->
              subtree imagery (job_path j) = Some j.2.
Proof.
  intros Hload. destruct (loadImagery_as_jobs ee_roi _ _ _ Hload) as (-> & Hsep & Hleaf).
  destruct (install_all_spec (all_jobs ee_roi ee_collections imagery_filters flattened)
              (_reset_imagery ee_collections imagery_filters) [])
    as (imagery & Himagery & Hlook & _ & _).
  - apply reset_no_leaves.
  - exact Hsep.
  - intros q j Hq. inversion Hq.
  - exact Hleaf.
  - exists imagery. split; [exact Himagery | exact Hlook].
Qed.


End Construction.



Section Placement.

Variable hasattr : string -> bool.

Lemma flatten_season_get ee_collections szn coll_cfg : forall flat flat',
  NoDup (keys coll_cfg) ->
  flatten_season hasattr ee_collections szn coll_cfg flat = Ok flat' ->
  (forall k c, (k, c) ∈ coll_cfg ->
     exists es,
       utils.flatten_nested_imagery_filters c [] utils.default_max_depth = Ok es /\
       dict_get k flat' = Some es)
  /\ forall k, k ∉ keys coll_cfg -> dict_get k flat' = dict_get k flat.
Proof.
  induction coll_cfg as [| [k0 c0] coll_cfg IH]; simpl; intros flat flat' Hnd H.
  - injection H as <-. split; [intros k c Hin; inversion Hin | reflexivity].
  - apply list.NoDup_cons in Hnd as [Hk0 Hnd].
    destruct (dict_has k0 ee_collections); simpl in H; [| discriminate].
    destruct (utils.flatten_nested_imagery_filters c0 [] utils.default_max_depth)
      as [es0 |] eqn:Hfl; simpl in H; [| discriminate].
    destruct (verify_flattened hasattr k0 es0) as [[] |]; simpl in H; [| discriminate].
    destruct (IH _ _ Hnd H) as [Hin Hout]. split.
    + intros k c Hkc. apply elem_of_cons in Hkc as [[= -> ->] | Hkc]; [| auto].
      exists es0. split; [exact Hfl |]. rewrite (Hout k0 Hk0). apply dict_get_set_eq.
    + intros k Hk. apply not_elem_of_cons in Hk as [Hne Hk].
      rewrite (Hout k Hk). apply dict_get_set_ne. congruence.
Qed.

Lemma flatten_all_get ee_collections seasons : forall flattened flattened',
  NoDup (keys seasons) ->
  unique_config_keys seasons = true ->
  flatten_all hasattr ee_collections seasons flattened = Ok flattened' ->
  (forall szn season k c,
     (szn, season) ∈ seasons -> (k, c) ∈ roi_configs.collections season ->
     exists flat es,
       dict_get szn flattened' = Some flat /\ dict_get k flat = Some es /\
       utils.flatten_nested_imagery_filters c [] utils.default_max_depth = Ok es)
  /\ forall szn, szn ∉ keys seasons -> dict_get szn flattened' = dict_get szn flattened.
Proof.
  induction seasons as [| [s0 f0] seasons IH]; simpl; intros flattened flattened' Hnd Hu H.
  - injection H as <-. split; [intros szn season k c Hin; inversion Hin | reflexivity].
  - apply list.NoDup_cons in Hnd as [Hs0 Hnd].
    apply andb_prop in Hu as [Hu0 Hu]. apply andb_prop in Hu0 as [Hnd0 _].
    apply bool_decide_eq_true in Hnd0.
    destruct (flatten_season hasattr ee_collections s0 (roi_configs.collections f0) _)
      as [flat |] eqn:Hfs; simpl in H; [| discriminate].
    destruct (IH _ _ Hnd Hu H) as [Hin Hout]. split.
    + intros szn season k c Hs Hkc. apply elem_of_cons in Hs as [[= -> ->] | Hs]; [| eauto].
      destruct (flatten_season_get _ _ _ _ _ Hnd0 Hfs) as [Hget _].
      destruct (Hget k c Hkc) as (es & Hes & Hk).
      exists flat, es. split_and!; [| exact Hk | exact Hes].
      rewrite (Hout s0 Hs0). apply dict_get_set_eq.
    + intros szn Hszn. apply not_elem_of_cons in Hszn as [Hne Hszn].
      rewrite (Hout szn Hszn). apply dict_get_set_ne. congruence.
Qed.

Lemma init_Ok_inv registry clock roi session :
  __init__ hasattr registry clock roi = Ok session ->
  exists coords,
    roi_configs.roi_coords (config session) = Some coords /\
    ee_roi session = coords /\
    ee_collections session = collections_of (config session) /\
    imagery_filters session = filters_of clock (config session) /\
    flatten_all hasattr (ee_collections session) (imagery_filters session)
      (empty_flattened (ee_collections session) (imagery_filters session))
    = Ok (_flattened_filters session) /\
    _loadImagery coords (ee_collections session) (imagery_filters session)
      (_flattened_filters session) = Ok (imagery session).
Proof.
  unfold __init__. destruct (dict_get (lower roi) registry) as [cfg |]; [| discriminate].
  destruct (roi_configs.roi_coords cfg) as [coords |] eqn:Hcoords; [| discriminate].
  cbn zeta. destruct (flatten_all hasattr _ _ _) as [flattened |] eqn:Hall; [| discriminate].
  cbn [bind]. destruct (_loadImagery _ _ _ _) as [imagery |] eqn:Himagery; [| discriminate].
  cbn [bind]. intros [= <-]. exists coords. cbn. auto 10.
Qed.


End Placement.


Section Defaults.

Variable hasattr : string -> bool.

Lemma flatten_season_defaults ee_collections szn ks : forall flat,
  (forall k, k ∈ ks -> dict_has k ee_collections = true /\ dict_get k flat = Some []) ->
  flatten_season hasattr ee_collections szn (List.map (fun k => (k, CDict [])) ks) flat
  = Ok flat.
Proof.
  induction ks as [| k ks IH]; intros flat H; [reflexivity |].
  destruct (H k ltac:(left)) as [Hhas Hget].
  cbn [List.map flatten_season]. rewrite Hhas. cbn [negb].
  change (utils.flatten_nested_imagery_filters (CDict []) [] utils.default_max_depth)
    with (Ok (@nil FlattenedEntry)).
  cbn [bind verify_flattened]. rewrite (dict_set_same _ _ _ Hget).
  apply IH. intros k' Hk'. apply H. right. exact Hk'.
Qed.

Lemma load_collections_empty ee_roi ee_collections szn date_start date_end ks : forall t,
  (forall k, k ∈ ks -> k ∈ keys ee_collections) ->
  load_collections ee_roi ee_collections szn date_start date_end
    (List.map (fun k => (k, @nil FlattenedEntry)) ks) t = Ok t.
Proof.
  induction ks as [| k ks IH]; intros t H; [reflexivity |].
  destruct (dict_get_keys k ee_collections (H k ltac:(left))) as [name Hname].
  cbn [List.map load_collections]. rewrite Hname. cbn [load_entries bind].
  apply IH. intros k' Hk'. apply H. right. exact Hk'.
Qed.

(** X8. The default filters load no imagery.  For a region that gives its
    coordinates and no ['imagery_filters'], construction returns an object
    with one season, named by the current year, whose tree is the one
    [_reset_imagery] makes: an empty dict per collection, and no
    collection anywhere. *)
Theorem default_filters_load_nothing (registry : list (string * roi_configs.RoiConfig))
    (clock : Clock) (roi : string) (config : roi_configs.RoiConfig) (coords : ee.Geometry) :
  dict_get (lower roi) registry = Some config ->
  roi_configs.roi_coords config = Some coords ->
  roi_configs.imagery_filters config = None ->
  exists session,
    __init__ hasattr registry clock roi = Ok session /\
    keys (imagery_filters session) = [now_year clock] /\
    imagery session
    = Node [(Some (now_year clock),
             Node (List.map (fun coll_key => (Some coll_key, Node []))
                     (keys (ee_collections session))))] /\
    forall q c, subtree (imagery session) q <> Some (Leaf c).
Proof.
  intros Hreg Hcoords Hnone. unfold __init__. rewrite Hreg, Hcoords. cbn zeta.
  unfold filters_of. rewrite Hnone. cbn [default from_option id].
  set (colls := collections_of config).
  set (season := {| roi_configs.date_start := ee.advance (now clock) (-2) "week";
                    roi_configs.date_end := now clock;
                    roi_configs.collections :=
                      List.map (fun coll_key => (coll_key, CDict [])) (keys colls) |}).
  set (flat0 := List.map (fun coll_key => (coll_key, @nil FlattenedEntry)) (keys colls)).
  assert (Hflat0 : forall k, k ∈ keys colls ->
                     dict_has k colls = true /\ dict_get k flat0 = Some []).
  { intros k Hk. split; [apply dict_has_keys, Hk |].
    apply (dict_get_map_keys (fun _ => @nil FlattenedEntry)). exact Hk. }
  assert (Hempty : empty_flattened colls [(now_year clock, season)]
                   = [(now_year clock, flat0)]) by reflexivity.
  rewrite Hempty. cbn [flatten_all dict_get].
  destruct (decide (now_year clock = now_year clock)) as [_ | Hne]; [| congruence].
  cbn [default from_option id roi_configs.collections season].
  rewrite (flatten_season_defaults colls (now_year clock) (keys colls) flat0 Hflat0).
  cbn [bind dict_set].
  destruct (decide (now_year clock = now_year clock)) as [_ | Hne]; [| congruence].
  unfold _loadImagery. cbn [load_seasons dict_get].
  destruct (decide (now_year clock = now_year clock)) as [_ | Hne]; [| congruence].
  unfold flat0. rewrite load_collections_empty by auto. cbn [bind].
  eexists. split; [reflexivity |]. cbn [imagery imagery_filters ee_collections].
  split_and!; [reflexivity | reflexivity |].
  intros q c Hq.
  pose proof (reset_no_leaves colls [(now_year clock, season)] q c Hq) as Hin.
  inversion Hin.
Qed.

End Defaults.

(** A region with coordinates only, constructed on 2024-01-01. *)
Lemma default_filters_load_nothing_witness :
  exists session,
    __init__ hasattr_Filter bare_registry a_clock "bare" = Ok session /\
    keys (imagery_filters session) = ["2024"] /\
    imagery session
    = Node [(Some "2024",
             Node (List.map (fun coll_key => (Some coll_key, Node []))
                     (keys (ee_collections session))))] /\
    forall q c, subtree (imagery session) q <> Some (Leaf c).
Proof.
  exact (default_filters_load_nothing hasattr_Filter bare_registry a_clock "bare"
           region_without_filters _ eq_refl eq_refl eq_refl).
Defined.

(** ** Mosaicking, continued *)

Section MosaicOrder.

Variables (collection : list ee.Image) (roi : ee.Geometry) (w : string).

Lemma doMosaic_images_Ok startDate endDate ms :
  utils.doMosaic_images collection startDate endDate roi w = Ok ms ->
  w ∈ utils.supported_mosaic_windows /\
  ms = omap (window_mosaic collection roi w) (utils.hourly_datetime_list startDate endDate w).
Proof.
  unfold utils.doMosaic_images, utils.genMosaickingFunction, utils.check_mosaic_window.
  destruct (bool_decide (w ∈ utils.supported_mosaic_windows)) eqn:Hw; [| discriminate].
  apply bool_decide_eq_true in Hw. cbn [bind]. rewrite iterate_mosaicCollection.
  intros [= <-]. split; [exact Hw | reflexivity].
Qed.

Lemma window_mosaic_time t m :
  window_mosaic collection roi w t = Some m ->
  t <= ee.system_time_start m < t + ee.unit_millis w.
Proof.
  intros H. apply window_mosaic_Some in H as ((first & _ & Hw & Ht & _) & _).
  unfold in_window in Hw. lia.
Qed.

Lemma window_starts startDate endDate t :
  t ∈ utils.hourly_datetime_list startDate endDate w <->
  exists i, 0 <= i <= (endDate - startDate) / ee.unit_millis w
            /\ t = startDate + i * ee.unit_millis w.
Proof.
  unfold utils.hourly_datetime_list, ee.sequence_to_difference, ee.advance.
  rewrite list_elem_of_In, in_map_iff. split.
  - intros (i & <- & Hi). apply in_map_iff in Hi as (n & <- & Hn). apply in_seq in Hn.
    exists (Z.of_nat n). split; [lia | reflexivity].
  - intros (i & Hi & ->). exists i. split; [reflexivity |].
    apply in_map_iff. exists (Z.to_nat i). split; [lia |]. apply in_seq. lia.
Qed.

Lemma window_starts_sorted startDate endDate :
  0 < ee.unit_millis w ->
  StronglySorted (fun t t' => t + ee.unit_millis w <= t')
    (utils.hourly_datetime_list startDate endDate w).
Proof.
  intros Hu. unfold utils.hourly_datetime_list, ee.sequence_to_difference, ee.advance.
  generalize (Z.to_nat ((endDate - startDate) / ee.unit_millis w + 1)). intros n.
  generalize 0%nat. induction n as [| n IH]; intros a; simpl; constructor; [apply IH |].
  apply list.Forall_forall. intros t Ht.
  apply list_elem_of_In, in_map_iff in Ht as (i & <- & Hi).
  apply in_map_iff in Hi as (j & <- & Hj). apply in_seq in Hj. nia.
Qed.

Lemma window_mosaics_sorted starts :
  StronglySorted (fun t t' => t + ee.unit_millis w <= t') starts ->
  StronglySorted time_lt (omap (window_mosaic collection roi w) starts).
Proof.
  induction 1 as [| t starts _ IH Hall]; simpl; [constructor |].
  destruct (window_mosaic collection roi w t) as [m |] eqn:Hm; [| exact IH].
  constructor; [exact IH |]. apply list.Forall_forall. intros m' Hm'.
  apply list_elem_of_omap in Hm' as (t' & Ht' & Hm').
  rewrite list.Forall_forall in Hall. specialize (Hall t' Ht').
  apply window_mosaic_time in Hm, Hm'. unfold time_lt. lia.
Qed.

(** X9. The mosaics come out in ascending order of time, and no two of
    them carry the same time: each is tagged with the time of an image of
    its own window, and the windows follow one another. *)
Theorem mosaics_ascending (startDate endDate : Z) (ms : list ee.Image) :
  utils.doMosaic_images collection startDate endDate roi w = Ok ms ->
  StronglySorted time_lt ms.
Proof.
  intros H. apply doMosaic_images_Ok in H as [Hw ->].
  apply window_mosaics_sorted, window_starts_sorted, unit_millis_pos, Hw.
Qed.

(** X10. Mosaicking neither loses nor invents imagery.  Every image of the
    collection taken between [startDate] and [endDate] lies in exactly one
    window, that window has a composite in the result, and the composite
    holds the tiles of the image; and every tile of every composite comes
    from an image of the collection taken at or after [startDate] and
    before the end of the window that holds [endDate]. *)
Theorem mosaics_cover_range (startDate endDate : Z) (ms : list ee.Image) :
  utils.doMosaic_images collection startDate endDate roi w = Ok ms ->
  startDate <= endDate ->
  let u := ee.unit_millis w in
  (forall img,
     img ∈ collection ->
     startDate <= ee.system_time_start img <= endDate ->
     exists t m,
       t ∈ utils.hourly_datetime_list startDate endDate w /\
       in_window u t img /\
       (forall t', t' ∈ utils.hourly_datetime_list startDate endDate w ->
                   in_window u t' img -> t' = t) /\
       window_mosaic collection roi w t = Some m /\
       m ∈ ms /\
       forall tile, tile ∈ ee.tiles img -> tile ∈ ee.tiles m)
  /\ forall m tile,
       m ∈ ms -> tile ∈ ee.tiles m ->
       exists img,
         img ∈ collection /\ tile ∈ ee.tiles img /\
         startDate <= ee.system_time_start img
         < startDate + ((endDate - startDate) / u + 1) * u.
Proof.
  intros H Hle u. apply doMosaic_images_Ok in H as [Hw ->].
  pose proof (unit_millis_pos w Hw) as Hu. fold u in Hu. split.
  - intros img Himg Htime.
    set (i := (ee.system_time_start img - startDate) / u).
    assert (Hi : 0 <= i <= (endDate - startDate) / u).
    { subst i. split; [apply Z.div_pos; lia | apply Z.div_le_mono; lia]. }
    assert (Hwin : in_window u (startDate + i * u) img).
    { unfold in_window. subst i.
      pose proof (Z.mul_div_le (ee.system_time_start img - startDate) u Hu).
      pose proof (Z.mul_succ_div_gt (ee.system_time_start img - startDate) u Hu). lia. }
    destruct (window_mosaic collection roi w (startDate + i * u)) as [m |] eqn:Hm.
    + exists (startDate + i * u), m. split_and!.
      * apply window_starts. exists i. split; [exact Hi | reflexivity].
      * exact Hwin.
      * intros t' Ht' Hwin'. apply window_starts in Ht' as (j & _ & ->).
        change (ee.unit_millis w) with u in Hwin'. unfold in_window in Hwin, Hwin'.
        assert (Hji : j = i) by (clearbody i u; nia). rewrite Hji. reflexivity.
      * exact Hm.
      * apply list_elem_of_omap. exists (startDate + i * u). split; [| exact Hm].
        apply window_starts. exists i. split; [exact Hi | reflexivity].
      * intros tile Htile. apply window_mosaic_Some in Hm as (_ & _ & Htiles).
        apply Htiles. exists img. split_and!; assumption.
    + exfalso. apply (proj1 (window_mosaic_None _ _ _ _) Hm img Himg). exact Hwin.
  - intros m tile Hm Htile. apply list_elem_of_omap in Hm as (t & Ht & Hm).
    apply window_starts in Ht as (i & Hi & ->). fold u in Hi.
    apply window_mosaic_Some in Hm as (_ & _ & Htiles).
    apply Htiles in Htile as (img & Himg & Hwin & Htile).
    change (ee.unit_millis w) with u in Hwin |- *. unfold in_window in Hwin.
    exists img. split_and!; [exact Himg | exact Htile | |]; clearbody u; nia.
Qed.

End MosaicOrder.

(** Two images, the later one first in the collection, mosaicked by the
    hour from 0:00 to 2:00. *)
Lemma mosaics_ascending_witness :
  exists ms,
    utils.doMosaic_images two_images 0 7200000 [] "hour" = Ok ms /\
    ee.system_time_start <$> ms = [1800000; 6300000] /\
    StronglySorted time_lt ms.
Proof.
  eexists. split; [vm_compute; reflexivity |]. split; [reflexivity |].
  apply (mosaics_ascending two_images [] "hour" 0 7200000). vm_compute. reflexivity.
Defined.

Lemma mosaics_cover_range_witness :
  exists ms,
    utils.doMosaic_images two_images 0 7200000 [] "hour" = Ok ms /\
    (forall img,
       img ∈ two_images ->
       0 <= ee.system_time_start img <= 7200000 ->
       exists t m,
         t ∈ utils.hourly_datetime_list 0 7200000 "hour" /\
         in_window (ee.unit_millis "hour") t img /\
         (forall t', t' ∈ utils.hourly_datetime_list 0 7200000 "hour" ->
                     in_window (ee.unit_millis "hour") t' img -> t' = t) /\
         window_mosaic two_images [] "hour" t = Some m /\
         m ∈ ms /\
         forall tile, tile ∈ ee.tiles img -> tile ∈ ee.tiles m)
    /\ forall m tile,
         m ∈ ms -> tile ∈ ee.tiles m ->
         exists img,
           img ∈ two_images /\ tile ∈ ee.tiles img /\
           0 <= ee.system_time_start img
           < 0 + ((7200000 - 0) / ee.unit_millis "hour" + 1) * ee.unit_millis "hour".
Proof.
  eexists. split; [vm_compute; reflexivity |].
  apply (mosaics_cover_range two_images [] "hour" 0 7200000);
    [vm_compute; reflexivity | lia].
Defined.

(** ** The copy that retrieval works on *)

Section Copy.

Lemma load_items_impl (load1 load2 : pyval -> option tree) its : forall ts,
  (forall k v t, (k, v) ∈ its -> load1 v = Some t -> load2 v = Some t) ->
  load_items load1 its = Some ts -> load_items load2 its = Some ts.
Proof.
  induction its as [| [k v] its IH]; intros ts H Hts; cbn [load_items] in *; [exact Hts |].
  destruct (load1 v) as [t0 |] eqn:Ht0; [| discriminate].
  destruct (load_items load1 its) as [ts0 |] eqn:Hts0; [| discriminate].
  rewrite (H k v t0 ltac:(left) Ht0).
  rewrite (IH ts0 ltac:(intros k' v' t Hkv; apply (H k'); right; exact Hkv) eq_refl).
  exact Hts.
Qed.

Lemma load_items_app (ld : pyval -> option tree) its1 its2 ts1 ts2 :
  load_items ld its1 = Some ts1 -> load_items ld its2 = Some ts2 ->
  load_items ld (its1 ++ its2) = Some (ts1 ++ ts2).
Proof.
  revert ts1. induction its1 as [| [k v] its1 IH]; intros ts1 H1 H2;
    cbn [load_items app] in *.
  - injection H1 as <-. exact H2.
  - destruct (ld v) as [t0 |]; [| discriminate].
    destruct (load_items ld its1) as [ts0 |]; [| discriminate].
    injection H1 as <-. rewrite (IH ts0 eq_refl H2). reflexivity.
Qed.

Lemma load_items_keys (ld : pyval -> option tree) its : forall ts,
  load_items ld its = Some ts -> keys ts = keys its.
Proof.
  induction its as [| [k v] its IH]; intros ts H; cbn [load_items] in H.
  - injection H as <-. reflexivity.
  - destruct (ld v) as [t0 |]; [| discriminate].
    destruct (load_items ld its) as [ts0 |]; [| discriminate].
    injection H as <-. simpl. rewrite (IH ts0 eq_refl). reflexivity.
Qed.

Lemma load_items_get (ld : pyval -> option tree) its k : forall ts sub,
  load_items ld its = Some ts -> dict_get k ts = Some sub ->
  exists v, dict_get k its = Some v /\ ld v = Some sub.
Proof.
  induction its as [| [k0 v0] its IH]; intros ts sub H Hk; cbn [load_items] in H.
  - injection H as <-. discriminate Hk.
  - destruct (ld v0) as [t0 |] eqn:Ht0; [| discriminate].
    destruct (load_items ld its) as [ts0 |]; [| discriminate].
    injection H as <-. simpl in Hk |- *.
    destruct (decide (k = k0)); [injection Hk as <-; eauto | eapply IH; eauto].
Qed.

(** More fuel reads the same tree. *)
Lemma load_mono h fuel : forall v t, load fuel h v = Some t -> load (S fuel) h v = Some t.
Proof.
  induction fuel as [| fuel IH]; intros v t H.
  - destruct v; cbn [load] in *; [exact H | discriminate].
  - destruct v as [c | l]; [exact H |].
    cbn [load] in H. change (load (S (S fuel)) h (VRef l))
      with (match h !! l with
            | None => None
            | Some d => option_map Node (load_items (load (S fuel) h) d)
            end).
    destruct (h !! l) as [d |]; [| discriminate].
    destruct (load_items (load fuel h) d) as [ts |] eqn:Hts; [| discriminate].
    rewrite (load_items_impl (load fuel h) (load (S fuel) h) d ts); [exact H | | exact Hts].
    intros k v t0 _. apply IH.
Qed.

(** Reading from a new value looks at new dicts only. *)
Lemma load_above n h h' :
  closed_above n h ->
  (forall l, (n <= l)%nat -> h' !! l = h !! l) ->
  forall fuel v, fresh_value n v -> load fuel h' v = load fuel h v.
Proof.
  intros Hc Hsame. induction fuel as [| fuel IH]; intros v Hv.
  - destruct v; reflexivity.
  - destruct v as [c | l]; [reflexivity |]. cbn [load]. simpl in Hv.
    unfold loc, pydict in *. rewrite (Hsame l Hv). destruct (h !! l) as [d |] eqn:Hd; [| reflexivity].
    pose proof (Hc l d Hv Hd) as Hall. f_equal. clear Hd.
    induction Hall as [| [k v] d Hkv _ IHd]; [reflexivity |]. cbn [load_items].
    rewrite (IH v Hkv), IHd. reflexivity.
Qed.

Lemma dict_set_new {K V : Type} `{EqDecision K} (k : K) (v : V) (d : list (K * V)) :
  k ∉ keys d -> dict_set k v d = d ++ [(k, v)].
Proof.
  induction d as [| [k' v'] d IH]; simpl; intros H; [reflexivity |].
  apply not_elem_of_cons in H as [Hne H]. destruct (decide (k = k')); [congruence |].
  rewrite IH by assumption. reflexivity.
Qed.

Lemma deepcopy_collection fuel c h v' h' :
  deepcopy fuel (VColl c) h = Some (v', h') -> v' = VColl c /\ h' = h.
Proof. destruct fuel; simpl; intros [= <- <-]; auto. Qed.

Lemma keeps_all h h' :
  keeps (length h) h h' -> forall l d, h !! l = Some d -> h' !! l = Some d.
Proof. intros K l d. apply keeps_lookup. exact K. Qed.

(** The loop of the copy, with the dict [done] filled so far. *)
Lemma copy_items_loads fuel (h : list pydict) :
  (forall v h0 t, load fuel h0 v = Some t -> unique_tree_keys t = true ->
     exists v' h1, deepcopy fuel v h0 = Some (v', h1) /\ load fuel h1 v' = Some t) ->
  forall its ts done ts_done h_cur,
    load_items (load fuel h) its = Some ts ->
    forallb (fun p => unique_tree_keys p.2) ts = true ->
    NoDup (keys its) ->
    (forall k, k ∈ keys its -> k ∉ keys done) ->
    (length h < length h_cur)%nat ->
    keeps (length h) h h_cur ->
    closed_above (S (length h)) h_cur ->
    h_cur !! length h = Some done ->
    Forall (fun kv => fresh_value (S (length h)) kv.2) done ->
    load_items (load fuel h_cur) done = Some ts_done ->
    exists h' d',
      copy_items (deepcopy fuel) (length h) its h_cur = Some h' /\
      h' !! length h = Some d' /\
      load_items (load fuel h') d' = Some (ts_done ++ ts) /\
      keeps (length h) h h'.
Proof.
  intros Hcopy. induction its as [| [k child] its IH];
    intros ts done ts_done h_cur Hts Hu Hnd Hnew Hlen K C Hy Hfresh Hdone.
  - cbn [load_items] in Hts. injection Hts as <-. exists h_cur, done.
    rewrite app_nil_r. cbn [copy_items]. auto.
  - cbn [load_items] in Hts.
    destruct (load fuel h child) as [t0 |] eqn:Ht0; [| discriminate].
    destruct (load_items (load fuel h) its) as [ts0 |] eqn:Hts0; [| discriminate].
    injection Hts as <-. cbn [forallb snd] in Hu. apply andb_prop in Hu as [Hu0 Hu].
    simpl in Hnd. apply list.NoDup_cons in Hnd as [Hk Hnd].
    pose proof (load_kept h h_cur (keeps_all _ _ K) fuel child t0 Ht0) as Ht0'.
    destruct (Hcopy child h_cur t0 Ht0' Hu0) as (child' & h1 & Hchild & Hload1).
    destruct (deepcopy_spec fuel (S (length h)) child h_cur child' h1 ltac:(lia) C Hchild)
      as (K1 & C1 & _ & Fnew).
    assert (Hfresh' : fresh_value (S (length h)) child').
    { destruct child as [c | l0].
      - apply deepcopy_collection in Hchild as [-> _]. exact I.
      - specialize (Fnew l0 eq_refl). destruct child'; simpl in *; [exact I | lia]. }
    set (h2 := setitem (length h) k child' h1).
    assert (Hsame : forall l, (S (length h) <= l)%nat -> h2 !! l = h1 !! l).
    { intros l Hl. unfold h2, setitem. apply list_lookup_alter_ne. lia. }
    assert (Hy1 : h1 !! length h = Some done).
    { destruct K1 as [_ K1]. rewrite K1 by exact Hlen. exact Hy. }
    assert (Hk' : k ∉ keys done) by (apply Hnew; left).
    assert (Hy2 : h2 !! length h = Some (done ++ [(k, child')])).
    { unfold h2, setitem. rewrite list_lookup_alter_eq.
      unfold loc, pydict in *. rewrite Hy1. cbn [fmap option_fmap option_map].
      rewrite dict_set_new by exact Hk'. reflexivity. }
    cbn [copy_items]. rewrite Hchild. fold h2.
    destruct (IH ts0 (done ++ [(k, child')]) (ts_done ++ [(k, t0)]) h2)
      as (h' & d' & Hloop & Hy' & Hload' & K').
    + reflexivity.
    + exact Hu.
    + exact Hnd.
    + intros k' Hk'its. unfold keys. rewrite map_app. intros Hin.
      apply elem_of_app in Hin as [Hin | Hin].
      * revert Hin. apply Hnew. right. exact Hk'its.
      * apply list_elem_of_singleton in Hin. simpl in Hin. subst k'. contradiction.
    + unfold h2, setitem. rewrite length_alter. destruct K1 as [L1 _].
      unfold pydict in *. lia.
    + eapply keeps_trans; [exact K |].
      eapply keeps_trans; [eapply keeps_weaken; [| exact K1]; lia |].
      apply keeps_setitem. lia.
    + apply closed_setitem; assumption.
    + exact Hy2.
    + apply Forall_app. split; [exact Hfresh |]. constructor; [exact Hfresh' | constructor].
    + apply load_items_app.
      * apply (load_items_impl (load fuel h_cur) (load fuel h2) done _); [| exact Hdone].
        intros k' v t Hin Hv. rewrite (load_above _ h1 h2 C1 Hsame).
        -- apply (load_kept h_cur h1 (keeps_all _ _ K1)). exact Hv.
        -- rewrite list.Forall_forall in Hfresh. apply (Hfresh (k', v) Hin).
      * cbn [load_items]. rewrite (load_above _ h1 h2 C1 Hsame _ _ Hfresh'), Hload1.
        reflexivity.
    + exists h', d'. split_and!; [exact Hloop | exact Hy' | | exact K'].
      rewrite Hload', <- app_assoc. reflexivity.
Qed.

(** A tree that can be read from the store can be copied, and the copy
    reads as the same tree. *)
Lemma deepcopy_loads fuel : forall v h t,
  load fuel h v = Some t -> unique_tree_keys t = true ->
  exists v' h', deepcopy fuel v h = Some (v', h') /\ load fuel h' v' = Some t.
Proof.
  induction fuel as [| fuel IH]; intros v h t Ht Hu.
  - destruct v as [c | l]; [| discriminate]. exists (VColl c), h. auto.
  - destruct v as [c | l]; [exists (VColl c), h; auto |].
    cbn [load] in Ht. cbn [deepcopy].
    destruct (h !! l) as [d |] eqn:Hd; [| discriminate].
    destruct (load_items (load fuel h) d) as [ts |] eqn:Hts; [| discriminate].
    injection Ht as <-. cbn [unique_tree_keys] in Hu. apply andb_prop in Hu as [Hnd Hu].
    apply bool_decide_eq_true in Hnd. rewrite (load_items_keys _ _ _ Hts) in Hnd.
    destruct (copy_items_loads fuel h IH d ts [] [] (h ++ [[]]))
      as (h' & d' & Hloop & Hy & Hload & _); try assumption.
    + intros k _ Hin. inversion Hin.
    + rewrite length_app. simpl. lia.
    + apply keeps_alloc.
    + intros l0 d0 Hl0 Hd0. apply lookup_lt_Some in Hd0. rewrite length_app in Hd0.
      simpl in Hd0. exfalso. unfold pydict in *. lia.
    + apply list_lookup_middle. reflexivity.
    + constructor.
    + reflexivity.
    + unfold pydict in *. rewrite Hloop. exists (VRef (length h)), h'.
      split; [reflexivity |]. cbn [load]. unfold loc, pydict in *. rewrite Hy, Hload.
      reflexivity.
Qed.

(** X11. [copy.deepcopy] of a tree of dicts with pairwise different keys
    returns, with the fuel that reads the tree; the copy reads as the same
    tree; every dict that was in the store is in it unchanged; and the
    copy of a dict is a dict that was not in the store before. *)
Theorem deepcopy_reads_same (fuel : nat) (v : pyval) (h : list pydict) (t : tree) :
  load fuel h v = Some t ->
  unique_tree_keys t = true ->
  exists v' h',
    deepcopy fuel v h = Some (v', h') /\
    load fuel h' v' = Some t /\
    (forall l d, h !! l = Some d -> h' !! l = Some d) /\
    (forall l, v = VRef l -> exists l', v' = VRef l' /\ h !! l' = None).
Proof.
  intros Ht Hu. destruct (deepcopy_loads fuel v h t Ht Hu) as (v' & h' & Hcopy & Hload).
  exists v', h'. split_and!; [exact Hcopy | exact Hload | |].
  - assert (Hc : closed_above (length h) h).
    { intros l d Hl Hd. apply lookup_lt_Some in Hd. exfalso. unfold pydict in *. lia. }
    destruct (deepcopy_spec fuel (length h) v h v' h' ltac:(lia) Hc Hcopy) as (K & _).
    apply keeps_all. exact K.
  - intros l ->. destruct fuel as [| fuel]; [discriminate Hcopy |].
    cbn [deepcopy] in Hcopy. destruct (h !! l); [| discriminate].
    destruct (copy_items _ _ _ _); [| discriminate]. injection Hcopy as <- _.
    exists (length h). split; [reflexivity |]. apply lookup_ge_None. lia.
Qed.

End Copy.

(** The dict [{'IW': {'VV': collection}}]. *)
Lemma deepcopy_reads_same_witness :
  exists v' h',
    deepcopy 2 (VRef 1%nat) small_store = Some (v', h') /\
    load 2 h' v' = Some small_tree /\
    (forall l d, small_store !! l = Some d -> h' !! l = Some d) /\
    (forall l, VRef 1%nat = VRef l -> exists l', v' = VRef l' /\ small_store !! l' = None).
Proof.
  exact (deepcopy_reads_same 2 (VRef 1%nat) small_store small_tree eq_refl eq_refl).
Defined.

Section PlainRetrieval.

Lemma descend_subtree season collection fuel : forall ks v t_c t s,
  load fuel (heap s) v = Some t_c ->
  subtree t_c ks = Some t ->
  exists v',
    descend season collection v ks s = Return v' s /\
    load fuel (heap s) v' = Some t.
Proof.
  induction ks as [| k rest IH]; intros v t_c t s Hload Hsub.
  - injection Hsub as <-. exists v. auto.
  - cbn [subtree] in Hsub. destruct t_c as [c | ch]; [discriminate |].
    destruct (dict_get k ch) as [sub |] eqn:Hk; [| discriminate].
    destruct v as [c | l]; [destruct fuel; discriminate Hload |].
    destruct fuel as [| fuel]; [discriminate Hload |]. cbn [load] in Hload.
    destruct (heap s !! l) as [d |] eqn:Hd; [| discriminate].
    destruct (load_items (load fuel (heap s)) d) as [ts |] eqn:Hts; [| discriminate].
    injection Hload as <-.
    destruct (load_items_get _ _ _ _ _ Hts Hk) as (v_sub & Hv & Hload_sub).
    cbn [descend getitem]. unfold loc, pydict in *. rewrite Hd, Hv.
    apply (IH v_sub sub t s); [| exact Hsub]. apply load_mono. exact Hload_sub.
Qed.

(** X12. A retrieval call that names a configured season and asks for no
    date range, no bands and no mosaic returns a copy of the requested
    subtree: what it returns reads as the subtree of the canonical tree at
    the nested keys; it is a collection or a dict that was not in the
    store before; nothing is warned about or printed; and every dict that
    was in the store is in it unchanged. *)
Theorem plain_retrieval_returns_copy (fuel : nat) (self : Session pyval)
    (collection : string) (nested_keys : list key) (szn : string) (s : state)
    (by_season canonical : pyval) (t_c t : tree) :
  szn <> "" ->
  dict_has szn (imagery_filters self) = true ->
  getitem (heap s) (imagery self) (Some szn) = Found by_season ->
  getitem (heap s) by_season (Some collection) = Found canonical ->
  load fuel (heap s) canonical = Some t_c ->
  unique_tree_keys t_c = true ->
  subtree t_c nested_keys = Some t ->
  exists v s',
    getImagery fuel self collection nested_keys [] (Some szn) [] None s
    = Return (Some v) s' /\
    load fuel (heap s') v = Some t /\
    (forall l, canonical = VRef l -> fresh_value (length (heap s)) v) /\
    warnings s' = warnings s /\ stdout s' = stdout s /\
    forall l d, heap s !! l = Some d -> heap s' !! l = Some d.
Proof.
  intros Hne Hcfg Hseason Hcoll Hload Hu Hsub.
  destruct (deepcopy_loads fuel canonical (heap s) t_c Hload Hu)
    as (imgry & h & Hcopy & Hload').
  assert (Hc : closed_above (length (heap s)) (heap s)).
  { intros l d Hl Hd. apply lookup_lt_Some in Hd. exfalso. unfold pydict in *. lia. }
  destruct (deepcopy_spec fuel (length (heap s)) canonical (heap s) imgry h ltac:(lia)
              Hc Hcopy) as (K & C & _ & Fnew).
  destruct (descend_subtree (Some szn) collection fuel nested_keys imgry t_c t
              (set_heap h s) Hload' Hsub) as (v & Hdesc & Hv).
  exists v, (set_heap h s).
  assert (Hargs : _handle_season_and_date_query_args self (Some szn) [] s
                  = Return (Some szn, []) s).
  { unfold _handle_season_and_date_query_args.
    repeat (cbn [truthy_dict truthy_season andb negb default from_option id];
            rewrite ?(bool_decide_eq_false_2 _ Hne), ?Hcfg).
    reflexivity. }
  split_and!.
  - unfold getImagery. rewrite Hargs. cbn [truthy_dict]. rewrite Hseason, Hcoll, Hcopy, Hdesc.
    reflexivity.
  - exact Hv.
  - intros l ->. specialize (Fnew l eq_refl).
    pose proof (descend_spec (length (heap s)) (Some szn) collection nested_keys imgry
                  (set_heap h s) C Fnew) as Hd.
    rewrite Hdesc in Hd. apply Hd.
  - reflexivity.
  - reflexivity.
  - apply keeps_all. exact K.
Qed.

End PlainRetrieval.

(** [getImagery('S1', nested_keys=['IW'], season='2022')] on the store of
    four dicts. *)
Lemma plain_retrieval_returns_copy_witness :
  exists v s',
    getImagery 2 small_self "S1" [Some "IW"] [] (Some "2022") [] None small_state
    = Return (Some v) s' /\
    load 2 (heap s') v = Some (Node [(Some "VV", Leaf (ee.IC_source "COPERNICUS/S1_GRD"))]) /\
    (forall l, VRef 1%nat = VRef l -> fresh_value (length (heap small_state)) v) /\
    warnings s' = warnings small_state /\ stdout s' = stdout small_state /\
    forall l d, heap small_state !! l = Some d -> heap s' !! l = Some d.
Proof.
  apply (plain_retrieval_returns_copy 2 small_self "S1" [Some "IW"] "2022" small_state
           (VRef 2%nat) (VRef 1%nat) small_tree
           (Node [(Some "VV", Leaf (ee.IC_source "COPERNICUS/S1_GRD"))]));
    [discriminate | reflexivity | reflexivity | reflexivity | reflexivity | reflexivity
    | reflexivity].
Defined.

(** ** The export path *)

Section Confirmation.

Import utils_export.

Lemma user_confirms_loop_invalid default choice :
  (default = None \/ choice <> "") ->
  dict_get choice valid_responses = None ->
  forall fuel s, user_confirms_loop fuel default choice s = Undefined.
Proof.
  intros Hdefault Hinvalid. induction fuel as [| fuel IH]; intros s; [reflexivity |].
  cbn [user_confirms_loop]. rewrite Hinvalid.
  destruct default as [answer |], (decide (choice = "")) as [Heq | Hne];
    try apply IH.
  destruct Hdefault as [Hnone | Hne]; [discriminate | contradiction].
Qed.

(** X13. [user_confirms] answers in the first pass of its loop or never.
    It prints the question with its prompt; an empty line gives the
    default when there is one; otherwise one of yes, y, ye, no, n, in any
    mix of upper and lower case, gives its answer; and on every other line
    the function neither returns nor raises, however many passes it is
    given, since it does not read again. *)
Theorem user_confirms_answers_or_never (fuel : nat) (question : string)
    (default : option bool) (input_line : string) (s : state) :
  let prompt := match default with
                | Some true => "[Y/n]"
                | Some false => "[y/N]"
                | None => "[y/n]"
                end in
  let asked := print (question +:+ " " +:+ prompt) s in
  user_confirms (S fuel) question default input_line s
  = match default, lower input_line with
    | Some answer, "" => Return answer asked
    | _, choice =>
        match dict_get choice valid_responses with
        | Some answer => Return answer asked
        | None => Undefined
        end
    end.
Proof.
  intros prompt asked. unfold user_confirms. fold prompt. fold asked.
  cbn [user_confirms_loop].
  destruct default as [answer |], (decide (lower input_line = "")) as [Heq | Hne].
  - rewrite Heq. reflexivity.
  - destruct (lower input_line) as [| c rest] eqn:Hchoice; [contradiction |].
    destruct (dict_get (String c rest) valid_responses) eqn:Hvalid; [reflexivity |].
    apply user_confirms_loop_invalid; [right; discriminate | exact Hvalid].
  - rewrite Heq. cbn [dict_get valid_responses].
    apply user_confirms_loop_invalid; [left; reflexivity | reflexivity].
  - destruct (dict_get (lower input_line) valid_responses) eqn:Hvalid.
    + destruct (lower input_line); reflexivity.
    + rewrite user_confirms_loop_invalid by (auto || exact Hvalid).
      destruct (lower input_line); reflexivity.
Qed.

End Confirmation.

(** The answers [YES] and the empty line, and the line [maybe]. *)
Example user_confirms_examples :
  (exists s', utils_export.user_confirms 1 "> Do you wish to continue?" (Some true) "YES"
                empty_state = Return true s'
              /\ stdout s' = ["> Do you wish to continue? [Y/n]"])
  /\ (exists s', utils_export.user_confirms 1 "> Do you wish to continue?" (Some true) ""
                   empty_state = Return true s')
  /\ utils_export.user_confirms 1000 "> Do you wish to continue?" (Some true) "maybe"
       empty_state = Undefined.
Proof.
  split_and!; [eexists; split; reflexivity | eexists; reflexivity | vm_compute; reflexivity].
Qed.

Section Basename.

Import utils_export.

Lemma append_assoc (a b c : string) : (a +:+ b) +:+ c = a +:+ (b +:+ c).
Proof.
  induction a as [| x a IH]; [reflexivity |].
  change (String x ((a +:+ b) +:+ c) = String x (a +:+ (b +:+ c))). rewrite IH. reflexivity.
Qed.

Lemma join_two sep (a b : string) (ks : list key) :
  join sep (Some (a +:+ sep +:+ b) :: ks) = join sep (Some a :: Some b :: ks).
Proof.
  destruct ks as [| k' rest]; [reflexivity |].
  change (join sep (Some (a +:+ sep +:+ b) :: k' :: rest))
    with (let* tail := join sep (k' :: rest) in Ok ((a +:+ sep +:+ b) +:+ sep +:+ tail)).
  change (join sep (Some a :: Some b :: k' :: rest))
    with (let* tail := (let* tail' := join sep (k' :: rest) in Ok (b +:+ sep +:+ tail')) in
          Ok (a +:+ sep +:+ tail)).
  destruct (join sep (k' :: rest)) as [tail |]; [| reflexivity].
  cbn [bind]. rewrite !append_assoc. reflexivity.
Qed.


End Basename.

(** The keys of the docstring of [exportImagery] and their reading by the
    export script. *)
Example genImageBasename_example :
  utils_export.genImageBasename "S1" [Some "EW"; Some "HH_HV"] (Some 40)
  = Ok "S1_EW_HH_HV_40m"
  /\ utils_export.genImageBasename "S1" [Some "EW"; Some "HH"; Some "HV"] (Some 40)
     = Ok "S1_EW_HH_HV_40m".
Proof. split; reflexivity. Qed.

Section ExportParams.

Lemma dict_get_del_eq {K V : Type} `{EqDecision K} (k : K) (d : list (K * V)) :
  dict_get k (dict_del k d) = None.
Proof.
  unfold dict_del. induction d as [| [k' v'] d IH]; simpl; [reflexivity |].
  destruct (decide (k' = k)) as [-> | Hne].
  - rewrite bool_decide_eq_true_2 by reflexivity. exact IH.
  - rewrite bool_decide_eq_false_2 by exact Hne. simpl.
    destruct (decide (k = k')); [congruence | exact IH].
Qed.

Lemma dict_get_del_ne {K V : Type} `{EqDecision K} (k k' : K) (d : list (K * V)) :
  k <> k' -> dict_get k' (dict_del k d) = dict_get k' d.
Proof.
  intros Hne. unfold dict_del. induction d as [| [k0 v0] d IH]; simpl; [reflexivity |].
  destruct (decide (k0 = k)) as [-> | Hne0].
  - rewrite bool_decide_eq_true_2 by reflexivity. simpl.
    destruct (decide (k' = k)); [congruence | exact IH].
  - rewrite bool_decide_eq_false_2 by exact Hne0. simpl.
    destruct (decide (k' = k0)); [reflexivity | exact IH].
Qed.

Lemma dict_get_del_if_in k k' (d : list (string * param)) :
  dict_get k' (del_if_in k d) = if decide (k' = k) then None else dict_get k' d.
Proof.
  unfold del_if_in, dict_has. destruct (dict_get k d) eqn:Hk.
  - destruct (decide (k' = k)) as [-> | Hne];
      [apply dict_get_del_eq | apply dict_get_del_ne; congruence].
  - destruct (decide (k' = k)) as [-> | Hne]; [exact Hk | reflexivity].
Qed.

Lemma geom_args_cases k :
  k ∈ geom_args -> k = "scale" \/ k = "crsTransform" \/ k = "dimensions".
Proof.
  unfold geom_args. rewrite !elem_of_cons, elem_of_nil. tauto.
Qed.

Lemma not_geom_args k :
  k ∉ geom_args -> k <> "scale" /\ k <> "crsTransform" /\ k <> "dimensions".
Proof.
  unfold geom_args. rewrite !not_elem_of_cons. tauto.
Qed.

(** The first part: what is kept of the three. *)
Lemma check_geom_args_spec (export_params : list (string * param)) (s : state) :
  match preferred_geometry export_params with
  | None =>
      check_geom_args export_params s
      = (export_params,
         Raised (ValueError
                   "One of scale, crsTransform, dimensions is required in export_params") s)
  | Some g =>
      exists p' s',
        check_geom_args export_params s = (p', Return tt s') /\
        heap s' = heap s /\ stdout s' = stdout s /\
        (length (List.filter (fun k => dict_has k export_params) geom_args) = 1%nat ->
         s' = s) /\
        g ∈ geom_args /\
        (forall k, k ∈ geom_args ->
           dict_get k p' = if decide (k = g) then dict_get k export_params else None) /\
        (forall k, k ∉ geom_args -> dict_get k p' = dict_get k export_params) /\
        exists v, dict_get g export_params = Some v
  end.
Proof.
  unfold preferred_geometry, check_geom_args, geom_args. cbn [List.map].
  assert (Hhas : forall k, dict_has k export_params
                           = match dict_get k export_params with
                             | Some _ => true
                             | None => false
                             end) by reflexivity.
  rewrite !Hhas. clear Hhas.
  destruct (dict_get "dimensions" export_params) as [vd |] eqn:Hd;
    destruct (dict_get "crsTransform" export_params) as [vc |] eqn:Hc;
    destruct (dict_get "scale" export_params) as [vs |] eqn:Hs;
    cbn [existsb id orb negb List.filter length Nat.ltb Nat.leb]; try reflexivity.
  all: eexists _, _; split; [reflexivity |].
  all: split; [reflexivity |]; split; [reflexivity |].
  all: split;
    [ unfold dict_has; rewrite ?Hd, ?Hc, ?Hs; cbn [List.filter length];
      first [ reflexivity | discriminate ] |].
  all: split; [apply (bool_decide_unpack _); vm_compute; exact I |].
  all: split; [| split; [| eauto]].
  all: try (intros k Hk; apply geom_args_cases in Hk as [-> | [-> | ->]];
            rewrite ?dict_get_del_if_in, ?Hd, ?Hc, ?Hs; reflexivity).
  all: intros k Hk; apply not_geom_args in Hk as (H1 & H2 & H3);
    rewrite ?dict_get_del_if_in;
    repeat match goal with
           | |- context [decide (k = ?x)] => destruct (decide (k = x)); [congruence |]
           end; reflexivity.
Qed.

Lemma default_crs_spec {Imagery : Type} (self : Session Imagery) (export_params : list (string * param)) k :
  dict_get k (default_crs self export_params)
  = if decide (k = "crs")
    then Some (default (PStr (default "EPSG:4326" (roi_configs.crs (config self))))
                 (dict_get "crs" export_params))
    else dict_get k export_params.
Proof.
  unfold default_crs, dict_has. destruct (dict_get "crs" export_params) as [v |] eqn:Hcrs.
  - destruct (decide (k = "crs")) as [-> | _]; [exact Hcrs | reflexivity].
  - destruct (decide (k = "crs")) as [-> | Hne]; [apply dict_get_set_eq |].
    apply dict_get_set_ne. congruence.
Qed.

Lemma default_folder_spec {Imagery : Type} (self : Session Imagery) collection ks season date_query
    (export_params : list (string * param)) s :
  match default_folder self collection ks season date_query export_params s with
  | (p', Return _ s') =>
      s' = s /\ dict_has "folder" p' = true /\
      (forall k, k <> "folder" -> dict_get k p' = dict_get k export_params) /\
      (dict_has "folder" export_params = true -> p' = export_params)
  | (p', Raised e s') =>
      p' = export_params /\ s' = s /\ dict_has "folder" export_params = false /\
      ((exists msg, e = TypeError msg) \/ (exists k, e = KeyError k) \/
       e = ValueError ("date_query did not match date range for any seasons configured for "
                       +:+ roi_name self +:+ "."))
  | (_, Undefined) => False
  end.
Proof.
  unfold default_folder. destruct (dict_has "folder" export_params) eqn:Hfolder.
  { split_and!; auto. }
  assert (Hparse : forall e, _parse_date_query self date_query = Raise e ->
            (exists msg, e = TypeError msg) \/ (exists k, e = KeyError k) \/
            e = ValueError
                  ("date_query did not match date range for any seasons configured for "
                   +:+ roi_name self +:+ ".")).
  { unfold _parse_date_query. intros e.
    destruct (dict_get "start" date_query); [| intros [= <-]; eauto].
    destruct (dict_get "end" date_query); [| intros [= <-]; eauto].
    destruct (match_season _ _ _) as [[szn ov] |]; [discriminate | intros [= <-]; auto]. }
  assert (Hjoin : forall e, join "_" ks = Raise e -> exists msg, e = TypeError msg).
  { clear. induction ks as [| [k |] rest IH]; intros e; [discriminate | | intros [= <-]; eauto].
    destruct rest as [| k' rest']; [discriminate |].
    change (join "_" (Some k :: k' :: rest'))
      with (let* tail := join "_" (k' :: rest') in Ok (k +:+ "_" +:+ tail)).
    destruct (join "_" (k' :: rest')) as [tail |]; [discriminate |].
    intros [= <-]. apply IH. reflexivity. }
  destruct (if truthy_dict date_query then _ else _) as [szn_name | e] eqn:Hszn.
  - destruct (join "_" ks) as [joined | e] eqn:Hj.
    + split_and!; [reflexivity | | | discriminate].
      * unfold dict_has. rewrite dict_get_set_eq. reflexivity.
      * intros k Hk. apply dict_get_set_ne. congruence.
    + split_and!; [reflexivity | reflexivity | reflexivity |].
      left. apply Hjoin. reflexivity.
  - split_and!; [reflexivity | reflexivity | reflexivity |]. apply Hparse.
    destruct (truthy_dict date_query); [| discriminate].
    destruct (_parse_date_query self date_query); [discriminate |].
    cbn [bind] in Hszn. injection Hszn as <-. reflexivity.
Qed.

(** What holds of the dict when lines 292-322 are left by return. *)
Lemma export_params_returned_facts {Imagery : Type} (self : Session Imagery) collection ks season
    date_query (export_params p' : list (string * param)) s s' :
  exportImagery_params self collection ks season date_query export_params s
  = (p', Return tt s') ->
  exists g,
    preferred_geometry export_params = Some g /\
    g ∈ geom_args /\
    (exists v, dict_get g export_params = Some v) /\
    (forall k, k ∈ geom_args ->
       dict_get k p' = if decide (k = g) then dict_get k export_params else None) /\
    dict_get "crs" p'
    = Some (default (PStr (default "EPSG:4326" (roi_configs.crs (config self))))
              (dict_get "crs" export_params)) /\
    dict_has "folder" p' = true /\
    (forall v, dict_get "folder" export_params = Some v -> dict_get "folder" p' = Some v) /\
    (forall k, k ∉ geom_args -> k <> "crs" -> k <> "folder" ->
               dict_get k p' = dict_get k export_params) /\
    heap s' = heap s /\ stdout s' = stdout s.
Proof.
  unfold exportImagery_params. intros H.
  pose proof (check_geom_args_spec export_params s) as Hcheck.
  destruct (preferred_geometry export_params) as [g |].
  2:{ rewrite Hcheck in H. discriminate. }
  destruct Hcheck as (p1 & s1 & Hcheck & Hheap & Hout & _ & Hg & Hgeom & Hother & Hv).
  rewrite Hcheck in H.
  pose proof (default_folder_spec self collection ks season date_query
                (default_crs self p1) s1) as Hfolder.
  rewrite H in Hfolder. destruct Hfolder as (-> & Hhas & Hrest & Hkept).
  assert (Hcrs_no : "crs" ∉ geom_args) by (apply (bool_decide_unpack _); vm_compute; exact I).
  assert (Hfolder_no : "folder" ∉ geom_args)
    by (apply (bool_decide_unpack _); vm_compute; exact I).
  exists g. split_and!; try assumption; try reflexivity.
  - intros k Hk. rewrite Hrest by (intros ->; contradiction).
    rewrite default_crs_spec. destruct (decide (k = "crs")) as [-> | _]; [contradiction |].
    apply Hgeom, Hk.
  - rewrite Hrest by discriminate. rewrite default_crs_spec. cbn [decide].
    destruct (decide ("crs" = "crs")) as [_ | Hne]; [| congruence].
    rewrite (Hother "crs" Hcrs_no). reflexivity.
  - intros v Hv'. rewrite Hkept.
    + rewrite default_crs_spec. destruct (decide ("folder" = "crs")); [discriminate |].
      rewrite (Hother "folder" Hfolder_no). exact Hv'.
    + unfold dict_has. rewrite default_crs_spec.
      destruct (decide ("folder" = "crs")); [discriminate |].
      rewrite (Hother "folder" Hfolder_no), Hv'. reflexivity.
  - intros k Hk Hk1 Hk2. rewrite Hrest by exact Hk2. rewrite default_crs_spec.
    destruct (decide (k = "crs")); [contradiction |]. apply Hother, Hk.
Qed.

Lemma preferred_geometry_None (export_params : list (string * param)) :
  preferred_geometry export_params = None <->
  forall k, k ∈ geom_args -> dict_has k export_params = false.
Proof.
  unfold preferred_geometry. split.
  - destruct (dict_has "dimensions" export_params) eqn:Hd; [discriminate |].
    destruct (dict_has "crsTransform" export_params) eqn:Hc; [discriminate |].
    destruct (dict_has "scale" export_params) eqn:Hs; [discriminate |].
    intros _ k Hk. apply geom_args_cases in Hk as [-> | [-> | ->]]; assumption.
  - intros H.
    rewrite (H "dimensions"), (H "crsTransform"), (H "scale");
      [reflexivity | | |]; apply (bool_decide_unpack _); vm_compute; exact I.
Qed.

(** X15. [exportImagery] asks for one of scale, crsTransform and
    dimensions before anything else: it raises the [ValueError] that says
    so, leaving the caller's dict and the state as they were, exactly when
    the dict has none of the three keys. *)
Theorem export_requires_geometry {Imagery : Type} (self : Session Imagery)
    (collection : string) (ks : list key) (season : option string)
    (date_query : list (string * Z)) (export_params : list (string * param)) (s : state) :
  (forall k, k ∈ geom_args -> dict_has k export_params = false) <->
  exportImagery_params self collection ks season date_query export_params s
  = (export_params,
     Raised (ValueError "One of scale, crsTransform, dimensions is required in export_params")
       s).
Proof.
  rewrite <- preferred_geometry_None. unfold exportImagery_params.
  pose proof (check_geom_args_spec export_params s) as Hcheck.
  destruct (preferred_geometry export_params) as [g |]; split; try discriminate.
  - destruct Hcheck as (p1 & s1 & -> & _). intros H. exfalso.
    pose proof (default_folder_spec self collection ks season date_query
                  (default_crs self p1) s1) as Hfolder.
    rewrite H in Hfolder. destruct Hfolder as (_ & _ & _ & [[msg He] | [[k He] | He]]);
      discriminate He.
  - intros _. rewrite Hcheck. reflexivity.
  - intros _. reflexivity.
Qed.

(** X16. When lines 292-322 of [exportImagery] are left by return, the
    caller's dict holds exactly one of the three geometry keys, the one
    preferred (dimensions before crsTransform before scale), with the value
    the caller gave; it holds a ['crs'], the caller's or else the region's
    or else EPSG:4326; it holds a ['folder'], the caller's if there was
    one; every other key is as it was; and the store and the output are
    untouched. *)
Theorem export_params_returned {Imagery : Type} (self : Session Imagery)
    (collection : string) (ks : list key) (season : option string)
    (date_query : list (string * Z)) (export_params p' : list (string * param))
    (s s' : state) :
  exportImagery_params self collection ks season date_query export_params s
  = (p', Return tt s') ->
  exists g,
    preferred_geometry export_params = Some g /\
    g ∈ geom_args /\
    (exists v, dict_get g export_params = Some v) /\
    (forall k, k ∈ geom_args ->
       dict_get k p' = if decide (k = g) then dict_get k export_params else None) /\
    dict_get "crs" p'
    = Some (default (PStr (default "EPSG:4326" (roi_configs.crs (config self))))
              (dict_get "crs" export_params)) /\
    dict_has "folder" p' = true /\
    (forall v, dict_get "folder" export_params = Some v -> dict_get "folder" p' = Some v) /\
    (forall k, k ∉ geom_args -> k <> "crs" -> k <> "folder" ->
               dict_get k p' = dict_get k export_params) /\
    heap s' = heap s /\ stdout s' = stdout s.
Proof. apply export_params_returned_facts. Qed.

Lemma check_geom_args_single (p' : list (string * param)) g s :
  g ∈ geom_args ->
  (exists v, dict_get g p' = Some v) ->
  (forall k, k ∈ geom_args -> k <> g -> dict_get k p' = None) ->
  check_geom_args p' s = (p', Return tt s).
Proof.
  intros Hg [v Hv] Hnone. unfold check_geom_args, geom_args. cbn [List.map].
  assert (Hhas : forall k, dict_has k p'
                           = match dict_get k p' with
                             | Some _ => true
                             | None => false
                             end) by reflexivity.
  rewrite !Hhas. clear Hhas.
  apply geom_args_cases in Hg as [-> | [-> | ->]]; rewrite Hv.
  - rewrite (Hnone "crsTransform"), (Hnone "dimensions");
      [reflexivity | | | |]; first [discriminate | apply (bool_decide_unpack _); vm_compute; exact I].
  - rewrite (Hnone "scale"), (Hnone "dimensions");
      [reflexivity | | | |]; first [discriminate | apply (bool_decide_unpack _); vm_compute; exact I].
  - rewrite (Hnone "scale"), (Hnone "crsTransform");
      [reflexivity | | | |]; first [discriminate | apply (bool_decide_unpack _); vm_compute; exact I].
Qed.

(** X17. The dict that an export leaves is settled.  Passed again, to an
    export of whatever collection, keys, season and dates, by whatever
    object, it is left as it is, without a warning: the ['folder'] made
    for the first export is the folder of the later ones. *)
Theorem export_params_settled {Imagery : Type} (self : Session Imagery)
    (collection : string) (ks : list key) (season : option string)
    (date_query : list (string * Z)) (export_params p' : list (string * param))
    (s s' : state) :
  exportImagery_params self collection ks season date_query export_params s
  = (p', Return tt s') ->
  forall (self2 : Session Imagery) collection2 ks2 season2 date_query2 s2,
    exportImagery_params self2 collection2 ks2 season2 date_query2 p' s2
    = (p', Return tt s2).
Proof.
  intros H self2 collection2 ks2 season2 date_query2 s2.
  apply export_params_returned_facts in H
    as (g & _ & Hg & [v Hv] & Hgeom & Hcrs & Hfolder & _).
  unfold exportImagery_params. rewrite (check_geom_args_single p' g s2 Hg).
  - unfold default_crs, dict_has. rewrite Hcrs. unfold default_folder. rewrite Hfolder.
    reflexivity.
  - exists v. rewrite (Hgeom g Hg). destruct (decide (g = g)); [exact Hv | congruence].
  - intros k Hk Hne. rewrite (Hgeom k Hk). destruct (decide (k = g)); [contradiction |].
    reflexivity.
Qed.

(** X18. What reaches [Export.image.toDrive].  After the lines of
    [exportImagery], [exportImageCollection] passes exactly the preferred
    geometry argument, with the caller's value, and [None] for the other
    two.  On a dict with a scale and a crsTransform and no dimensions that
    has not been through those lines, it would pass the scale, which is
    not the preferred one. *)
Theorem grid_args_follow_preference {Imagery : Type} (self : Session Imagery)
    (collection : string) (ks : list key) (season : option string)
    (date_query : list (string * Z)) (export_params p' : list (string * param))
    (s s' : state) :
  exportImagery_params self collection ks season date_query export_params s
  = (p', Return tt s') ->
  (exists g,
     preferred_geometry export_params = Some g /\
     utils_export.dimensions (utils_export.grid_args p')
     = (if decide (g = "dimensions") then dict_get g export_params else None) /\
     utils_export.crsTransform (utils_export.grid_args p')
     = (if decide (g = "crsTransform") then dict_get g export_params else None) /\
     utils_export.scale (utils_export.grid_args p')
     = (if decide (g = "scale") then dict_get g export_params else None))
  /\ (dict_has "dimensions" export_params = false ->
      dict_has "crsTransform" export_params = true ->
      dict_has "scale" export_params = true ->
      preferred_geometry export_params = Some "crsTransform" /\
      utils_export.crsTransform (utils_export.grid_args export_params) = None /\
      utils_export.scale (utils_export.grid_args export_params)
      = dict_get "scale" export_params).
Proof.
  intros H. split.
  - apply export_params_returned_facts in H
      as (g & Hpref & Hg & [v Hv] & Hgeom & _).
    exists g. split; [exact Hpref |].
    assert (Hd : dict_get "dimensions" p'
                 = if decide ("dimensions" = g) then dict_get "dimensions" export_params
                   else None)
      by (apply Hgeom, (bool_decide_unpack _); vm_compute; exact I).
    assert (Hc : dict_get "crsTransform" p'
                 = if decide ("crsTransform" = g) then dict_get "crsTransform" export_params
                   else None)
      by (apply Hgeom, (bool_decide_unpack _); vm_compute; exact I).
    assert (Hs : dict_get "scale" p'
                 = if decide ("scale" = g) then dict_get "scale" export_params else None)
      by (apply Hgeom, (bool_decide_unpack _); vm_compute; exact I).
    unfold utils_export.grid_args, dict_has. rewrite Hd, Hc, Hs.
    apply geom_args_cases in Hg as [-> | [-> | ->]]; rewrite Hv; split_and!; reflexivity.
  - intros Hd Hc Hs. unfold preferred_geometry, utils_export.grid_args.
    rewrite Hd, Hc, Hs. auto.
Qed.

End ExportParams.

(** The dict with a scale and a transform. *)
Lemma export_params_returned_witness :
  exists g,
    preferred_geometry two_geometries = Some g /\
    g ∈ geom_args /\
    (exists v, dict_get g two_geometries = Some v) /\
    (forall k, k ∈ geom_args ->
       dict_get k prepared_params = if decide (k = g) then dict_get k two_geometries else None) /\
    dict_get "crs" prepared_params
    = Some (default (PStr (default "EPSG:4326" (roi_configs.crs (config small_self))))
              (dict_get "crs" two_geometries)) /\
    dict_has "folder" prepared_params = true /\
    (forall v, dict_get "folder" two_geometries = Some v ->
               dict_get "folder" prepared_params = Some v) /\
    (forall k, k ∉ geom_args -> k <> "crs" -> k <> "folder" ->
               dict_get k prepared_params = dict_get k two_geometries) /\
    heap warned_state = heap empty_state /\ stdout warned_state = stdout empty_state.
Proof.
  apply (export_params_returned small_self "S1" [Some "IW"] (Some "2022") []
           two_geometries prepared_params empty_state warned_state).
  vm_compute. reflexivity.
Defined.

Example prepared_params_value :
  prepared_params
  = [("crsTransform", PList [40; 0; 500000; 0; -40; 6200000]); ("crs", PStr "EPSG:4326");
     ("folder", PStr "roi/S1_2022/IW")].
Proof. vm_compute. reflexivity. Qed.

(** The same dict, passed to an export of ['S2'] for another season. *)
Lemma export_params_settled_witness :
  exportImagery_params small_self "S2" [] (Some "2020") [] prepared_params empty_state
  = (prepared_params, Return tt empty_state)
  /\ dict_get "folder" prepared_params = Some (PStr "roi/S1_2022/IW").
Proof.
  split; [| vm_compute; reflexivity].
  apply (export_params_settled small_self "S1" [Some "IW"] (Some "2022") []
           two_geometries prepared_params empty_state warned_state).
  vm_compute. reflexivity.
Defined.

Lemma grid_args_follow_preference_witness :
  (exists g,
     preferred_geometry two_geometries = Some g /\
     utils_export.dimensions (utils_export.grid_args prepared_params)
     = (if decide (g = "dimensions") then dict_get g two_geometries else None) /\
     utils_export.crsTransform (utils_export.grid_args prepared_params)
     = (if decide (g = "crsTransform") then dict_get g two_geometries else None) /\
     utils_export.scale (utils_export.grid_args prepared_params)
     = (if decide (g = "scale") then dict_get g two_geometries else None))
  /\ (dict_has "dimensions" two_geometries = false ->
      dict_has "crsTransform" two_geometries = true ->
      dict_has "scale" two_geometries = true ->
      preferred_geometry two_geometries = Some "crsTransform" /\
      utils_export.crsTransform (utils_export.grid_args two_geometries) = None /\
      utils_export.scale (utils_export.grid_args two_geometries)
      = dict_get "scale" two_geometries).
Proof.
  apply (grid_args_follow_preference small_self "S1" [Some "IW"] (Some "2022") []
           two_geometries prepared_params empty_state warned_state).
  vm_compute. reflexivity.
Defined.

(** ** The pass over the export tasks *)

Section Polling.

Lemma newly_failed_ext states : forall i ids ids',
  (forall j, (i <= j)%nat -> j ∈ ids <-> j ∈ ids') ->
  newly_failed i states ids = newly_failed i states ids'.
Proof.
  induction states as [| st states IH]; intros i ids ids' H; [reflexivity |].
  cbn [newly_failed].
  rewrite (bool_decide_ext (i ∈ ids) (i ∈ ids') (H i ltac:(lia))).
  rewrite (IH (S i) ids ids') by (intros j Hj; apply H; lia). reflexivity.
Qed.

Lemma newly_failed_elem states : forall i ids j,
  j ∈ newly_failed i states ids <->
  (i <= j)%nat /\ (j ∉ ids) /\
  exists t_state, states !! (j - i)%nat = Some t_state /\ is_failed t_state = true.
Proof.
  induction states as [| st states IH]; intros i ids j; cbn [newly_failed].
  - rewrite elem_of_nil. split; [tauto | intros (_ & _ & t & Ht & _); discriminate Ht].
  - assert (Hrest : j ∈ newly_failed (S i) states ids <->
                    (i < j)%nat /\ (j ∉ ids) /\
                    exists t_state, (st :: states) !! (j - i)%nat = Some t_state
                                    /\ is_failed t_state = true).
    { rewrite IH. split.
      - intros (Hj & Hnot & t & Ht & Hf). split_and!; [lia | exact Hnot |].
        exists t. split; [| exact Hf].
        replace (j - i)%nat with (S (j - S i)) by lia. exact Ht.
      - intros (Hj & Hnot & t & Ht & Hf). split_and!; [lia | exact Hnot |].
        exists t. split; [| exact Hf].
        replace (j - i)%nat with (S (j - S i)) in Ht by lia. exact Ht. }
    destruct (is_failed st) eqn:Hst; cbn [andb].
    + destruct (bool_decide (i ∈ ids)) eqn:Hi; cbn [negb].
      * apply bool_decide_eq_true in Hi. rewrite Hrest. split.
        -- intros (Hj & Hnot & H). split_and!; [lia | exact Hnot | exact H].
        -- intros (Hj & Hnot & H). split_and!; [| exact Hnot | exact H].
           destruct (decide (i = j)) as [<- | Hne]; [contradiction | lia].
      * apply bool_decide_eq_false in Hi. rewrite elem_of_cons, Hrest. split.
        -- intros [-> | (Hj & Hnot & H)].
           ++ split_and!; [lia | exact Hi |]. exists st.
              rewrite Nat.sub_diag. split; [reflexivity | exact Hst].
           ++ split_and!; [lia | exact Hnot | exact H].
        -- intros (Hj & Hnot & H). destruct (decide (j = i)) as [-> | Hne]; [left; reflexivity |].
           right. split_and!; [lia | exact Hnot | exact H].
    + rewrite Hrest. split.
      * intros (Hj & Hnot & H). split_and!; [lia | exact Hnot | exact H].
      * intros (Hj & Hnot & t & Ht & Hf). split_and!; [| exact Hnot | eauto].
        destruct (decide (i = j)) as [<- | Hne]; [| lia].
        rewrite Nat.sub_diag in Ht. injection Ht as <-. congruence.
Qed.

Lemma newly_failed_NoDup states : forall i ids, NoDup (newly_failed i states ids).
Proof.
  induction states as [| st states IH]; intros i ids; cbn [newly_failed]; [constructor |].
  destruct (is_failed st && negb (bool_decide (i ∈ ids))); [| apply IH].
  apply list.NoDup_cons. split; [| apply IH].
  rewrite newly_failed_elem. intros (Hle & _). lia.
Qed.

Lemma poll_tasks_spec states : forall i p s,
  let r := (poll_tasks i states p s).1 in
  let s' := (poll_tasks i states p s).2 in
  let new := newly_failed i states (failed_taskids p) in
  failed_taskids r = failed_taskids p ++ new /\
  n_failed r = (n_failed p + length new)%nat /\
  (n_completed r + n_failed r
   = n_completed p + n_failed p + length (List.filter is_finished states))%nat /\
  task_outstanding r
  = task_outstanding p || existsb (fun t_state => negb (is_finished t_state)) states /\
  heap s' = heap s /\ warnings s' = warnings s /\
  stdout s' = stdout s ++ (failure_message <$> new).
Proof.
  induction states as [| st states IH]; intros i p s; cbn zeta.
  - cbn [poll_tasks newly_failed fst snd List.filter length existsb fmap list_fmap].
    rewrite !app_nil_r, Bool.orb_false_r. split_and!; try reflexivity; lia.
  - cbn [poll_tasks newly_failed List.filter existsb].
    assert (Hfin : is_failed st = true -> is_finished st = true).
    { unfold is_failed, is_finished. rewrite !bool_decide_eq_true, !elem_of_cons.
      tauto. }
    destruct (is_finished st) eqn:Hst; cbn [negb].
    + destruct (is_failed st && negb (bool_decide (i ∈ failed_taskids p))) eqn:Hf.
      * specialize (IH (S i)
                      {| task_outstanding := task_outstanding p; n_completed := n_completed p;
                         n_failed := S (n_failed p);
                         failed_taskids := failed_taskids p ++ [i] |}
                      (print (failure_message i) s)).
        cbn zeta in IH. cbn [failed_taskids n_failed n_completed task_outstanding] in IH.
        rewrite (newly_failed_ext states (S i) (failed_taskids p ++ [i]) (failed_taskids p))
          in IH.
        2:{ intros j Hj. rewrite elem_of_app, list_elem_of_singleton. split; [| tauto].
            intros [H | ->]; [exact H | lia]. }
        destruct IH as (H1 & H2 & H3 & H4 & H5 & H6 & H7).
        unfold failure_message in *.
        split_and!.
        -- rewrite H1, <- app_assoc. reflexivity.
        -- rewrite H2. cbn [length]. lia.
        -- rewrite H3. cbn [length]. lia.
        -- rewrite H4. cbn [orb]. reflexivity.
        -- rewrite H5. reflexivity.
        -- rewrite H6. reflexivity.
        -- rewrite H7. cbn [print stdout fmap list_fmap]. rewrite <- app_assoc. reflexivity.
      * specialize (IH (S i)
                      {| task_outstanding := task_outstanding p;
                         n_completed := S (n_completed p);
                         n_failed := n_failed p; failed_taskids := failed_taskids p |} s).
        cbn zeta in IH. cbn [failed_taskids n_failed n_completed task_outstanding] in IH.
        destruct IH as (H1 & H2 & H3 & H4 & H5 & H6 & H7).
        split_and!; try assumption.
        -- rewrite H3. cbn [length]. lia.
    + assert (Hnf : is_failed st = false).
      { destruct (is_failed st); [discriminate (Hfin eq_refl) | reflexivity]. }
      rewrite Hnf. cbn [andb].
      specialize (IH (S i)
                    {| task_outstanding := true; n_completed := n_completed p;
                       n_failed := n_failed p; failed_taskids := failed_taskids p |} s).
      cbn zeta in IH. cbn [failed_taskids n_failed n_completed task_outstanding] in IH.
      destruct IH as (H1 & H2 & H3 & H4 & H5 & H6 & H7).
      split_and!; try assumption.
      rewrite H4. cbn [orb]. rewrite Bool.orb_true_r. reflexivity.
Qed.

Lemma failed_ids_after states ids j :
  j ∈ ids ++ newly_failed 0 states ids <->
  j ∈ ids \/ exists t_state, states !! j = Some t_state /\ is_failed t_state = true.
Proof.
  rewrite elem_of_app, newly_failed_elem, Nat.sub_0_r. split.
  - intros [H | (_ & _ & H)]; auto.
  - intros [H | H]; [left; exact H |].
    destruct (decide (j ∈ ids)) as [Hin | Hnot]; [left; exact Hin |].
    right. split_and!; [lia | exact Hnot | exact H].
Qed.

(** X19. One pass over the export tasks accounts for every task: the
    tasks counted as completed or as failed are those whose state is
    final, the others are outstanding; the loop goes on exactly when some
    task is not in a final state; the recorded numbers of failed tasks
    are, after the pass, those recorded before and those of the tasks now
    in a failed state, none twice; the pass counts as failed the tasks it
    newly records; and it does not touch the store. *)
Theorem poll_pass_accounts (states : list string) (ids : list nat) (s : state) :
  let r := (poll_pass states ids s).1 in
  (n_completed r + n_failed r
   + length (List.filter (fun t_state => negb (is_finished t_state)) states)
   = length states)%nat
  /\ (task_outstanding r = false <->
      forall t_state, t_state ∈ states -> is_finished t_state = true)
  /\ (forall j, j ∈ failed_taskids r <->
                j ∈ ids \/ exists t_state, states !! j = Some t_state
                                           /\ is_failed t_state = true)
  /\ (NoDup ids -> NoDup (failed_taskids r))
  /\ n_failed r = (length (failed_taskids r) - length ids)%nat
  /\ heap (poll_pass states ids s).2 = heap s.
Proof.
  intros r. subst r. unfold poll_pass.
  pose proof (poll_tasks_spec states 0
                {| task_outstanding := false; n_completed := 0; n_failed := 0;
                   failed_taskids := ids |} s) as H.
  cbn zeta in H. cbn [failed_taskids n_failed n_completed task_outstanding] in H.
  destruct H as (H1 & H2 & H3 & H4 & H5 & _ & _).
  split_and!.
  - rewrite H3. pose proof (filter_length is_finished states). lia.
  - rewrite H4. cbn [orb]. split.
    + intros Hnone st Hst. destruct (is_finished st) eqn:Hfin; [reflexivity |].
      assert (Hex : existsb (fun t_state => negb (is_finished t_state)) states = true).
      { apply existsb_exists. exists st. split; [apply list_elem_of_In, Hst |].
        rewrite Hfin. reflexivity. }
      congruence.
    + intros Hall.
      destruct (existsb (fun t_state => negb (is_finished t_state)) states) eqn:Hex;
        [| reflexivity].
      apply existsb_exists in Hex as (st & Hst & Hneg).
      rewrite (Hall st (proj2 (list_elem_of_In _ _) Hst)) in Hneg. discriminate.
  - intros j. rewrite H1. apply failed_ids_after.
  - intros Hnd. rewrite H1. apply list.NoDup_app. split_and!;
      [exact Hnd | | apply newly_failed_NoDup].
    intros j Hj Hnew. apply newly_failed_elem in Hnew as (_ & Hnot & _). contradiction.
  - rewrite H1, H2, length_app. lia.
  - exact H5.
Qed.

(** X20. A failed task is counted as failed in one pass only.  In the
    pass that follows, with the states as they were, no task is counted
    as failed and nothing is printed: the tasks counted as completed are
    then the completed and the failed ones together. *)
Theorem failed_task_counted_once (states : list string) (ids : list nat) (s : state) :
  let r1 := (poll_pass states ids s).1 in
  let s1 := (poll_pass states ids s).2 in
  let r2 := (poll_pass states (failed_taskids r1) s1).1 in
  let s2 := (poll_pass states (failed_taskids r1) s1).2 in
  n_failed r2 = 0%nat
  /\ n_completed r2 = (n_completed r1 + n_failed r1)%nat
  /\ n_completed r2 = length (List.filter is_finished states)
  /\ failed_taskids r2 = failed_taskids r1
  /\ task_outstanding r2 = task_outstanding r1
  /\ stdout s2 = stdout s1.
Proof.
  cbn zeta. unfold poll_pass.
  pose proof (poll_tasks_spec states 0
                {| task_outstanding := false; n_completed := 0; n_failed := 0;
                   failed_taskids := ids |} s) as H.
  cbn zeta in H. cbn [failed_taskids n_failed n_completed task_outstanding] in H.
  destruct H as (H1 & H2 & H3 & H4 & _).
  set (run1 := poll_tasks 0 states _ s) in *.
  pose proof (poll_tasks_spec states 0
                {| task_outstanding := false; n_completed := 0; n_failed := 0;
                   failed_taskids := failed_taskids run1.1 |} run1.2) as H'.
  cbn zeta in H'. cbn [failed_taskids n_failed n_completed task_outstanding] in H'.
  assert (Hnone : newly_failed 0 states (failed_taskids run1.1) = []).
  { apply elem_of_nil_inv. intros j Hj.
    apply newly_failed_elem in Hj as (_ & Hnot & Hfailed). apply Hnot.
    rewrite H1. apply failed_ids_after. right. rewrite Nat.sub_0_r in Hfailed. exact Hfailed. }
  rewrite Hnone in H'. cbn [length fmap list_fmap] in H'. rewrite !app_nil_r in H'.
  destruct H' as (H1' & H2' & H3' & H4' & _ & _ & H7').
  split_and!.
  - rewrite H2'. reflexivity.
  - rewrite H2' in H3'. lia.
  - rewrite H2' in H3'. lia.
  - exact H1'.
  - rewrite H4', H4. reflexivity.
  - exact H7'.
Qed.

End Polling.

(** Five tasks, of which the second and the fourth failed: the first pass
    counts one completed and two failed, the second three completed and
    none failed. *)
Example poll_pass_five_tasks :
  let r1 := (poll_pass five_states [] empty_state).1 in
  let s1 := (poll_pass five_states [] empty_state).2 in
  let r2 := (poll_pass five_states (failed_taskids r1) s1).1 in
  (n_completed r1, n_failed r1, failed_taskids r1, task_outstanding r1)
  = (1%nat, 2%nat, [1%nat; 3%nat], true)
  /\ stdout s1 = ["Task 1 failed."; "Task 3 failed."]
  /\ (n_completed r2, n_failed r2, failed_taskids r2, task_outstanding r2)
     = (3%nat, 0%nat, [1%nat; 3%nat], true).
Proof. cbn zeta. split_and!; vm_compute; reflexivity. Qed.

(** ** The seasons that are loaded *)

Section Seasons.

Lemma insert_sorted_perm k l : Permutation (insert_sorted k l) (k :: l).
Proof.
  induction l as [| x l IH]; simpl; [reflexivity |].
  destruct (k <=? x)%string; [reflexivity |].
  rewrite IH. apply perm_swap.
Qed.

Lemma sorted_perm l : Permutation (sorted l) l.
Proof.
  unfold sorted. induction l as [| x l IH]; simpl; [reflexivity |].
  rewrite insert_sorted_perm, IH. reflexivity.
Qed.

Lemma insert_sorted_Sorted k l : Sorted str_le l -> Sorted str_le (insert_sorted k l).
Proof.
  induction 1 as [| x l Hl IH Hhd]; simpl; [repeat constructor |].
  destruct (k <=? x)%string eqn:Hkx.
  - constructor; [constructor; assumption |]. constructor. exact Hkx.
  - assert (Hxk : str_le x k).
    { destruct (String.leb_total k x) as [H | H]; [congruence | exact H]. }
    constructor; [exact IH |].
    destruct l as [| y l]; simpl; [constructor; exact Hxk |].
    destruct (k <=? y)%string; constructor; [exact Hxk |].
    inversion Hhd; assumption.
Qed.

Lemma sorted_Sorted l : Sorted str_le (sorted l).
Proof.
  unfold sorted. induction l as [| x l IH]; simpl; [constructor |].
  apply insert_sorted_Sorted, IH.
Qed.

Lemma install_top K rest : forall t k v t',
  top_keys K t -> k ∈ K -> install t k rest v = Ok t' -> top_keys K t'.
Proof.
  intros t k v t' (ch & -> & <-) Hk H.
  destruct rest as [| k' rest']; cbn [install] in H.
  - injection H as <-. eexists. split; [reflexivity |]. apply keys_dict_set, Hk.
  - destruct (install _ k' rest' v) as [sub |]; cbn [bind] in H; [| discriminate].
    injection H as <-. eexists. split; [reflexivity |]. apply keys_dict_set, Hk.
Qed.

Lemma load_entries_top K base szn coll_key entries : forall t t',
  Some szn ∈ K -> top_keys K t ->
  load_entries base szn coll_key entries t = Ok t' -> top_keys K t'.
Proof.
  induction entries as [| e entries IH]; intros t t' Hszn Ht H; cbn [load_entries] in H.
  - injection H as <-. exact Ht.
  - destruct (iter_filters (filters e)) as [fs |]; cbn [bind] in H; [| discriminate].
    destruct (install t (Some szn) _ _) as [t1 |] eqn:Ht1; cbn [bind] in H; [| discriminate].
    apply (IH t1 t' Hszn); [| exact H]. eapply install_top; eassumption.
Qed.

Lemma load_collections_top K ee_roi ee_collections szn date_start date_end flat :
  forall t t',
  Some szn ∈ K -> top_keys K t ->
  load_collections ee_roi ee_collections szn date_start date_end flat t = Ok t' ->
  top_keys K t'.
Proof.
  induction flat as [| [coll_key entries] flat IH]; intros t t' Hszn Ht H;
    cbn [load_collections] in H.
  - injection H as <-. exact Ht.
  - destruct (dict_get coll_key ee_collections) as [name |]; [| discriminate].
    destruct (load_entries _ szn coll_key entries t) as [t1 |] eqn:Ht1; cbn [bind] in H;
      [| discriminate].
    apply (IH t1 t' Hszn); [| exact H]. eapply load_entries_top; eassumption.
Qed.

Lemma load_seasons_top K ee_roi ee_collections flattened seasons : forall t t',
  (forall szn, szn ∈ keys seasons -> Some szn ∈ K) -> top_keys K t ->
  load_seasons ee_roi ee_collections flattened seasons t = Ok t' -> top_keys K t'.
Proof.
  induction seasons as [| [szn f] seasons IH]; intros t t' HK Ht H; cbn [load_seasons] in H.
  - injection H as <-. exact Ht.
  - destruct (dict_get szn flattened) as [flat |]; [| discriminate].
    destruct (load_collections _ _ szn _ _ flat t) as [t1 |] eqn:Ht1; cbn [bind] in H;
      [| discriminate].
    apply (IH t1 t'); [intros s0 Hs0; apply HK; right; exact Hs0 | | exact H].
    eapply load_collections_top; [apply HK; left | exact Ht | exact Ht1].
Qed.

Lemma string_keyed (children : list (key * tree)) : forall ks,
  keys children = Some <$> ks ->
  exists top, Node children = by_season top /\ keys top = ks.
Proof.
  induction children as [| [k t] children IH]; intros [| k0 ks] H; try discriminate.
  - exists []. split; reflexivity.
  - simpl in H. injection H as -> H. destruct (IH ks H) as (top & Htop & Hkeys).
    exists ((k0, t) :: top). unfold by_season in *. injection Htop as ->.
    simpl. rewrite Hkeys. split; reflexivity.
Qed.

(** X21. After construction the loaded seasons are the configured ones:
    the tree is a dict keyed by the season names of [imagery_filters], in
    their order, and [seasonsLoaded] answers with these names in ascending
    order, each as often as it is configured. *)
Theorem seasonsLoaded_after_init (hasattr : string -> bool)
    (registry : list (string * roi_configs.RoiConfig)) (clock : Clock) (roi : string)
    (session : Session tree) :
  __init__ hasattr registry clock roi = Ok session ->
  exists top,
    imagery session = by_season top /\
    keys top = keys (imagery_filters session) /\
    Sorted str_le (seasonsLoaded top) /\
    Permutation (seasonsLoaded top) (keys (imagery_filters session)).
Proof.
  intros Hinit. apply init_Ok_inv in Hinit as (coords & _ & _ & _ & _ & _ & Hload).
  unfold _loadImagery in Hload.
  apply (load_seasons_top (Some <$> keys (imagery_filters session))) in Hload.
  - destruct Hload as (children & Himagery & Hkeys).
    destruct (string_keyed children _ Hkeys) as (top & Htop & Htopkeys).
    exists top. rewrite Himagery. split_and!; [exact Htop | exact Htopkeys | |].
    + apply sorted_Sorted.
    + unfold seasonsLoaded. rewrite Htopkeys. apply sorted_perm.
  - intros szn Hszn. apply list_elem_of_fmap. exists szn. split; [reflexivity | exact Hszn].
  - eexists. split; [reflexivity |]. unfold keys. rewrite List.map_map. reflexivity.
Qed.

End Seasons.

(** The shipped region: its seasons are configured as 2022, 2020. *)
Lemma seasonsLoaded_after_init_witness :
  exists session,
    __init__ hasattr_Filter registry a_clock "example_sanikiluaq" = Ok session /\
    exists top,
      imagery session = by_season top /\
      keys top = ["2022"; "2020"] /\
      seasonsLoaded top = ["2020"; "2022"] /\
      Sorted str_le (seasonsLoaded top) /\
      Permutation (seasonsLoaded top) (keys (imagery_filters session)).
Proof.
  eexists. split; [vm_compute; reflexivity |].
  destruct (seasonsLoaded_after_init hasattr_Filter registry a_clock "example_sanikiluaq" _
              ltac:(vm_compute; reflexivity)) as (top & Htop & Hkeys & Hsorted & Hperm).
  exists top. split_and!; try assumption.
  unfold seasonsLoaded. rewrite Hkeys. reflexivity.
Defined.

(** ** The scripts *)

Section Splitting.

Variable sep : ascii.

Lemma split_not_nil s : split sep s <> [].
Proof.
  destruct s as [| c rest]; simpl; [discriminate |].
  destruct (decide (c = sep)); [discriminate |]. destruct (split sep rest); discriminate.
Qed.

Lemma join_str_cons x y l :
  join_str (one_char sep) (x :: y :: l) = x +:+ one_char sep +:+ join_str (one_char sep) (y :: l).
Proof. reflexivity. Qed.

Lemma join_str_String c w ws :
  join_str (one_char sep) (String c w :: ws) = String c (join_str (one_char sep) (w :: ws)).
Proof. destruct ws; reflexivity. Qed.

Lemma join_split s : join_str (one_char sep) (split sep s) = s.
Proof.
  induction s as [| c rest IH]; [reflexivity |]. cbn [split].
  destruct (decide (c = sep)) as [-> | Hne].
  - pose proof (split_not_nil rest) as Hnil.
    destruct (split sep rest) as [| w ws]; [contradiction |].
    rewrite join_str_cons, IH. reflexivity.
  - pose proof (split_not_nil rest) as Hnil.
    destruct (split sep rest) as [| w ws]; [contradiction |].
    rewrite join_str_String, IH. reflexivity.
Qed.

Lemma contains_one_char c w :
  contains (one_char sep) (String c w) = bool_decide (sep = c) || contains (one_char sep) w.
Proof.
  cbn [contains one_char String.prefix]. destruct (ascii_dec sep c) as [Heq | Hne].
  - rewrite (bool_decide_eq_true_2 _ Heq). destruct w; reflexivity.
  - rewrite (bool_decide_eq_false_2 _ Hne). reflexivity.
Qed.

Lemma split_words s : Forall (fun w => contains (one_char sep) w = false) (split sep s).
Proof.
  induction s as [| c rest IH]; [repeat constructor |]. cbn [split].
  destruct (decide (c = sep)) as [-> | Hne]; [constructor; [reflexivity | exact IH] |].
  destruct (split sep rest) as [| w ws]; [repeat constructor |].
  - rewrite contains_one_char. rewrite bool_decide_eq_false_2 by congruence. reflexivity.
  - inversion IH as [| ? ? Hw Hws]; subst. constructor; [| exact Hws].
    rewrite contains_one_char, Hw. rewrite bool_decide_eq_false_2 by congruence. reflexivity.
Qed.

Lemma split_one_word w : contains (one_char sep) w = false -> split sep w = [w].
Proof.
  induction w as [| c w IH]; [reflexivity |]. rewrite contains_one_char. intros H.
  apply orb_false_elim in H as [Hc Hw]. apply bool_decide_eq_false in Hc.
  cbn [split]. destruct (decide (c = sep)); [congruence |]. rewrite (IH Hw). reflexivity.
Qed.

Lemma split_append a b :
  split sep (a +:+ String sep b) = split sep a ++ split sep b.
Proof.
  induction a as [| c a IH].
  { change ("" +:+ String sep b) with (String sep b). cbn [split].
    destruct (decide (sep = sep)); [reflexivity | congruence]. }
  change (String c a +:+ String sep b) with (String c (a +:+ String sep b)).
  cbn [split]. rewrite IH. destruct (decide (c = sep)); [reflexivity |].
  pose proof (split_not_nil a) as Hnil.
  destruct (split sep a) as [| w ws]; [contradiction | reflexivity].
Qed.

Lemma join_strings (l : list string) :
  join (one_char sep) (Some <$> l) = Ok (join_str (one_char sep) l).
Proof.
  induction l as [| x l IH]; [reflexivity |]. destruct l as [| y l]; [reflexivity |].
  change (join (one_char sep) (Some <$> x :: y :: l))
    with (let* tail := join (one_char sep) (Some <$> y :: l) in
          Ok (x +:+ one_char sep +:+ tail)).
  rewrite IH. reflexivity.
Qed.

End Splitting.

(** X22. What the export script makes of [--keys].  The keys it passes
    are the pieces of the argument between underscores: joined by
    underscores again, as the default folder and the basename join them,
    they give the argument back, so the basename is the collection, the
    argument and the scale; and none of them holds an underscore, so a
    group whose key holds one cannot be asked for. *)
Theorem split_argument_round_trip (argument collection : string) (scale : option Z) :
  argument <> "" ->
  let nested_keys := Some <$> export_imagery.split_argument (Some argument) in
  join "_" nested_keys = Ok argument
  /\ (forall k, k ∈ export_imagery.split_argument (Some argument) ->
                contains "_" k = false)
  /\ utils_export.genImageBasename collection nested_keys scale
     = utils_export.genImageBasename collection [Some argument] scale.
Proof.
  intros Hne nested_keys. subst nested_keys.
  assert (Hsplit : export_imagery.split_argument (Some argument) = split "_" argument).
  { destruct argument; [contradiction | reflexivity]. }
  rewrite Hsplit.
  assert (Hjoin : join "_" (Some <$> split "_" argument) = Ok argument).
  { rewrite (join_strings "_"), (join_split "_"). reflexivity. }
  split_and!.
  - exact Hjoin.
  - intros k Hk. pose proof (split_words "_" argument) as Hall.
    rewrite list.Forall_forall in Hall. apply (Hall k Hk).
  - unfold utils_export.genImageBasename.
    pose proof (split_not_nil "_" argument) as Hnil.
    destruct (split "_" argument) as [| w ws] eqn:Hw; [contradiction |].
    change (Some <$> w :: ws) with (Some w :: (Some <$> ws)) in *.
    rewrite Hjoin. reflexivity.
Qed.

Lemma split_argument_round_trip_witness :
  join "_" (Some <$> export_imagery.split_argument (Some "EW_HH-HV")) = Ok "EW_HH-HV"
  /\ (forall k, k ∈ export_imagery.split_argument (Some "EW_HH-HV") ->
                contains "_" k = false)
  /\ utils_export.genImageBasename "S1"
       (Some <$> export_imagery.split_argument (Some "EW_HH-HV")) (Some 40)
     = utils_export.genImageBasename "S1" [Some "EW_HH-HV"] (Some 40).
Proof.
  apply (split_argument_round_trip "EW_HH-HV" "S1" (Some 40)). discriminate.
Defined.

(** X23. The export script never reaches the body of [exportImagery]:
    when the object is constructed, the call raises a [TypeError], since
    it passes a keyword [mosaic] that the method does not have; otherwise
    the script ends with the exception of the construction. *)
Theorem script_call_raises (hasattr : string -> bool)
    (registry : list (string * roi_configs.RoiConfig)) (clock : Clock) (roi : string) :
  ("mosaic" ∉ export_imagery.exportImagery_parameters)
  /\ ("mosaic" ∈ export_imagery.call_keywords)
  /\ match __init__ hasattr registry clock roi with
     | Ok _ =>
         exists msg,
           export_imagery.main hasattr registry clock roi = Raise (TypeError msg) /\
           contains "unexpected keyword argument 'mosaic'" msg = true
     | Raise e => export_imagery.main hasattr registry clock roi = Raise e
     end.
Proof.
  split_and!; [apply (bool_decide_unpack _); vm_compute; exact I
              | apply (bool_decide_unpack _); vm_compute; exact I |].
  unfold export_imagery.main. destruct (__init__ hasattr registry clock roi); [| reflexivity].
  cbn [bind]. eexists. split; [vm_compute; reflexivity | vm_compute; reflexivity].
Qed.

Section Download.

Import download_drive_files.

Lemma removelast_snoc {A : Type} (l : list A) x : removelast (l ++ [x]) = l.
Proof. apply removelast_last. Qed.

(** X24. The name a repeated file is saved under.  A path with an
    extension gets the count between an underscore and the last dot; a
    path without a dot gets the count, a dot and then the whole path: it
    loses its directory and its name becomes its extension. *)
Theorem renamed_inserts_count (stem ext : string) (count : nat) :
  contains "." ext = false ->
  renamed (stem +:+ "." +:+ ext) count
  = stem +:+ "_" +:+ str_int (Z.of_nat count) +:+ "." +:+ ext
  /\ renamed ext count = "_" +:+ str_int (Z.of_nat count) +:+ "." +:+ ext.
Proof.
  intros Hext. unfold renamed. split.
  - change (stem +:+ "." +:+ ext) with (stem +:+ String "." ext).
    rewrite (split_append "."), (split_one_word "." ext Hext).
    rewrite removelast_snoc, last_last, (join_split "."). reflexivity.
  - rewrite (split_one_word "." ext Hext). reflexivity.
Qed.

Lemma save_as_counts out_fp (fn_counts : list (string * nat)) q :
  default 0%nat (dict_get q (save_as out_fp fn_counts).2)
  = (default 0%nat (dict_get q fn_counts) + if decide (out_fp = q) then 1 else 0)%nat.
Proof.
  unfold save_as. destruct (dict_get out_fp fn_counts) as [count |] eqn:Hc; cbn [snd];
    (destruct (decide (out_fp = q)) as [<- | Hne];
     [rewrite dict_get_set_eq, Hc; simpl; lia
     | rewrite dict_get_set_ne by exact Hne; lia]).
Qed.

Lemma save_as_positive out_fp (fn_counts : list (string * nat)) :
  (forall q c, dict_get q fn_counts = Some c -> (1 <= c)%nat) ->
  forall q c, dict_get q (save_as out_fp fn_counts).2 = Some c -> (1 <= c)%nat.
Proof.
  intros Hpos q c. unfold save_as.
  destruct (dict_get out_fp fn_counts) as [count |]; cbn [snd];
    (destruct (decide (out_fp = q)) as [<- | Hne];
     [rewrite dict_get_set_eq; intros [= <-]; lia
     | rewrite dict_get_set_ne by exact Hne; apply Hpos]).
Qed.

Lemma save_all_at (out_fp : string) (post : list string) : forall pre fn_counts,
  (forall q c, dict_get q fn_counts = Some c -> (1 <= c)%nat) ->
  save_all (pre ++ out_fp :: post) fn_counts !! length pre
  = Some (let seen := (default 0%nat (dict_get out_fp fn_counts)
                       + occurrences out_fp pre)%nat in
          if decide (seen = 0%nat) then out_fp else renamed out_fp (S seen)).
Proof.
  induction pre as [| q pre IH]; intros fn_counts Hpos; cbn zeta.
  - cbn [app save_all length]. unfold occurrences. cbn [List.filter length].
    rewrite Nat.add_0_r. unfold save_as.
    destruct (dict_get out_fp fn_counts) as [count |] eqn:Hc; cbn [default from_option id].
    + pose proof (Hpos _ _ Hc). destruct (decide (count = 0%nat)); [lia | reflexivity].
    + reflexivity.
  - cbn [app save_all length].
    destruct (save_as q fn_counts) as [written fn_counts'] eqn:Hsave.
    cbn [lookup list_lookup]. 
    assert (Hcounts : fn_counts' = (save_as q fn_counts).2) by (rewrite Hsave; reflexivity).
    etransitivity; [apply (IH fn_counts'); rewrite Hcounts; apply save_as_positive, Hpos |].
    cbn zeta. rewrite Hcounts, save_as_counts. unfold occurrences. cbn [List.filter].
    destruct (decide (q = out_fp)) as [-> | Hne].
    + rewrite bool_decide_eq_true_2 by reflexivity. cbn [length].
      replace (default 0%nat (dict_get out_fp fn_counts) + 1
               + length (List.filter (fun x => bool_decide (x = out_fp)) pre))%nat
        with (default 0%nat (dict_get out_fp fn_counts)
              + S (length (List.filter (fun x => bool_decide (x = out_fp)) pre)))%nat by lia.
      reflexivity.
    + rewrite bool_decide_eq_false_2 by exact Hne. rewrite Nat.add_0_r. reflexivity.
Qed.


End Download.

(** A file that is there twice, and a third one whose own name is the
    name made for the second: the third is written over the second. *)
Example save_all_overwrites :
  download_drive_files.save_all ["out/a.tif"; "out/a.tif"; "out/a_2.tif"] []
  = ["out/a.tif"; "out/a_2.tif"; "out/a_2.tif"]
  /\ download_drive_files.save_all ["./out/README"; "./out/README"] []
     = ["./out/README"; "_2./out/README"].
Proof. split; vm_compute; reflexivity. Qed.

Lemma renamed_inserts_count_witness :
  download_drive_files.renamed ("out/a" +:+ "." +:+ "tif") 2
  = "out/a" +:+ "_" +:+ str_int (Z.of_nat 2) +:+ "." +:+ "tif"
  /\ download_drive_files.renamed "tif" 2 = "_" +:+ str_int (Z.of_nat 2) +:+ "." +:+ "tif".
Proof. apply (renamed_inserts_count "out/a" "tif" 2). reflexivity. Defined.
